(** * The space-time stack profiler (kp_space_time_stack.cpp)

    A shallow embedding of the aggregation engine of the Kokkos
    space-time-stack tool: the frame tree [StackNode], tree inversion,
    the reduction over MPI ranks, the allocation ledger [Allocations] and
    the session object [State].

    Conventions of the embedding.
    - [double] is embedded twice.  In this first part a duration is an exact
      rational [Q]: it serves the statements about the shape of the trees,
      the ledger and the events of a session, in which durations are stored
      and passed on.  The module [Binary64] further down embeds the
      arithmetic of the tool on the binary64 numbers themselves, every
      operation rounded to the nearest as on a processor with SSE2 (no
      fused or extended evaluation); the statements about sums,
      differences, quotients and comparisons of durations, which depend on
      the rounding, are made there.
    - [std::uint64_t] is a [Z] reduced modulo [2^64] after every arithmetic
      step ([wrap64]).  The call counter [std::int64_t number_of_calls] is a
      [Z]: its overflow is undefined in C++ and is not modelled.
    - A [std::set] is a duplicate-free list kept in the order of its
      comparator; iteration over the set is iteration over the list.
    - A [StackNode*] is the list of [(kind, name)] keys that leads from the
      root of the tree to the node.  Elements of a [std::set] never move and
      the tool never erases a frame, so this path names the same node for
      the whole life of the tree.  [nullptr] is [None].
    - [abort()] and a failed [assert] end the run with [Abort]; a member
      call through [nullptr] is [Fault]. *)

From Stdlib Require Import ZArith QArith Qminmax List String Ascii Bool Lia.
From Stdlib Require Import Permutation Sorted OrdersEx RelationClasses.
From Stdlib Require Floats Uint63.
Import ListNotations.

Local Open Scope Z_scope.

(** ** Outcomes of a call *)

Inductive outcome (A : Type) : Type :=
| Ok (a : A)
| Abort (diagnostic : string)
| Fault.

Arguments Ok {A} a.
Arguments Abort {A} diagnostic.
Arguments Fault {A}.

Definition bind {A B : Type} (m : outcome A) (k : A -> outcome B) : outcome B :=
  match m with
  | Ok a => k a
  | Abort d => Abort d
  | Fault => Fault
  end.

Notation "x <- m ;; k" := (bind m (fun x => k))
  (at level 61, m at next level, right associativity).

(** The call does not return. *)
Definition fails {A : Type} (r : outcome A) : Prop :=
  match r with
  | Ok _ => False
  | _ => True
  end.

(** ** [std::set] with a comparator *)

Section StdSet.

Variable A : Type.
Variable lt : A -> A -> bool.

(** Two elements are equivalent when neither is less than the other. *)
Definition equiv (a b : A) : bool := negb (lt a b) && negb (lt b a).

(** [find]: the element equivalent to [x], if any. *)
Fixpoint set_find (x : A) (s : list A) : option A :=
  match s with
  | [] => None
  | y :: s' => if equiv x y then Some y else set_find x s'
  end.

(** The place of a new element: before the first element greater than it. *)
Fixpoint set_place (x : A) (s : list A) : list A :=
  match s with
  | [] => [x]
  | y :: s' => if lt x y then x :: s else y :: set_place x s'
  end.

(** [emplace]: the set and [second] of the returned pair. *)
Definition set_emplace (x : A) (s : list A) : list A * bool :=
  match set_find x s with
  | Some _ => (s, false)
  | None => (set_place x s, true)
  end.

(** [erase(find(x))]. *)
Fixpoint set_erase (x : A) (s : list A) : list A :=
  match s with
  | [] => []
  | y :: s' => if equiv x y then s' else y :: set_erase x s'
  end.

(** The comparator as a relation. *)
Definition lt_true (a b : A) : Prop := lt a b = true.

End StdSet.

Arguments equiv {A} lt a b.
Arguments set_find {A} lt x s.
Arguments set_place {A} lt x s.
Arguments set_emplace {A} lt x s.
Arguments set_erase {A} lt x s.
Arguments lt_true {A} lt a b.

(** ** Machine integers and the clock *)

Definition wrap64 (z : Z) : Z := z mod 2 ^ 64.

(** [Now]: a reading of the high resolution clock, in nanosecond ticks. *)
Definition Now := Z.

(** [operator-(Now b, Now a)]: the nanosecond count times [1e-9], as a
    rational number; [Binary64.Now_sub] is the [double] the code computes. *)
Definition Now_sub (b a : Now) : Q := inject_Z (b - a) * (1 # 1000000000).

(** ** Frames *)

Inductive StackKind : Type :=
| STACK_FOR
| STACK_REDUCE
| STACK_SCAN
| STACK_REGION
| STACK_COPY.

Definition StackKind_int (k : StackKind) : Z :=
  match k with
  | STACK_FOR => 0
  | STACK_REDUCE => 1
  | STACK_SCAN => 2
  | STACK_REGION => 3
  | STACK_COPY => 4
  end.

Definition string_lt (a b : string) : bool :=
  match String_as_OT.compare a b with
  | Lt => true
  | _ => false
  end.

(** The identity of a child among its siblings. *)
Definition key : Type := (StackKind * string)%type.

Definition key_lt (a b : key) : bool :=
  if negb (StackKind_int (fst a) =? StackKind_int (fst b))
  then StackKind_int (fst a) <? StackKind_int (fst b)
  else string_lt (snd a) (snd b).

Definition key_eqb (a b : key) : bool := equiv key_lt a b.

(** [struct StackNode].  The [parent] pointer is not stored: a node is
    reached by a path from the root, and its parent is the path without its
    last key.  [max_runtime], [avg_runtime] and [start_time] are not set by
    the constructor; the model stores zero there. *)
#[local] Unset Elimination Schemes.

Inductive StackNode : Type := mkStackNode {
  name : string;
  kind : StackKind;
  children : list StackNode;
  total_runtime : Q;
  max_runtime : Q;
  avg_runtime : Q;
  number_of_calls : Z;
  start_time : Now
}.

#[local] Set Elimination Schemes.

Definition node_key (n : StackNode) : key := (kind n, name n).

(** [StackNode::operator<] *)
Definition StackNode_lt (a b : StackNode) : bool :=
  key_lt (node_key a) (node_key b).

(** The constructor [StackNode(parent, name, kind)]. *)
Definition new_StackNode (name_in : string) (kind_in : StackKind) : StackNode :=
  mkStackNode name_in kind_in [] 0 0 0 0 0.

Definition set_children (n : StackNode) (cs : list StackNode) : StackNode :=
  mkStackNode (name n) (kind n) cs (total_runtime n) (max_runtime n)
    (avg_runtime n) (number_of_calls n) (start_time n).

(** [StackNode::get_child] on the node itself: the node after the call.
    The returned pointer is the child with key [(child_kind, child_name)]. *)
Definition get_child (n : StackNode) (child_name : string) (child_kind : StackKind)
  : StackNode :=
  let candidate := new_StackNode child_name child_kind in
  match set_find StackNode_lt candidate (children n) with
  | Some _ => n
  | None => set_children n (fst (set_emplace StackNode_lt candidate (children n)))
  end.

(** *** Pointers into a tree *)

Definition path : Type := list key.

Definition node_ptr : Type := option path.

Definition find_child (k : key) (cs : list StackNode) : option StackNode :=
  set_find StackNode_lt (new_StackNode (snd k) (fst k)) cs.

(** Dereference: the node a path points to. *)
Fixpoint node_at (p : path) (n : StackNode) : option StackNode :=
  match p with
  | [] => Some n
  | k :: p' =>
      match find_child k (children n) with
      | Some c => node_at p' c
      | None => None
      end
  end.

(** A write through a pointer: [f] applied to the node at [p]. *)
Fixpoint update_child (k : key) (g : StackNode -> StackNode)
  (cs : list StackNode) : list StackNode :=
  match cs with
  | [] => []
  | c :: cs' =>
      if key_eqb (node_key c) k then g c :: cs' else c :: update_child k g cs'
  end.

Fixpoint modify_at (f : StackNode -> StackNode) (p : path) (n : StackNode)
  : StackNode :=
  match p with
  | [] => f n
  | k :: p' => set_children n (update_child k (modify_at f p') (children n))
  end.

(** [p->parent] *)
Definition parent_ptr (p : path) : node_ptr :=
  match p with
  | [] => None
  | _ => Some (removelast p)
  end.

(** [p->get_child(name, kind)] for a node inside the tree rooted at [root]:
    the tree after the call and the returned pointer. *)
Definition get_child_at (root : StackNode) (p : path)
  (child_name : string) (child_kind : StackKind) : StackNode * path :=
  (modify_at (fun n => get_child n child_name child_kind) p root,
   p ++ [(child_kind, child_name)]).

(** [StackNode::begin] and [StackNode::end] *)
Definition begin (t : Now) (n : StackNode) : StackNode :=
  mkStackNode (name n) (kind n) (children n) (total_runtime n) (max_runtime n)
    (avg_runtime n) (number_of_calls n + 1) t.

Definition end_ (end_time : Now) (n : StackNode) : StackNode :=
  mkStackNode (name n) (kind n) (children n)
    (total_runtime n + Now_sub end_time (start_time n))%Q (max_runtime n)
    (avg_runtime n) (number_of_calls n) (start_time n).

Local Open Scope string_scope.

(** [StackNode::get_full_name] of the node [p] points to.  The loop runs from
    the node up to the root; the keys of the path carry the names, the last
    key first. *)
Definition get_full_name (root : StackNode) (p : path) : string :=
  let below_root :=
    fold_left (fun full_name k => snd k ++ "/" ++ full_name) (rev p) "" in
  if (name root =? "")%string then below_root
  else name root ++ "/" ++ below_root.

(** ** The allocation ledger *)

Local Open Scope Z_scope.

Inductive Space : Type :=
| SPACE_HOST
| SPACE_CUDA.

(** [struct Allocation]; [ptr] is only ever compared. *)
Record Allocation : Type := mkAllocation {
  alloc_name : string;
  ptr : Z;
  size : Z;
  frame : node_ptr
}.

(** [Allocation::operator<]: larger sizes first, then by address. *)
Definition Allocation_lt (a b : Allocation) : bool :=
  if negb (size a =? size b) then size a >? size b else ptr a <? ptr b.

(** [struct Allocations] *)
Record Allocations : Type := mkAllocations {
  total_size : Z;
  alloc_set : list Allocation
}.

Definition Allocations_new : Allocations := mkAllocations 0 [].

(** [Allocations::allocate] *)
Definition Allocations_allocate (a : Allocations) (name_in : string)
  (ptr_in size_in : Z) (frame_in : node_ptr) : outcome Allocations :=
  let res :=
    set_emplace Allocation_lt (mkAllocation name_in ptr_in size_in frame_in)
      (alloc_set a) in
  if snd res
  then Ok (mkAllocations (wrap64 (total_size a + size_in)) (fst res))
  else Abort "assert(res.second)".

(** [Allocations::deallocate] *)
Definition Allocations_deallocate (a : Allocations) (name_in : string)
  (ptr_in size_in : Z) (frame_in : node_ptr) : outcome Allocations :=
  let key := mkAllocation name_in ptr_in size_in frame_in in
  match set_find Allocation_lt key (alloc_set a) with
  | None => Abort "assert(it != alloc_set.end())"
  | Some it =>
      Ok (mkAllocations (wrap64 (total_size a - size it))
            (set_erase Allocation_lt key (alloc_set a)))
  end.

(** ** The session *)

(** An array of [NSPACES = 2] ledgers, indexed by [Space]. *)
Definition per_space : Type := (Allocations * Allocations)%type.

Definition space_get (a : per_space) (s : Space) : Allocations :=
  match s with
  | SPACE_HOST => fst a
  | SPACE_CUDA => snd a
  end.

Definition space_set (a : per_space) (s : Space) (v : Allocations) : per_space :=
  match s with
  | SPACE_HOST => (v, snd a)
  | SPACE_CUDA => (fst a, v)
  end.

(** [struct State] *)
Record State : Type := mkState {
  stack_root : StackNode;
  stack_frame : node_ptr;
  current_allocations : per_space;
  hwm_allocations : per_space
}.

(** [State::allocate] *)
Definition State_allocate (st : State) (space : Space) (name_in : string)
  (ptr_in size_in : Z) : outcome State :=
  cur <- Allocations_allocate (space_get (current_allocations st) space)
           name_in ptr_in size_in (stack_frame st) ;;
  let current' := space_set (current_allocations st) space cur in
  let hwm' :=
    if total_size cur >? total_size (space_get (hwm_allocations st) space)
    then space_set (hwm_allocations st) space cur
    else hwm_allocations st in
  Ok (mkState (stack_root st) (stack_frame st) current' hwm').

(** [State::deallocate] *)
Definition State_deallocate (st : State) (space : Space) (name_in : string)
  (ptr_in size_in : Z) : outcome State :=
  cur <- Allocations_deallocate (space_get (current_allocations st) space)
           name_in ptr_in size_in (stack_frame st) ;;
  Ok (mkState (stack_root st) (stack_frame st)
        (space_set (current_allocations st) space cur) (hwm_allocations st)).

Local Open Scope string_scope.

Definition dquote : string := String (ascii_of_nat 34) EmptyString.

Definition newline : string := String (ascii_of_nat 10) EmptyString.

(** Pointer comparison: two pointers into one tree are equal when they are
    both null or follow the same keys. *)
Fixpoint path_eqb (p q : path) : bool :=
  match p, q with
  | [], [] => true
  | k :: p', l :: q' => key_eqb k l && path_eqb p' q'
  | _, _ => false
  end.

Definition ptr_eqb (a b : node_ptr) : bool :=
  match a, b with
  | None, None => true
  | Some p, Some q => path_eqb p q
  | _, _ => false
  end.

(** The constructor [State()]; [t] is the clock reading of [begin]. *)
Definition State_new (t : Now) : State :=
  mkState (begin t (new_StackNode "" STACK_REGION)) (Some [])
    (Allocations_new, Allocations_new) (Allocations_new, Allocations_new).

(** [State::begin_frame] *)
Definition begin_frame (st : State) (t : Now) (name_in : string)
  (kind_in : StackKind) : outcome State :=
  match stack_frame st with
  | None => Fault
  | Some p =>
      let res := get_child_at (stack_root st) p name_in kind_in in
      Ok (mkState (modify_at (begin t) (snd res) (fst res)) (Some (snd res))
            (current_allocations st) (hwm_allocations st))
  end.

(** [State::end_frame] *)
Definition end_frame (st : State) (end_time : Now) : outcome State :=
  match stack_frame st with
  | None => Fault
  | Some p =>
      Ok (mkState (modify_at (end_ end_time) p (stack_root st)) (parent_ptr p)
            (current_allocations st) (hwm_allocations st))
  end.

(** [State::begin_kernel]: the state and the returned kernel id, which is
    the cursor converted to an integer. *)
Definition begin_kernel (st : State) (t : Now) (name_in : string)
  (kind_in : StackKind) : outcome (State * node_ptr) :=
  st' <- begin_frame st t name_in kind_in ;;
  Ok (st', stack_frame st').

(** [State::end_kernel] *)
Definition end_kernel (st : State) (end_time : Now) (kernid : node_ptr)
  : outcome State :=
  if negb (ptr_eqb kernid (stack_frame st)) then
    match stack_frame st with
    | None => Fault
    | Some p =>
        Abort ("Expected " ++ dquote ++ get_full_name (stack_root st) p
                 ++ dquote ++ " to end, got different kernel ID" ++ newline)
    end
  else end_frame st end_time.

(** [State::push_region] and [State::pop_region] *)
Definition push_region (st : State) (t : Now) (name_in : string)
  : outcome State :=
  begin_frame st t name_in STACK_REGION.

Definition pop_region (st : State) (t : Now) : outcome State :=
  end_frame st t.

(** [State::begin_deep_copy] and [State::end_deep_copy] *)
Definition begin_deep_copy (st : State) (t : Now) (dst_name src_name : string)
  : outcome State :=
  let frame_name :=
    dquote ++ dst_name ++ dquote ++ "=" ++ dquote ++ src_name ++ dquote in
  begin_frame st t frame_name STACK_COPY.

Definition end_deep_copy (st : State) (t : Now) : outcome State :=
  end_frame st t.

(** The destructor [~State()] up to the end of the root frame: the check
    that the cursor is back at the root, then [stack_frame->end]. *)
Definition State_finish (st : State) (end_time : Now) : outcome StackNode :=
  match stack_frame st with
  | None => Fault
  | Some [] => Ok (modify_at (end_ end_time) [] (stack_root st))
  | Some p =>
      Abort ("Program ended before " ++ dquote
               ++ get_full_name (stack_root st) p ++ dquote ++ " ended"
               ++ newline)
  end.

(** The ledger events of a session, and a run of them. *)
Inductive ledger_event : Type :=
| Ev_allocate (space : Space) (name_in : string) (ptr_in size_in : Z)
| Ev_deallocate (space : Space) (name_in : string) (ptr_in size_in : Z).

Definition ledger_step (st : State) (ev : ledger_event) : outcome State :=
  match ev with
  | Ev_allocate sp nm p sz => State_allocate st sp nm p sz
  | Ev_deallocate sp nm p sz => State_deallocate st sp nm p sz
  end.

(** The states after each event of a run, in order. *)
Fixpoint ledger_trace (st : State) (evs : list ledger_event)
  : outcome (list State) :=
  match evs with
  | [] => Ok []
  | ev :: evs' =>
      st' <- ledger_step st ev ;;
      rest <- ledger_trace st' evs' ;;
      Ok (st' :: rest)
  end.

(** ** Inversion

    The walk of [invert] and the frames it creates; the sums it leaves in
    them are computed in binary64 in [Binary64.invert]. *)

Local Open Scope Q_scope.

Fixpoint tree_size (n : StackNode) : nat :=
  S (list_sum (map tree_size (children n))).

Definition add_time (self_time : Q) (calls : Z) (n : StackNode) : StackNode :=
  mkStackNode (name n) (kind n) (children n) (total_runtime n + self_time)
    (max_runtime n) (avg_runtime n) (number_of_calls n + calls)%Z
    (start_time n).

(** The inner loop of [invert]: [chain] holds the keys of [node], its
    parent, and so on up to the root, which is what the walk along
    [node->parent] reads; [inv_node] is the cursor in the inverted tree. *)
Fixpoint invert_walk (chain : list key) (self_time : Q) (calls : Z)
  (inv_root : StackNode) (inv_node : path) : StackNode :=
  match chain with
  | [] => inv_root
  | k :: chain' =>
      let res := get_child_at inv_root inv_node (snd k) (fst k) in
      invert_walk chain' self_time calls
        (modify_at (add_time self_time calls) (snd res) (fst res)) (snd res)
  end.

(** [self_time] after the loop over the children. *)
Definition self_time_of (node : StackNode) : Q :=
  fold_left (fun s child => s - total_runtime child) (children node)
    (total_runtime node).

(** One turn of the outer loop, for a node whose ancestors have the keys
    [ancestors] (parent first, root last). *)
Definition invert_visit (node : StackNode) (ancestors : list key)
  (inv_root : StackNode) : StackNode :=
  let self_time := self_time_of node in
  let calls := number_of_calls node in
  invert_walk (node_key node :: ancestors) self_time calls
    (modify_at (add_time self_time calls) [] inv_root) [].

(** The queue of [invert] holds pointers to nodes of a tree that does not
    change: an entry is the node together with the keys of its ancestors. *)
Fixpoint invert_loop (fuel : nat) (q : list (StackNode * list key))
  (inv_root : StackNode) : option StackNode :=
  match q with
  | [] => Some inv_root
  | (node, ancestors) :: q' =>
      match fuel with
      | O => None
      | S fuel' =>
          invert_loop fuel'
            (q' ++ map (fun child => (child, node_key node :: ancestors))
                     (children node))
            (invert_visit node ancestors inv_root)
      end
  end.

(** [StackNode::invert], called on a root. *)
Definition invert (this : StackNode) : option StackNode :=
  invert_loop (tree_size this) [(this, [])] (new_StackNode "" STACK_REGION).

(** ** The order of the printed children *)

Definition Qltb (a b : Q) : bool :=
  match a ?= b with
  | Lt => true
  | _ => false
  end.

(** The comparator [by_time] of [print_recursive]. *)
Definition by_time (a b : StackNode) : bool :=
  if negb (Qeq_bool (total_runtime a) (total_runtime b))
  then Qltb (total_runtime b) (total_runtime a)
  else string_lt (name a) (name b).

(** A [std::set] after a loop of insertions. *)
Definition insert_all {A : Type} (lt : A -> A -> bool) (xs : list A) : list A :=
  fold_left (fun s x => fst (set_emplace lt x s)) xs [].

(** ** Reduction over the ranks *)

Definition allreduce_sum (x0 : Q) (xs : list Q) : Q := fold_left Qplus xs x0.

Definition allreduce_max (x0 : Q) (xs : list Q) : Q := fold_left Qmax xs x0.

(** The fields of a visited node after the three collectives. *)
Definition reduced (sum mx : Q) (comm_size : Z) (n : StackNode) : StackNode :=
  mkStackNode (name n) (kind n) (children n) sum mx (sum / inject_Z comm_size)
    (number_of_calls n) (start_time n).

(** One process: its tree and its queue of node pointers. *)
Record rank : Type := mkRank {
  rank_tree : StackNode;
  rank_queue : list path
}.

(** A rank other than 0 at the top of the loop: its popped pointer, the node
    it points to and the rest of its queue. *)
Definition pop_rank (r : rank) : option (path * StackNode * list path) :=
  match rank_queue r with
  | [] => None
  | p :: q' =>
      match node_at p (rank_tree r) with
      | Some n => Some (p, n, q')
      | None => None
      end
  end.

Fixpoint pop_ranks (rs : list rank) : option (list (path * StackNode * list path)) :=
  match rs with
  | [] => Some []
  | r :: rs' =>
      match pop_rank r, pop_ranks rs' with
      | Some x, Some xs => Some (x :: xs)
      | _, _ => None
      end
  end.

(** The [else] branch: the children named by rank 0 are looked up or
    created, in the order of the broadcasts. *)
Definition adopt_children (t : StackNode) (p : path) (keys : list key)
  : StackNode :=
  fold_left (fun t' k => fst (get_child_at t' p (snd k) (fst k))) keys t.

Definition push_children (q : list path) (p : path) (keys : list key)
  : list path :=
  (q ++ map (fun k => p ++ [k]) keys)%list.

(** One turn of the loop on every rank at once; [None] when a rank has left
    its loop or holds a pointer to no node, so that the collectives of the
    others cannot complete. *)
Definition reduce_step (r0 : rank) (others : list rank)
  : option (rank * list rank) :=
  match pop_rank r0, pop_ranks others with
  | Some (p0, n0, q0), Some popped =>
      let locals := map (fun x => total_runtime (snd (fst x))) popped in
      let sum := allreduce_sum (total_runtime n0) locals in
      let mx := allreduce_max (total_runtime n0) locals in
      let comm_size := Z.of_nat (S (List.length others)) in
      let keys := map node_key (children n0) in
      let r0' :=
        mkRank (modify_at (reduced sum mx comm_size) p0 (rank_tree r0))
          (push_children q0 p0 keys) in
      let step_other (r : rank) (x : path * StackNode * list path) :=
        let p := fst (fst x) in
        mkRank
          (adopt_children (modify_at (reduced sum mx comm_size) p (rank_tree r))
             p keys)
          (push_children (snd x) p keys) in
      Some (r0', map (fun rx => step_other (fst rx) (snd rx))
                   (combine others popped))
  | _, _ => None
  end.

Definition queue_empty (r : rank) : bool :=
  match rank_queue r with
  | [] => true
  | _ => false
  end.

Fixpoint reduce_loop (fuel : nat) (r0 : rank) (others : list rank)
  : option (StackNode * list StackNode) :=
  if queue_empty r0 && forallb queue_empty others
  then Some (rank_tree r0, map rank_tree others)
  else
    match fuel with
    | O => None
    | S fuel' =>
        match reduce_step r0 others with
        | Some (r0', others') => reduce_loop fuel' r0' others'
        | None => None
        end
    end.

(** [StackNode::reduce_over_mpi] run on rank 0 with the tree [this0] and on
    the other ranks with the trees [those]: the trees after the call. *)
Definition reduce_over_mpi (this0 : StackNode) (those : list StackNode)
  : option (StackNode * list StackNode) :=
  reduce_loop (tree_size this0) (mkRank this0 [[]])
    (map (fun t => mkRank t [[]]) those).

(** ** Notions used in the statements *)

Local Open Scope Z_scope.

Definition is_uint64 (z : Z) : Prop := 0 <= z < 2 ^ 64.

Definition event_size (ev : ledger_event) : Z :=
  match ev with
  | Ev_allocate _ _ _ sz => sz
  | Ev_deallocate _ _ _ sz => sz
  end.

(** The sum of the sizes of the live records of a ledger. *)
Definition live_sum (a : Allocations) : Z :=
  fold_right Z.add 0 (map size (alloc_set a)).

Definition max_list (l : list Z) : Z := fold_right Z.max 0 l.

(** Some live record has the size and address [(sz, p)]. *)
Definition live_key (a : Allocations) (p sz : Z) : bool :=
  existsb (fun r => (size r =? sz) && (ptr r =? p)) (alloc_set a).

(** The rules of the event source: no allocate of a live key, no deallocate
    of a key that is not live. *)
Definition obeys_rules (st : State) (ev : ledger_event) : Prop :=
  match ev with
  | Ev_allocate sp _ p sz =>
      live_key (space_get (current_allocations st) sp) p sz = false
  | Ev_deallocate sp _ p sz =>
      live_key (space_get (current_allocations st) sp) p sz = true
  end.

Fixpoint follows_rules (st : State) (evs : list ledger_event) : Prop :=
  match evs with
  | [] => True
  | ev :: evs' =>
      obeys_rules st ev /\
      forall st', ledger_step st ev = Ok st' -> follows_rules st' evs'
  end.

Definition current_total (sp : Space) (st : State) : Z :=
  total_size (space_get (current_allocations st) sp).

Definition hwm_total (sp : Space) (st : State) : Z :=
  total_size (space_get (hwm_allocations st) sp).

Definition current_live_sum (sp : Space) (st : State) : Z :=
  live_sum (space_get (current_allocations st) sp).

Definition sizes_nonneg (st : State) : Prop :=
  forall sp, Forall (fun r => 0 <= size r)
               (alloc_set (space_get (current_allocations st) sp)).

(** The invariant of [std::set]: strictly increasing for the comparator. *)
Fixpoint sortedb {A : Type} (lt : A -> A -> bool) (l : list A) : bool :=
  match l with
  | [] => true
  | x :: l' =>
      match l' with
      | [] => true
      | y :: _ => lt x y && sortedb lt l'
      end
  end.

(** A tree all of whose [children] sets satisfy that invariant. *)
Fixpoint wf (n : StackNode) : bool :=
  sortedb StackNode_lt (children n) && forallb wf (children n).

(** The shape of a tree: its keys, without the counters. *)
#[local] Unset Elimination Schemes.

Inductive key_tree : Type :=
| KT (k : key) (cs : list key_tree).

#[local] Set Elimination Schemes.

Fixpoint shape (n : StackNode) : key_tree :=
  KT (node_key n) (map shape (children n)).

(** All the nodes of a tree, the root first. *)
Fixpoint nodes (n : StackNode) : list StackNode :=
  n :: flat_map nodes (children n).

(** [q] without its prefix [p], when [p] is a prefix of [q]. *)
Fixpoint strip_prefix (p q : path) : option path :=
  match p, q with
  | [], _ => Some q
  | k :: p', l :: q' => if key_eqb l k then strip_prefix p' q' else None
  | _ :: _, [] => None
  end.

(** The local [total_runtime] a rank contributes for the frame at [p]:
    zero when the rank never entered that frame. *)
Definition local_total (p : path) (t : StackNode) : Q :=
  match node_at p t with
  | Some n => total_runtime n
  | None => 0%Q
  end.

(** A node without its children: its own fields only. *)
Definition bare (n : StackNode) : StackNode := set_children n [].

(** A sequence of later [get_child] calls, each with the frame it is called
    on and the name and kind asked for. *)
Definition get_child_calls (root : StackNode)
  (calls : list (path * string * StackKind)) : StackNode :=
  fold_left
    (fun t c => fst (get_child_at t (fst (fst c)) (snd (fst c)) (snd c)))
    calls root.

(** [a] is printed before [b]: more time, or as much time and a smaller
    name. *)
Definition printed_before (a b : StackNode) : Prop :=
  (total_runtime b < total_runtime a)%Q \/
  ((total_runtime a == total_runtime b)%Q /\
   string_lt (name a) (name b) = true).

(** The keys of the children of a node, in the order of the set. *)
Definition child_keys (n : StackNode) : list key :=
  map node_key (children n).

(** The values the three collectives leave at the frame [p], from the trees
    [this0] of rank 0 and [those] of the other ranks as they were before the
    reduction. *)
Definition merged_total (this0 : StackNode) (those : list StackNode)
  (p : path) : Q :=
  allreduce_sum (local_total p this0) (map (local_total p) those).

Definition merged_max (this0 : StackNode) (those : list StackNode)
  (p : path) : Q :=
  allreduce_max (local_total p this0) (map (local_total p) those).

Definition comm_size_of (those : list StackNode) : Z :=
  Z.of_nat (S (List.length those)).

Definition merged (this0 : StackNode) (those : list StackNode) (p : path)
  (n : StackNode) : Prop :=
  total_runtime n = merged_total this0 those p /\
  max_runtime n = merged_max this0 those p /\
  avg_runtime n
  = (merged_total this0 those p / inject_Z (comm_size_of those))%Q.

(** *** The queue discipline of the reduction *)

(** [p] is still to be visited: a queued pointer leads to it or to one of
    its ancestors. *)
Definition pending (queue : list path) (p : path) : Prop :=
  exists q r, In q queue /\ p = (q ++ r)%list.

(** No queued pointer is an ancestor of, or equal to, another one. *)
Fixpoint antichain (queue : list path) : Prop :=
  match queue with
  | [] => True
  | q :: queue' =>
      (forall q' r, In q' queue' -> q' <> (q ++ r)%list /\ q <> (q' ++ r)%list) /\
      antichain queue'
  end.

(** The number of nodes of rank 0 still to be visited. *)
Definition unvisited (this0 : StackNode) (queue : list path) : nat :=
  list_sum
    (map (fun q => match node_at q this0 with
                   | Some n => tree_size n
                   | None => O
                   end) queue).

(** The state of the loop on all ranks, with the common queue [queue], the
    tree [s0] of rank 0 and the trees [ss] of the others, against the trees
    [this0] and [those] the reduction started from. *)
Record reduce_inv (this0 : StackNode) (those : list StackNode)
  (queue : list path) (s0 : StackNode) (ss : list StackNode) : Prop := {
  inv_shape : shape s0 = shape this0;
  inv_keys : forall p,
    option_map child_keys (node_at p s0)
    = option_map child_keys (node_at p this0);
  inv_auth : forall p,
    pending queue p -> local_total p s0 = local_total p this0;
  inv_ranks :
    Forall2 (fun s t => forall p, pending queue p ->
                                  local_total p s = local_total p t)
      ss those;
  inv_outside :
    Forall2 (fun s t => forall p, node_at p this0 = None ->
                                  local_total p s = local_total p t)
      ss those;
  inv_queue : antichain queue;
  inv_live0 : forall q, In q queue -> node_at q this0 <> None;
  inv_live : forall q s, In q queue -> In s ss -> node_at q s <> None;
  inv_done0 : forall p,
    node_at p this0 <> None -> ~ pending queue p ->
    exists n, node_at p s0 = Some n /\ merged this0 those p n;
  inv_done : forall p s,
    node_at p this0 <> None -> ~ pending queue p -> In s ss ->
    exists n, node_at p s = Some n /\ merged this0 those p n
}.

(** The trees after one turn of the loop at the pointer [q]. *)
Definition visit_values (q : path) (s0 : StackNode) (ss : list StackNode)
  : Q * Q * Z :=
  (allreduce_sum (local_total q s0) (map (local_total q) ss),
   allreduce_max (local_total q s0) (map (local_total q) ss),
   Z.of_nat (S (List.length ss))).

Definition visit_write (q : path) (s0 : StackNode) (ss : list StackNode)
  : StackNode -> StackNode :=
  let v := visit_values q s0 ss in
  modify_at (reduced (fst (fst v)) (snd (fst v)) (snd v)) q.

Definition visit_keys (q : path) (s0 : StackNode) : list key :=
  match node_at q s0 with
  | Some n => child_keys n
  | None => []
  end.

Definition visit_other (q : path) (s0 : StackNode) (ss : list StackNode)
  (s : StackNode) : StackNode :=
  adopt_children (visit_write q s0 ss s) q (visit_keys q s0).

(** The node a queued pointer of a rank points to. *)
Definition deref (q : path) (s : StackNode) : StackNode :=
  match node_at q s with
  | Some n => n
  | None => s
  end.

(** Ranks that share one queue. *)
Definition ranks_at (queue : list path) (ss : list StackNode) : list rank :=
  map (fun s => mkRank s queue) ss.

(** Kinds of writes to a node. *)
Definition keeps_key (f : StackNode -> StackNode) : Prop :=
  forall n, node_key (f n) = node_key n.

Definition keeps_children (f : StackNode -> StackNode) : Prop :=
  forall n, children (f n) = children n.

Definition keeps_fields (f : StackNode -> StackNode) : Prop :=
  forall n, bare (f n) = bare n.

(** The queue of [invert]: the nodes still to be visited and their time. *)
Definition queue_size (q : list (StackNode * list key)) : nat :=
  list_sum (map (fun e => tree_size (fst e)) q).

(** * Tactics *)

Ltac rules_by_computation :=
  repeat (split; [reflexivity|]; intros ? [= <-]); exact I.

(** * The rest of the tool *)


Local Open Scope string_scope.
Local Open Scope Z_scope.

(** ** Memory spaces *)

(** [struct SpaceHandle]: the C string held in [char name[64]]. *)
Record SpaceHandle : Type := mkSpaceHandle {
  handle_name : string
}.

(** [handle.name[0]]: the first character, the terminator of an empty
    string. *)
Definition first_char (s : string) : ascii :=
  match s with
  | String c _ => c
  | EmptyString => zero
  end.

(** The values of [enum Space]. *)
Definition Space_int (s : Space) : Z :=
  match s with
  | SPACE_HOST => 0
  | SPACE_CUDA => 1
  end.

Definition NSPACES : Z := 2.

(** [get_space] *)
Definition get_space (handle : SpaceHandle) : outcome Space :=
  if Ascii.eqb (first_char (handle_name handle)) "H" then Ok SPACE_HOST
  else if Ascii.eqb (first_char (handle_name handle)) "C" then Ok SPACE_CUDA
  else Abort "".

(** [get_space_name] *)
Definition get_space_name (space : Z) : outcome string :=
  if space =? 0 then Ok "HOST"
  else if space =? 1 then Ok "CUDA"
  else Abort "".

(** ** All the events of a session *)

Inductive frame_event : Type :=
| Fe_begin_kernel (t : Now) (name_in : string) (kind_in : StackKind)
| Fe_end_kernel (t : Now) (kernid : node_ptr)
| Fe_push_region (t : Now) (name_in : string)
| Fe_pop_region (t : Now)
| Fe_begin_deep_copy (t : Now) (dst_name src_name : string)
| Fe_end_deep_copy (t : Now).

Definition frame_step (st : State) (ev : frame_event) : outcome State :=
  match ev with
  | Fe_begin_kernel t nm k => r <- begin_kernel st t nm k ;; Ok (fst r)
  | Fe_end_kernel t id => end_kernel st t id
  | Fe_push_region t nm => push_region st t nm
  | Fe_pop_region t => pop_region st t
  | Fe_begin_deep_copy t dst src => begin_deep_copy st t dst src
  | Fe_end_deep_copy t => end_deep_copy st t
  end.

Inductive session_event : Type :=
| Se_frame (ev : frame_event)
| Se_ledger (ev : ledger_event).

Definition session_step (st : State) (ev : session_event) : outcome State :=
  match ev with
  | Se_frame e => frame_step st e
  | Se_ledger e => ledger_step st e
  end.

Fixpoint session_run (st : State) (evs : list session_event) : outcome State :=
  match evs with
  | [] => Ok st
  | ev :: evs' => st' <- session_step st ev ;; session_run st' evs'
  end.

(** The callbacks [kokkosp_allocate_data] and [kokkosp_deallocate_data] on
    the session behind [global_state]. *)
Definition kokkosp_allocate_data (st : State) (handle : SpaceHandle)
  (name_in : string) (ptr_in size_in : Z) : outcome State :=
  space <- get_space handle ;;
  State_allocate st space name_in ptr_in size_in.

Definition kokkosp_deallocate_data (st : State) (handle : SpaceHandle)
  (name_in : string) (ptr_in size_in : Z) : outcome State :=
  space <- get_space handle ;;
  State_deallocate st space name_in ptr_in size_in.

(** ** The callbacks *)

(** [global_state]: [None] is [nullptr]. *)
Definition global : Type := option State.

(** A member call through [global_state]. *)
Definition with_state {A : Type} (g : global) (k : State -> outcome A)
  : outcome A :=
  match g with
  | Some st => k st
  | None => Fault
  end.

Definition kokkosp_push_profile_region (g : global) (t : Now)
  (name_in : string) : outcome global :=
  with_state g (fun st => st' <- push_region st t name_in ;; Ok (Some st')).

Definition kokkosp_pop_profile_region (g : global) (t : Now)
  : outcome global :=
  with_state g (fun st => st' <- pop_region st t ;; Ok (Some st')).

(** [kokkosp_begin_deep_copy]: both handles are converted before the state
    is used. *)
Definition kokkosp_begin_deep_copy (g : global) (t : Now)
  (dst_handle : SpaceHandle) (dst_name : string)
  (src_handle : SpaceHandle) (src_name : string) : outcome global :=
  dst_space <- get_space dst_handle ;;
  src_space <- get_space src_handle ;;
  with_state g (fun st =>
    st' <- begin_deep_copy st t dst_name src_name ;; Ok (Some st')).

Definition kokkosp_end_deep_copy (g : global) (t : Now) : outcome global :=
  with_state g (fun st => st' <- end_deep_copy st t ;; Ok (Some st')).

(** ** The report of a ledger *)

Definition allreduce_max_Z (x0 : Z) (xs : list Z) : Z := fold_left Z.max xs x0.

Definition allreduce_min_Z (x0 : Z) (xs : list Z) : Z := fold_left Z.min xs x0.

Definition allreduce_sum_Z (x0 : Z) (xs : list Z) : Z := fold_left Z.add xs x0.

(** What each rank puts into the second collective of [Allocations::print]:
    its own rank when its total is the largest one, the number of ranks
    otherwise.  [rank] is the rank of the first total of the list. *)
Fixpoint rank_bids (rank size max_total_size : Z) (totals : list Z) : list Z :=
  match totals with
  | [] => []
  | total :: totals' =>
      (if max_total_size =? total then rank else size)
        :: rank_bids (rank + 1) size max_total_size totals'
  end.

(** [min_max_rank] after the two collectives, from the [total_size] of
    rank 0 and of the other ranks. *)
Definition min_max_rank (total0 : Z) (totals : list Z) : Z :=
  let size := Z.of_nat (S (List.length totals)) in
  let max_total_size := allreduce_max_Z total0 totals in
  match rank_bids 0 size max_total_size (total0 :: totals) with
  | bid0 :: bids => allreduce_min_Z bid0 bids
  | [] => size
  end.

(** [double(allocation.size) / double(total_size) * 100.0]; [None] when the
    total is zero and the quotient is no finite number. *)
Definition alloc_percent_of (size total : Z) : option Q :=
  if total =? 0 then None
  else Some (inject_Z size / inject_Z total * 100)%Q.

(** [percent < 0.1], false when the percentage is no number. *)
Definition below_threshold (percent : option Q) : bool :=
  match percent with
  | Some x => Qltb x (1 # 10)
  | None => false
  end.

(** One line of the list of allocations: the percentage and the label. *)
Record alloc_line : Type := mkAllocLine {
  alloc_percent : option Q;
  alloc_label : string
}.

(** The body of the loop over [alloc_set]: nothing for a record below 0.1
    percent, else its line; the owning frame is dereferenced. *)
Definition alloc_line_of (root : StackNode) (total : Z) (a : Allocation)
  : outcome (list alloc_line) :=
  let percent := alloc_percent_of (size a) total in
  if below_threshold percent then Ok []
  else
    match frame a with
    | None => Fault
    | Some p =>
        let full_name := get_full_name root p in
        Ok [mkAllocLine percent
              (if (full_name =? "")%string then alloc_name a
               else full_name ++ "/" ++ alloc_name a)]
    end.

Fixpoint alloc_lines (root : StackNode) (total : Z) (s : list Allocation)
  : outcome (list alloc_line) :=
  match s with
  | [] => Ok []
  | a :: s' =>
      l <- alloc_line_of root total a ;;
      ls <- alloc_lines root total s' ;;
      Ok (l ++ ls)%list
  end.

(** What a rank writes: the total, its rank and the lines. *)
Record alloc_report : Type := mkAllocReport {
  report_total : Z;
  report_rank : Z;
  report_lines : list alloc_line
}.

(** [Allocations::print] on the rank [rank], whose frames hang under
    [root]; [total0] and [totals] are the [total_size] of all the ranks, in
    the order of the ranks.  [None]: the rank returns without printing. *)
Definition Allocations_print (root : StackNode) (a : Allocations) (rank : Z)
  (total0 : Z) (totals : list Z) : outcome (option alloc_report) :=
  let size := Z.of_nat (S (List.length totals)) in
  let winner := min_max_rank total0 totals in
  if negb (winner <? size) then Abort "assert(min_max_rank < size)"
  else if negb (rank =? winner) then Ok None
  else
    ls <- alloc_lines root (total_size a) (alloc_set a) ;;
    Ok (Some (mkAllocReport (total_size a) rank ls)).

(** ** The high water mark of the processes *)

(** A [long] after an arithmetic step, in two's complement. *)
Definition wrap_long (z : Z) : Z := (z + 2 ^ 63) mod 2 ^ 64 - 2 ^ 63.

(** [print_process_hwm] on rank 0: the values of the second line, [Max],
    [Min] and [Ave], from [ru_maxrss] of rank 0 and of the other ranks. *)
Definition print_process_hwm (hwm0 : Z) (hwms : list Z) : Z * Z * Z :=
  let world_size := Z.of_nat (S (List.length hwms)) in
  let hwm_max := allreduce_max_Z hwm0 hwms in
  let hwm_min := allreduce_min_Z hwm0 hwms in
  let hwm_ave := fold_left (fun s h => wrap_long (s + h)) hwms hwm0 in
  (hwm_max, hwm_min, Z.quot hwm_ave world_size).

(** ** Notions used in the statements *)

(** A pointer is null or points to a frame of the tree. *)
Definition ptr_valid (root : StackNode) (p : node_ptr) : Prop :=
  match p with
  | None => True
  | Some q => node_at q root <> None
  end.

(** The later tree has every frame of the earlier one. *)
Definition grows (root root' : StackNode) : Prop :=
  forall q, node_at q root <> None -> node_at q root' <> None.

(** The records of all the ledgers of a session, snapshots included. *)
Definition all_records (st : State) : list Allocation :=
  (alloc_set (fst (current_allocations st))
     ++ alloc_set (snd (current_allocations st))
     ++ alloc_set (fst (hwm_allocations st))
     ++ alloc_set (snd (hwm_allocations st)))%list.

(** What every session keeps: the children sets of the tree are in order,
    the root is the unnamed region, and neither the cursor nor the owning
    frame of a record dangles. *)
Record State_ok (st : State) : Prop := {
  ok_wf : wf (stack_root st) = true;
  ok_root : node_key (stack_root st) = (STACK_REGION, "");
  ok_cursor : ptr_valid (stack_root st) (stack_frame st);
  ok_frames : forall r, In r (all_records st) ->
                        ptr_valid (stack_root st) (frame r)
}.

(** A ledger in order whose counter agrees with its records. *)
Definition ledger_ok (a : Allocations) : Prop :=
  sortedb Allocation_lt (alloc_set a) = true /\
  total_size a = wrap64 (live_sum a).

(** Frames opened minus frames closed. *)
Definition frame_delta (ev : session_event) : Z :=
  match ev with
  | Se_frame (Fe_begin_kernel _ _ _) => 1
  | Se_frame (Fe_push_region _ _) => 1
  | Se_frame (Fe_begin_deep_copy _ _ _) => 1
  | Se_frame (Fe_end_kernel _ _) => -1
  | Se_frame (Fe_pop_region _) => -1
  | Se_frame (Fe_end_deep_copy _) => -1
  | Se_ledger _ => 0
  end.

Definition open_frames (evs : list session_event) : Z :=
  fold_right Z.add 0 (map frame_delta evs).

(** The depth of a cursor: the length of its path, and -1 for null. *)
Definition cursor_depth (p : node_ptr) : Z :=
  match p with
  | Some q => Z.of_nat (List.length q)
  | None => -1
  end.

(** The visits of the outer loop of [invert], one after the other. *)
Definition invert_visits (visits : list (StackNode * list key))
  (inv_root : StackNode) : StackNode :=
  fold_left (fun r v => invert_visit (fst v) (snd v) r) visits inv_root.

(** The fields of a node that the reduction does not write. *)
Definition local_fields (n : StackNode) : string * StackKind * Z * Now :=
  (name n, kind n, number_of_calls n, start_time n).

(** [number_of_calls] of the frame at [q], zero when there is none. *)
Definition calls_at (q : path) (root : StackNode) : Z :=
  match node_at q root with
  | Some n => number_of_calls n
  | None => 0
  end.

(** The events of a run that opened the frame at [q]: the opening events
    after which the cursor points to [q]. *)
Fixpoint begins_at (q : path) (st : State) (evs : list session_event) : Z :=
  match evs with
  | [] => 0
  | ev :: evs' =>
      match session_step st ev with
      | Ok st' =>
          (if (frame_delta ev =? 1) && ptr_eqb (stack_frame st') (Some q)
           then 1 else 0) + begins_at q st' evs'
      | _ => 0
      end
  end.

(** The clock reading an event carries, if any. *)
Definition event_time (ev : session_event) : option Now :=
  match ev with
  | Se_frame (Fe_begin_kernel t _ _) => Some t
  | Se_frame (Fe_end_kernel t _) => Some t
  | Se_frame (Fe_push_region t _) => Some t
  | Se_frame (Fe_pop_region t) => Some t
  | Se_frame (Fe_begin_deep_copy t _ _) => Some t
  | Se_frame (Fe_end_deep_copy t) => Some t
  | Se_ledger _ => None
  end.

(** The readings of the events never go back, starting from [t]. *)
Fixpoint clock_monotone (t : Now) (evs : list session_event) : Prop :=
  match evs with
  | [] => True
  | ev :: evs' =>
      match event_time ev with
      | Some t' => t <= t' /\ clock_monotone t' evs'
      | None => clock_monotone t evs'
      end
  end.

(** The last reading of a run of events that started at [t]. *)
Fixpoint last_time (t : Now) (evs : list session_event) : Now :=
  match evs with
  | [] => t
  | ev :: evs' =>
      last_time (match event_time ev with Some t' => t' | None => t end) evs'
  end.

(** Every frame of the tree began at or before [t] and has a total that is
    not negative. *)
Definition started_by (t : Now) (root : StackNode) : Prop :=
  forall q n, node_at q root = Some n ->
              start_time n <= t /\ (0 <= total_runtime n)%Q.

Local Open Scope string_scope.
Local Open Scope Q_scope.
Local Open Scope Z_scope.

(** * The durations in binary64

    The functions of the tool that compute with durations, embedded on the
    binary64 numbers of the kernel ([PrimFloat.float], with the operations
    of IEEE 754 rounded to the nearest, ties to even): the difference of two
    clock readings, [StackNode] with [begin], [end], [get_child], [invert],
    [print_recursive], [print] and [reduce_over_mpi], and the part of
    [State] that grows the frame tree.  The names are those of the source
    and of the first part; keys, paths, [std::set] and the outcome of a
    call are those of the first part.  NaN, the infinities and the signed
    zeros are those of the format: 0 / 0 is a NaN and no comparison with a
    NaN holds. *)

Module Binary64.

Import PrimFloat SpecFloat FloatOps.

Local Open Scope Z_scope.

(** ** The clock *)

(** The conversion of a 64-bit signed integer to [double], rounded to the
    nearest.  The tick counts of one clock are less than [2^63] apart. *)
Definition of_int64 (z : Z) : float :=
  if z <? 0 then (- of_uint63 (Uint63.of_Z (- z)))%float
  else of_uint63 (Uint63.of_Z z).

(** The literal [1e-9]: the binary64 number nearest to it. *)
Definition nano : float := 0x1.12e0be826d695p-30%float.

(** [operator-(Now b, Now a)]: the nanosecond count, converted, times
    [1e-9]. *)
Definition Now_sub (b a : Now) : float := (of_int64 (b - a) * nano)%float.

(** ** Frames *)

(** [struct StackNode], with the conventions of the first part: no [parent]
    field, and zero in the fields the constructor leaves unset. *)
#[local] Unset Elimination Schemes.

Inductive StackNode : Type := mkStackNode {
  name : string;
  kind : StackKind;
  children : list StackNode;
  total_runtime : float;
  max_runtime : float;
  avg_runtime : float;
  number_of_calls : Z;
  start_time : Now
}.

#[local] Set Elimination Schemes.

Arguments mkStackNode name kind children
  (total_runtime max_runtime avg_runtime)%_float
  (number_of_calls start_time)%_Z.

Definition node_key (n : StackNode) : key := (kind n, name n).

(** [StackNode::operator<] *)
Definition StackNode_lt (a b : StackNode) : bool :=
  key_lt (node_key a) (node_key b).

(** The constructor [StackNode(parent, name, kind)].  It leaves
    [max_runtime] and [avg_runtime] unset: the model stores zero there until
    the reduction, which the destructor runs before [print], writes
    them. *)
Definition new_StackNode (name_in : string) (kind_in : StackKind) : StackNode :=
  mkStackNode name_in kind_in [] 0 0 0 0 0.

Definition set_children (n : StackNode) (cs : list StackNode) : StackNode :=
  mkStackNode (name n) (kind n) cs (total_runtime n) (max_runtime n)
    (avg_runtime n) (number_of_calls n) (start_time n).

(** [StackNode::get_child] on the node itself: the node after the call. *)
Definition get_child (n : StackNode) (child_name : string)
  (child_kind : StackKind) : StackNode :=
  let candidate := new_StackNode child_name child_kind in
  match set_find StackNode_lt candidate (children n) with
  | Some _ => n
  | None =>
      set_children n (fst (set_emplace StackNode_lt candidate (children n)))
  end.

Definition find_child (k : key) (cs : list StackNode) : option StackNode :=
  set_find StackNode_lt (new_StackNode (snd k) (fst k)) cs.

(** Dereference: the node a path points to. *)
Fixpoint node_at (p : path) (n : StackNode) : option StackNode :=
  match p with
  | [] => Some n
  | k :: p' =>
      match find_child k (children n) with
      | Some c => node_at p' c
      | None => None
      end
  end.

(** A write through a pointer: [f] applied to the node at [p]. *)
Fixpoint update_child (k : key) (g : StackNode -> StackNode)
  (cs : list StackNode) : list StackNode :=
  match cs with
  | [] => []
  | c :: cs' =>
      if key_eqb (node_key c) k then g c :: cs' else c :: update_child k g cs'
  end.

Fixpoint modify_at (f : StackNode -> StackNode) (p : path) (n : StackNode)
  : StackNode :=
  match p with
  | [] => f n
  | k :: p' => set_children n (update_child k (modify_at f p') (children n))
  end.

(** [p->get_child(name, kind)] for a node inside the tree rooted at [root]:
    the tree after the call and the returned pointer. *)
Definition get_child_at (root : StackNode) (p : path)
  (child_name : string) (child_kind : StackKind) : StackNode * path :=
  (modify_at (fun n => get_child n child_name child_kind) p root,
   (p ++ [(child_kind, child_name)])%list).

(** [StackNode::begin] and [StackNode::end] *)
Definition begin (t : Now) (n : StackNode) : StackNode :=
  mkStackNode (name n) (kind n) (children n) (total_runtime n) (max_runtime n)
    (avg_runtime n) (number_of_calls n + 1) t.

Definition end_ (end_time : Now) (n : StackNode) : StackNode :=
  mkStackNode (name n) (kind n) (children n)
    (total_runtime n + Now_sub end_time (start_time n))%float (max_runtime n)
    (avg_runtime n) (number_of_calls n) (start_time n).

Local Open Scope string_scope.

(** [StackNode::get_full_name] of the node [p] points to. *)
Definition get_full_name (root : StackNode) (p : path) : string :=
  let below_root :=
    fold_left (fun full_name k => snd k ++ "/" ++ full_name) (rev p) "" in
  if (name root =? "")%string then below_root
  else name root ++ "/" ++ below_root.

(** ** The session *)

(** [struct State] *)
Record State : Type := mkState {
  stack_root : StackNode;
  stack_frame : node_ptr;
  current_allocations : per_space;
  hwm_allocations : per_space
}.

(** The constructor [State()]; [t] is the clock reading of [begin]. *)
Definition State_new (t : Now) : State :=
  mkState (begin t (new_StackNode "" STACK_REGION)) (Some [])
    (Allocations_new, Allocations_new) (Allocations_new, Allocations_new).

(** [State::begin_frame] *)
Definition begin_frame (st : State) (t : Now) (name_in : string)
  (kind_in : StackKind) : outcome State :=
  match stack_frame st with
  | None => Fault
  | Some p =>
      let res := get_child_at (stack_root st) p name_in kind_in in
      Ok (mkState (modify_at (begin t) (snd res) (fst res)) (Some (snd res))
            (current_allocations st) (hwm_allocations st))
  end.

(** [State::end_frame] *)
Definition end_frame (st : State) (end_time : Now) : outcome State :=
  match stack_frame st with
  | None => Fault
  | Some p =>
      Ok (mkState (modify_at (end_ end_time) p (stack_root st)) (parent_ptr p)
            (current_allocations st) (hwm_allocations st))
  end.

(** [State::begin_kernel]: the state and the returned kernel id. *)
Definition begin_kernel (st : State) (t : Now) (name_in : string)
  (kind_in : StackKind) : outcome (State * node_ptr) :=
  st' <- begin_frame st t name_in kind_in ;;
  Ok (st', stack_frame st').

(** [State::end_kernel] *)
Definition end_kernel (st : State) (end_time : Now) (kernid : node_ptr)
  : outcome State :=
  if negb (ptr_eqb kernid (stack_frame st)) then
    match stack_frame st with
    | None => Fault
    | Some p =>
        Abort ("Expected " ++ dquote ++ get_full_name (stack_root st) p
                 ++ dquote ++ " to end, got different kernel ID" ++ newline)
    end
  else end_frame st end_time.

(** [State::push_region] and [State::pop_region] *)
Definition push_region (st : State) (t : Now) (name_in : string)
  : outcome State :=
  begin_frame st t name_in STACK_REGION.

Definition pop_region (st : State) (t : Now) : outcome State :=
  end_frame st t.

(** The destructor [~State()] up to the end of the root frame: the check
    that the cursor is back at the root, then [stack_frame->end]. *)
Definition State_finish (st : State) (end_time : Now) : outcome StackNode :=
  match stack_frame st with
  | None => Fault
  | Some [] => Ok (modify_at (end_ end_time) [] (stack_root st))
  | Some p =>
      Abort ("Program ended before " ++ dquote
               ++ get_full_name (stack_root st) p ++ dquote ++ " ended"
               ++ newline)
  end.

(** ** Inversion *)

Local Open Scope Z_scope.

Fixpoint tree_size (n : StackNode) : nat :=
  S (list_sum (map tree_size (children n))).

(** [total_runtime += self_time; number_of_calls += calls] *)
Definition add_time (self_time : float) (calls : Z) (n : StackNode)
  : StackNode :=
  mkStackNode (name n) (kind n) (children n)
    (total_runtime n + self_time)%float
    (max_runtime n) (avg_runtime n) (number_of_calls n + calls)
    (start_time n).

(** The inner loop of [invert]: [chain] holds the keys of [node], its
    parent, and so on up to the root; [inv_node] is the cursor in the
    inverted tree. *)
Fixpoint invert_walk (chain : list key) (self_time : float) (calls : Z)
  (inv_root : StackNode) (inv_node : path) : StackNode :=
  match chain with
  | [] => inv_root
  | k :: chain' =>
      let res := get_child_at inv_root inv_node (snd k) (fst k) in
      invert_walk chain' self_time calls
        (modify_at (add_time self_time calls) (snd res) (fst res)) (snd res)
  end.

(** [self_time] after the loop over the children: the total of the node,
    less the total of each child in the order of the set, one subtraction
    after the other. *)
Definition self_time_of (node : StackNode) : float :=
  fold_left (fun s child => (s - total_runtime child)%float) (children node)
    (total_runtime node).

(** One turn of the outer loop, for a node whose ancestors have the keys
    [ancestors] (parent first, root last). *)
Definition invert_visit (node : StackNode) (ancestors : list key)
  (inv_root : StackNode) : StackNode :=
  let self_time := self_time_of node in
  let calls := number_of_calls node in
  invert_walk (node_key node :: ancestors) self_time calls
    (modify_at (add_time self_time calls) [] inv_root) [].

(** The queue of [invert]: an entry is a node with the keys of its
    ancestors. *)
Fixpoint invert_loop (fuel : nat) (q : list (StackNode * list key))
  (inv_root : StackNode) : option StackNode :=
  match q with
  | [] => Some inv_root
  | (node, ancestors) :: q' =>
      match fuel with
      | O => None
      | S fuel' =>
          invert_loop fuel'
            (q' ++ map (fun child => (child, node_key node :: ancestors))
                     (children node))%list
            (invert_visit node ancestors inv_root)
      end
  end.

(** [StackNode::invert], called on a root. *)
Definition invert (this : StackNode) : option StackNode :=
  invert_loop (tree_size this) [(this, [])] (new_StackNode "" STACK_REGION).

(** ** Printing *)

(** One line of the report: the values sent to the stream. *)
Record line : Type := mkLine {
  line_indent : string;
  line_percent : float;
  line_imbalance : float;
  line_calls : Z;
  line_name : string;
  line_kind : StackKind
}.

(** The comparator [by_time] of [print_recursive]. *)
Definition by_time (a b : StackNode) : bool :=
  if negb (total_runtime a =? total_runtime b)%float
  then (total_runtime b <? total_runtime a)%float
  else string_lt (name a) (name b).

(** [(total_runtime / tree_time) * 100.0] *)
Definition percent_of (tree_time : float) (n : StackNode) : float :=
  ((total_runtime n / tree_time) * 100)%float.

(** [(max_runtime / avg_runtime - 1.0) * 100.0] *)
Definition imbalance_of (n : StackNode) : float :=
  ((max_runtime n / avg_runtime n - 1) * 100)%float.

(** The literal [0.1]: the binary64 number nearest to it. *)
Definition threshold : float := 0x1.999999999999ap-4%float.

Definition own_line (my_indent : string) (tree_time : float) (n : StackNode)
  : list line :=
  if (name n =? "")%string then []
  else [mkLine my_indent (percent_of tree_time n) (imbalance_of n)
          (number_of_calls n) (name n) (kind n)].

(** The loop over [children_by_time]; an entry is a child with the printer
    of its subtree. *)
Fixpoint print_children {P : Type} (entries : list (StackNode * P))
  (run : P -> string -> string -> list line) (child_indent : string)
  : list line :=
  match entries with
  | [] => []
  | (_, pr) :: rest =>
      let grandchild_indent :=
        match rest with
        | [] => (child_indent ++ "    ")%string
        | _ => (child_indent ++ "|   ")%string
        end in
      (run pr (child_indent ++ "|-> ")%string grandchild_indent
         ++ print_children rest run child_indent)%list
  end.

(** [StackNode::print_recursive] *)
Fixpoint print_recursive (n : StackNode) (my_indent child_indent : string)
  (tree_time : float) {struct n} : list line :=
  if (percent_of tree_time n <? threshold)%float then []
  else
    (own_line my_indent tree_time n
       ++ print_children
            (insert_all (fun a b => by_time (fst a) (fst b))
               (map (fun child => (child, print_recursive child))
                  (children n)))
            (fun pr my child => pr my child tree_time) child_indent)%list.

(** [StackNode::print] *)
Definition print (n : StackNode) : list line :=
  print_recursive n "" "" (total_runtime n).

(** ** Reduction on one process *)

(** [StackNode::reduce_over_mpi], in the branch for [USE_MPI], which the
    file defines, run by the only process of [MPI_COMM_WORLD]: [rank] is 0,
    [comm_size] is 1, and an [MPI_Allreduce] over one process leaves the
    value where it is. *)
Definition comm_size : Z := 1.

(** The fields of the visited node at the end of a turn: [max_runtime] and
    [avg_runtime] are set to [total_runtime], the three collectives change
    nothing, and [avg_runtime] is divided by [comm_size]. *)
Definition reduced (n : StackNode) : StackNode :=
  mkStackNode (name n) (kind n) (children n) (total_runtime n)
    (total_runtime n) (total_runtime n / of_int64 comm_size)%float
    (number_of_calls n) (start_time n).

(** The loop: the tree and the queue of node pointers. *)
Fixpoint reduce_loop (fuel : nat) (t : StackNode) (q : list path)
  : option StackNode :=
  match q with
  | [] => Some t
  | p :: q' =>
      match fuel with
      | O => None
      | S fuel' =>
          match node_at p t with
          | Some n =>
              reduce_loop fuel' (modify_at reduced p t)
                (push_children q' p (map node_key (children n)))
          | None => None
          end
      end
  end.

Definition reduce_over_mpi (this : StackNode) : option StackNode :=
  reduce_loop (tree_size this) this [[]].

(** ** Notions used in the statements *)

(** A tree all of whose [children] sets are in the order of their
    comparator. *)
Fixpoint wf (n : StackNode) : bool :=
  sortedb StackNode_lt (children n) && forallb wf (children n).

(** The shape of a tree: its keys. *)
Fixpoint shape (n : StackNode) : key_tree :=
  KT (node_key n) (map shape (children n)).

(** All the nodes of a tree, the root first. *)
Fixpoint nodes (n : StackNode) : list StackNode :=
  n :: flat_map nodes (children n).

(** [total_runtime] of the frame at [p]; zero when there is none. *)
Definition local_total (p : path) (t : StackNode) : float :=
  match node_at p t with
  | Some n => total_runtime n
  | None => 0%float
  end.

(** [number_of_calls] of the frame at [p]; zero when there is none. *)
Definition calls_at (p : path) (t : StackNode) : Z :=
  match node_at p t with
  | Some n => number_of_calls n
  | None => 0
  end.

(** A node without its children: its own fields only. *)
Definition bare (n : StackNode) : StackNode := set_children n [].

Definition child_keys (n : StackNode) : list key :=
  map node_key (children n).

(** Kinds of writes to a node. *)
Definition keeps_key (f : StackNode -> StackNode) : Prop :=
  forall n, node_key (f n) = node_key n.

Definition keeps_children (f : StackNode -> StackNode) : Prop :=
  forall n, children (f n) = children n.

Definition keeps_fields (f : StackNode -> StackNode) : Prop :=
  forall n, bare (f n) = bare n.

(** The order in which the queue of [invert] hands out the frames: the
    root, then its children in the order of their set, then theirs. *)
Fixpoint breadth_first_loop (fuel : nat) (q : list StackNode)
  : list StackNode :=
  match q with
  | [] => []
  | node :: q' =>
      match fuel with
      | O => []
      | S fuel' =>
          node :: breadth_first_loop fuel' (q' ++ children node)%list
      end
  end.

Definition breadth_first (this : StackNode) : list StackNode :=
  breadth_first_loop (tree_size this) [this].

(** The frames of a list that have the key [k], in the order of the list. *)
Definition with_key (k : key) (l : list StackNode) : list StackNode :=
  filter (fun m => key_eqb (node_key m) k) l.

(** The binary64 sum of a list of numbers, added from left to right to
    [0.0]. *)
Definition sum_left (xs : list float) : float :=
  fold_left (fun s x => (s + x)%float) xs 0%float.

(** The sum of [number_of_calls] over a list of frames. *)
Definition sum_calls (l : list StackNode) : Z :=
  fold_right Z.add 0 (map number_of_calls l).

(** The sum of [number_of_calls] over a tree, and over its frames of the
    key [k]. *)
Definition tree_calls (this : StackNode) : Z := sum_calls (nodes this).

Definition calls_of_key (this : StackNode) (k : key) : Z :=
  sum_calls (with_key k (nodes this)).

Definition queue_size (q : list (StackNode * list key)) : nat :=
  list_sum (map (fun e => tree_size (fst e)) q).

(** The visits of the outer loop of [invert], one after the other. *)
Definition invert_visits (visits : list (StackNode * list key))
  (inv_root : StackNode) : StackNode :=
  fold_left (fun r v => invert_visit (fst v) (snd v) r) visits inv_root.

(** The children in the order of the comparator [by_time]. *)
Definition children_by_time (n : StackNode) : list StackNode :=
  insert_all by_time (children n).

(** The output for a list of siblings visited in order, the last one with
    the closing indent. *)
Fixpoint print_siblings (run : StackNode -> string -> string -> list line)
  (cs : list StackNode) (child_indent : string) : list line :=
  match cs with
  | [] => []
  | c :: rest =>
      let grandchild_indent :=
        match rest with
        | [] => (child_indent ++ "    ")%string
        | _ => (child_indent ++ "|   ")%string
        end in
      (run c (child_indent ++ "|-> ")%string grandchild_indent
         ++ print_siblings run rest child_indent)%list
  end.

(** [a] is printed before [b]: [b] has less time, or they have as much time
    and [a] the smaller name; the comparisons are those of binary64. *)
Definition printed_before (a b : StackNode) : Prop :=
  (total_runtime b <? total_runtime a)%float = true \/
  ((total_runtime a =? total_runtime b)%float = true /\
   string_lt (name a) (name b) = true).

(** None of the siblings that come before [c] in the set of children has
    both the time and the name of [c]. *)
Fixpoint first_of_its_tie (c : StackNode) (cs : list StackNode) : bool :=
  match cs with
  | [] => true
  | d :: cs' =>
      if key_eqb (node_key d) (node_key c) then true
      else negb (equiv by_time c d) && first_of_its_tie c cs'
  end.


(** No total of the tree is a NaN.  On such totals the comparator [by_time]
    is a strict weak order, which [std::set] requires of it, and the set
    [children_by_time] is the list written above. *)
Definition nan_free (n : StackNode) : bool :=
  forallb (fun m => negb (is_nan (total_runtime m))) (nodes n).

(** The line of a frame, at some indent. *)
Definition line_of (indent : string) (tree_time : float) (n : StackNode)
  : line :=
  mkLine indent (percent_of tree_time n) (imbalance_of n) (number_of_calls n)
    (name n) (kind n).

(** A number that is neither zero, nor infinite, nor a NaN. *)
Definition finite_nonzero (x : float) : bool :=
  is_finite x && negb (is_zero x).

(** The rational number a binary64 number stands for; zero for the
    infinities and NaN. *)
Definition real_value (x : float) : Q :=
  match Prim2SF x with
  | S754_finite s m e =>
      ((if s then -1 else 1) * inject_Z (Z.pos m) * (2 # 1) ^ e)%Q
  | _ => 0%Q
  end.



(** The session of the specification: a 10 ms kernel [A], then a 30 ms
    kernel [B], then the end of the session; clock readings in
    nanoseconds. *)
Definition scenario_session : outcome StackNode :=
  s1 <- begin_kernel (State_new 0) 0 "A" STACK_FOR ;;
  s2 <- end_kernel (fst s1) 10000000 (snd s1) ;;
  s3 <- begin_kernel s2 10000000 "B" STACK_FOR ;;
  s4 <- end_kernel (fst s3) 40000000 (snd s3) ;;
  State_finish s4 40000000.



(** The lines of the top-down tree of a session: the reduction, then
    [print], as in the destructor. *)
Definition report (session : outcome StackNode) : list line :=
  match session with
  | Ok root =>
      match reduce_over_mpi root with
      | Some merged => print merged
      | None => []
      end
  | _ => []
  end.

(** A session in which the clock shows the same reading throughout: one
    kernel [A], begun, ended and the session closed at the reading 0. *)
Definition instant_session : outcome StackNode :=
  s1 <- begin_kernel (State_new 0) 0 "A" STACK_FOR ;;
  s2 <- end_kernel (fst s1) 0 (snd s1) ;;
  State_finish s2 0.

(** The number of nodes still to be visited by the reduction. *)
Definition unvisited (this : StackNode) (queue : list path) : nat :=
  list_sum
    (map (fun q => match node_at q this with
                   | Some n => tree_size n
                   | None => O
                   end) queue).

(** The state of the loop of the reduction, with the queue [queue] and the
    tree [s], against the tree [this] the reduction started from: the
    frames and their keys are those of [this]; a frame still to be visited
    has its fields of before, a visited one the fields [reduced] gives. *)
Record reduce_inv (this : StackNode) (queue : list path) (s : StackNode)
  : Prop := {
  inv_shape : shape s = shape this;
  inv_keys : forall p,
    option_map child_keys (node_at p s)
    = option_map child_keys (node_at p this);
  inv_todo : forall p,
    pending queue p ->
    option_map bare (node_at p s) = option_map bare (node_at p this);
  inv_queue : antichain queue;
  inv_live : forall q, In q queue -> node_at q this <> None;
  inv_done : forall p,
    ~ pending queue p ->
    option_map bare (node_at p s)
    = option_map (fun n => bare (reduced n)) (node_at p this)
}.

(** ** Tactics *)

(** Case analysis on the comparison of binary64 numbers. *)
Ltac cmp_cases :=
  repeat match goal with
  | H : context [Z.compare ?x ?y] |- _ =>
      destruct (Z.compare_spec x y); try discriminate; subst
  | |- context [Z.compare ?x ?y] =>
      destruct (Z.compare_spec x y); try discriminate; subst
  | H : context [Pos.compare_cont Eq ?x ?y] |- _ =>
      change (Pos.compare_cont Eq x y) with (Pos.compare x y) in H
  | |- context [Pos.compare_cont Eq ?x ?y] =>
      change (Pos.compare_cont Eq x y) with (Pos.compare x y)
  | H : context [Pos.compare ?x ?y] |- _ =>
      destruct (Pos.compare_spec x y); try discriminate; subst
  | |- context [Pos.compare ?x ?y] =>
      destruct (Pos.compare_spec x y); try discriminate; subst
  end.

Ltac sf_cases a b c :=
  destruct a as [[|]|[|]| |[|] ? ?], b as [[|]|[|]| |[|] ? ?],
    c as [[|]|[|]| |[|] ? ?]; cbn; try discriminate; try reflexivity;
  intros; cmp_cases; cbn in *; try discriminate; try reflexivity; try lia.

Ltac sf_cases2 a b :=
  destruct a as [[|]|[|]| |[|] ? ?], b as [[|]|[|]| |[|] ? ?];
    cbn; try discriminate; try reflexivity;
  intros; cmp_cases; cbn in *; try discriminate; try reflexivity; try lia.

End Binary64.

(** * Properties *)

Local Open Scope list_scope.

(** ** Facts about [std::set] as an ordered list *)

Section StdSetFacts.

Variable A : Type.
Variable lt : A -> A -> bool.

Lemma set_find_In (x y : A) (s : list A) :
  set_find lt x s = Some y -> In y s /\ equiv lt x y = true.
Proof.
  induction s as [|z s IH]; simpl; [discriminate|].
  destruct (equiv lt x z) eqn:E.
  - intros [= <-]. auto.
  - intros H. destruct (IH H). auto.
Qed.

Lemma set_find_None (x : A) (s : list A) :
  set_find lt x s = None <-> (forall y, In y s -> equiv lt x y = false).
Proof.
  induction s as [|z s IH]; simpl.
  - split; [intros _ y []|reflexivity].
  - destruct (equiv lt x z) eqn:E.
    + split; [discriminate|]. intros H. rewrite (H z) in E; [discriminate|auto].
    + rewrite IH. split.
      * intros H y [<-|Hy]; auto.
      * intros H y Hy. apply H. auto.
Qed.

Lemma set_find_Some_iff (x : A) (s : list A) :
  (exists y, set_find lt x s = Some y) <->
  (exists y, In y s /\ equiv lt x y = true).
Proof.
  split.
  - intros [y Hy]. exists y. now apply set_find_In.
  - intros [y [Hin He]]. destruct (set_find lt x s) eqn:F; [eauto|].
    rewrite set_find_None in F. rewrite (F y Hin) in He. discriminate.
Qed.

Lemma set_place_perm (x : A) (s : list A) :
  Permutation (set_place lt x s) (x :: s).
Proof.
  induction s as [|z s IH]; simpl; [reflexivity|].
  destruct (lt x z); [reflexivity|].
  rewrite IH. apply perm_swap.
Qed.

Lemma set_erase_perm (x y : A) (s : list A) :
  set_find lt x s = Some y -> Permutation s (y :: set_erase lt x s).
Proof.
  induction s as [|z s IH]; simpl; [discriminate|].
  destruct (equiv lt x z).
  - intros [= <-]. reflexivity.
  - intros H. rewrite (IH H) at 1. apply perm_swap.
Qed.

End StdSetFacts.

(** ** The allocation ledger *)

Lemma Allocation_equiv_iff (a b : Allocation) :
  equiv Allocation_lt a b = true <-> size a = size b /\ ptr a = ptr b.
Proof.
  unfold equiv, Allocation_lt.
  destruct (Z.eqb_spec (size a) (size b)) as [E|E];
    destruct (Z.eqb_spec (size b) (size a)) as [E'|E']; try congruence; simpl.
  - rewrite andb_true_iff, !negb_true_iff, !Z.ltb_ge. lia.
  - rewrite andb_true_iff, !negb_true_iff.
    rewrite !Z.gtb_ltb, !Z.ltb_ge. lia.
Qed.

Lemma live_key_iff (a : Allocations) (p sz : Z) :
  live_key a p sz = true <->
  exists r, In r (alloc_set a) /\ size r = sz /\ ptr r = p.
Proof.
  unfold live_key. rewrite existsb_exists. split; intros [r [Hin H]]; exists r.
  - rewrite andb_true_iff, !Z.eqb_eq in H. tauto.
  - rewrite andb_true_iff, !Z.eqb_eq. tauto.
Qed.

Lemma find_live_key (a : Allocations) (nm : string) (p sz : Z) (fr : node_ptr) :
  (exists it, set_find Allocation_lt (mkAllocation nm p sz fr) (alloc_set a)
              = Some it) <->
  live_key a p sz = true.
Proof.
  rewrite set_find_Some_iff, live_key_iff.
  split; intros [r [Hin H]]; exists r; split; auto.
  - apply Allocation_equiv_iff in H. simpl in H. intuition congruence.
  - apply Allocation_equiv_iff. simpl. intuition congruence.
Qed.

Lemma find_not_live (a : Allocations) (nm : string) (p sz : Z) (fr : node_ptr) :
  set_find Allocation_lt (mkAllocation nm p sz fr) (alloc_set a) = None <->
  live_key a p sz = false.
Proof.
  rewrite <- not_true_iff_false, <- (find_live_key a nm p sz fr).
  destruct (set_find _ _ _) as [it|]; split; intros H; try congruence.
  - exfalso. apply H. eauto.
  - intros [it ?]. discriminate.
Qed.

Lemma Allocations_deallocate_Ok (a : Allocations) (nm : string) (p sz : Z)
  (fr : node_ptr) :
  (exists a', Allocations_deallocate a nm p sz fr = Ok a') <->
  live_key a p sz = true.
Proof.
  rewrite <- (find_live_key a nm p sz fr). unfold Allocations_deallocate.
  destruct (set_find _ _ _); split; intros [x Hx]; try discriminate; eauto.
Qed.

Lemma Allocations_deallocate_Abort (a : Allocations) (nm : string) (p sz : Z)
  (fr : node_ptr) :
  live_key a p sz = false ->
  Allocations_deallocate a nm p sz fr = Abort "assert(it != alloc_set.end())".
Proof.
  intros H. apply (find_not_live a nm p sz fr) in H.
  unfold Allocations_deallocate. now rewrite H.
Qed.

Lemma State_deallocate_Ok (st : State) (sp : Space) (nm : string) (p sz : Z) :
  (exists st', State_deallocate st sp nm p sz = Ok st') <->
  live_key (space_get (current_allocations st) sp) p sz = true.
Proof.
  rewrite <- (Allocations_deallocate_Ok _ nm p sz (stack_frame st)).
  unfold State_deallocate.
  destruct (Allocations_deallocate _ _ _ _ _); simpl; split; intros [x Hx];
    try discriminate; eauto.
Qed.

(** C10.  A deallocate succeeds exactly when a live record has the passed
    size and address: the name plays no part (any name frees a live record),
    and with no record of that size at that address the call ends in the
    failed assertion. *)
Theorem deallocate_matches_size_and_address :
  forall (st : State) (sp : Space) (nm : string) (p sz : Z),
    let live := alloc_set (space_get (current_allocations st) sp) in
    ((exists st', State_deallocate st sp nm p sz = Ok st') <->
     (exists r, In r live /\ size r = sz /\ ptr r = p)) /\
    (forall r nm',
       In r live ->
       exists st', State_deallocate st sp nm' (ptr r) (size r) = Ok st') /\
    ((forall r, In r live -> ptr r = p -> size r <> sz) ->
     State_deallocate st sp nm p sz = Abort "assert(it != alloc_set.end())").
Proof.
  intros st sp nm p sz live. repeat split.
  - intros H. apply State_deallocate_Ok in H. now apply live_key_iff.
  - intros H. apply State_deallocate_Ok. now apply live_key_iff.
  - intros r nm' Hin. apply State_deallocate_Ok, live_key_iff. eauto.
  - intros H. unfold State_deallocate.
    rewrite Allocations_deallocate_Abort; [reflexivity|].
    apply not_true_iff_false. intros L. apply live_key_iff in L.
    destruct L as [r [Hin [Hs Hp]]]. exact (H r Hin Hp Hs).
Qed.

Lemma sum_sizes_perm (l l' : list Allocation) :
  Permutation l l' ->
  fold_right Z.add 0 (map size l) = fold_right Z.add 0 (map size l').
Proof.
  induction 1; simpl; lia.
Qed.

Lemma wrap64_small (z : Z) : 0 <= z < 2 ^ 64 -> wrap64 z = z.
Proof. apply Z.mod_small. Qed.

Lemma wrap64_add (x y : Z) : wrap64 (wrap64 x + y) = wrap64 (x + y).
Proof. unfold wrap64. now rewrite Zplus_mod_idemp_l. Qed.

Lemma wrap64_sub (x y : Z) : wrap64 (wrap64 x - y) = wrap64 (x - y).
Proof. unfold wrap64. now rewrite Zminus_mod_idemp_l. Qed.

Lemma space_get_set (a : per_space) (s s' : Space) (v : Allocations) :
  space_get (space_set a s v) s' = if match s, s' with
                                      | SPACE_HOST, SPACE_HOST => true
                                      | SPACE_CUDA, SPACE_CUDA => true
                                      | _, _ => false
                                      end
                                   then v else space_get a s'.
Proof. destruct s, s'; reflexivity. Qed.

Lemma live_sum_nonneg (a : Allocations) :
  Forall (fun r => 0 <= size r) (alloc_set a) -> 0 <= live_sum a.
Proof.
  unfold live_sum. induction 1; simpl; lia.
Qed.

(** What one allocate does to a ledger that obeys the rules. *)
Lemma Allocations_allocate_spec (a : Allocations) (nm : string) (p sz : Z)
  (fr : node_ptr) :
  live_key a p sz = false ->
  exists a',
    Allocations_allocate a nm p sz fr = Ok a' /\
    total_size a' = wrap64 (total_size a + sz) /\
    live_sum a' = live_sum a + sz /\
    Permutation (alloc_set a') (mkAllocation nm p sz fr :: alloc_set a).
Proof.
  intros H. apply (find_not_live a nm p sz fr) in H.
  unfold Allocations_allocate, set_emplace. rewrite H. simpl.
  eexists. split; [reflexivity|]. simpl. split; [reflexivity|].
  pose proof (set_place_perm _ Allocation_lt (mkAllocation nm p sz fr)
                (alloc_set a)) as P.
  split; [|exact P].
  unfold live_sum. simpl. rewrite (sum_sizes_perm _ _ P). simpl. lia.
Qed.

(** What one deallocate does to a ledger that obeys the rules. *)
Lemma Allocations_deallocate_spec (a : Allocations) (nm : string) (p sz : Z)
  (fr : node_ptr) :
  live_key a p sz = true ->
  exists a',
    Allocations_deallocate a nm p sz fr = Ok a' /\
    total_size a' = wrap64 (total_size a - sz) /\
    live_sum a' = live_sum a - sz /\
    (exists it, Permutation (alloc_set a) (it :: alloc_set a')).
Proof.
  intros H. apply (find_live_key a nm p sz fr) in H. destruct H as [it F].
  unfold Allocations_deallocate. rewrite F.
  destruct (set_find_In _ _ _ _ _ F) as [_ E].
  apply Allocation_equiv_iff in E. simpl in E. destruct E as [E _].
  pose proof (set_erase_perm _ _ _ _ _ F) as P.
  eexists. split; [reflexivity|]. simpl. rewrite <- E.
  split; [reflexivity|]. split; [|eauto].
  unfold live_sum. simpl. rewrite (sum_sizes_perm _ _ P). simpl. lia.
Qed.

Lemma State_deallocate_keeps_hwm (st st' : State) (sp : Space) (nm : string)
  (p sz : Z) :
  State_deallocate st sp nm p sz = Ok st' ->
  hwm_allocations st' = hwm_allocations st.
Proof.
  unfold State_deallocate.
  destruct (Allocations_deallocate _ _ _ _ _); simpl; try discriminate.
  now intros [= <-].
Qed.

(** The effect of one event that obeys the rules, seen from the space [sp]:
    the counter stays the live sum modulo [2^64]; either the live sum does
    not grow and the snapshot is kept, or the snapshot total becomes the
    larger of its old value and the new counter. *)
Lemma ledger_step_spec (st : State) (ev : ledger_event) :
  is_uint64 (event_size ev) ->
  obeys_rules st ev ->
  sizes_nonneg st ->
  exists st',
    ledger_step st ev = Ok st' /\
    sizes_nonneg st' /\
    forall sp,
      (current_total sp st = wrap64 (current_live_sum sp st) ->
       current_total sp st' = wrap64 (current_live_sum sp st')) /\
      ((current_live_sum sp st' <= current_live_sum sp st /\
        hwm_total sp st' = hwm_total sp st) \/
       hwm_total sp st' = Z.max (hwm_total sp st) (current_total sp st')).
Proof.
  intros U R N. destruct ev as [sp0 nm p sz|sp0 nm p sz]; simpl in *.
  - destruct (Allocations_allocate_spec _ nm p sz (stack_frame st) R)
      as [a' [E [T [L P]]]].
    unfold State_allocate. rewrite E. simpl. eexists. split; [reflexivity|].
    assert (N' : Forall (fun r => 0 <= size r) (alloc_set a')).
    { apply (Permutation_Forall (Permutation_sym P)).
      constructor; [simpl; unfold is_uint64 in U; lia|apply N]. }
    split.
    + intros sp. simpl. rewrite space_get_set.
      destruct sp0, sp; simpl;
        first [exact N'|exact (N SPACE_HOST)|exact (N SPACE_CUDA)].
    + intros sp. unfold current_live_sum, current_total, hwm_total. simpl.
      destruct sp0, sp; simpl in *.
      all: split; [intros I; rewrite ?T, ?L, ?I, ?wrap64_add; auto|].
      all: match goal with
           | |- context [?x >? ?h] =>
               destruct (x >? h) eqn:G; rewrite Z.gtb_ltb in G;
               [apply Z.ltb_lt in G|apply Z.ltb_ge in G]; simpl
           end.
      all: first [right; lia|left; split; [lia|reflexivity]].
  - destruct (Allocations_deallocate_spec _ nm p sz (stack_frame st) R)
      as [a' [E [T [L [it P]]]]].
    unfold State_deallocate. rewrite E. simpl. eexists. split; [reflexivity|].
    assert (N' : Forall (fun r => 0 <= size r) (alloc_set a')).
    { specialize (N sp0). apply (Permutation_Forall P) in N. now inversion N. }
    split.
    + intros sp. simpl. rewrite space_get_set.
      destruct sp0, sp; simpl;
        first [exact N'|exact (N SPACE_HOST)|exact (N SPACE_CUDA)].
    + intros sp. unfold current_live_sum, current_total, hwm_total. simpl.
      unfold is_uint64 in U.
      destruct sp0, sp; simpl in *.
      all: split; [intros I; rewrite ?T, ?L, ?I, ?wrap64_sub; auto|].
      all: left; split; [lia|reflexivity].
Qed.

Lemma max_list_nonneg (l : list Z) : 0 <= max_list l.
Proof. induction l; simpl; lia. Qed.

(** The run from a state where the counter of [sp] is exact and the
    snapshot total [m] bounds it. *)
Lemma ledger_trace_spec (evs : list ledger_event) :
  forall st,
    Forall (fun ev => is_uint64 (event_size ev)) evs ->
    follows_rules st evs ->
    sizes_nonneg st ->
    exists states,
      ledger_trace st evs = Ok states /\
      forall sp,
        current_total sp st = wrap64 (current_live_sum sp st) ->
        Forall (fun s => current_total sp s = wrap64 (current_live_sum sp s))
          states /\
        (current_live_sum sp st < 2 ^ 64 ->
         current_total sp st <= hwm_total sp st ->
         Forall (fun s => current_live_sum sp s < 2 ^ 64) states ->
         forall k s,
           nth_error states k = Some s ->
           current_total sp s = current_live_sum sp s /\
           hwm_total sp s =
             Z.max (hwm_total sp st)
               (max_list (map (current_total sp) (firstn (S k) states)))).
Proof.
  induction evs as [|ev evs IH]; intros st U R N.
  - exists []. split; [reflexivity|]. intros sp _. split; [constructor|].
    intros _ _ _ [|k] s; discriminate.
  - inversion U as [|? ? U1 U2]; subst. destruct R as [R1 R2].
    destruct (ledger_step_spec st ev U1 R1 N) as [st1 [E [N1 S1]]].
    destruct (IH st1 U2 (R2 st1 E) N1) as [states [T HI]].
    exists (st1 :: states). split.
    { simpl. rewrite E. simpl. rewrite T. reflexivity. }
    intros sp I0. destruct (S1 sp) as [I1 H1]. specialize (I1 I0).
    destruct (HI sp I1) as [F1 X1]. split; [constructor; assumption|].
    intros B0 M0 FB k s Hk.
    inversion FB as [|? ? B1 FB']; subst.
    assert (Z0 : current_total sp st = current_live_sum sp st).
    { rewrite I0. apply wrap64_small. split; [|assumption].
      apply live_sum_nonneg, N. }
    assert (Z1 : current_total sp st1 = current_live_sum sp st1).
    { rewrite I1. apply wrap64_small. split; [|assumption].
      apply live_sum_nonneg, N1. }
    assert (M1 : current_total sp st1 <= hwm_total sp st1) by
      (destruct H1 as [[? ->]| ->]; lia).
    assert (HW : hwm_total sp st1 =
                 Z.max (hwm_total sp st) (current_total sp st1)) by
      (destruct H1 as [[? ->]| ->]; lia).
    destruct k as [|k].
    + injection Hk as <-. split; [assumption|].
      assert (0 <= current_total sp st1) by
        (rewrite Z1; apply live_sum_nonneg, N1).
      rewrite HW. cbn [firstn map max_list fold_right]. lia.
    + simpl in Hk. destruct (X1 B1 M1 FB' k s Hk) as [A1 A2].
      split; [assumption|]. rewrite A2, HW.
      change (firstn (S (S k)) (st1 :: states))
        with (st1 :: firstn (S k) states).
      cbn [map max_list fold_right].
      fold (max_list (map (current_total sp) (firstn (S k) states))). lia.
Qed.

Lemma State_new_ledger (t0 : Now) (sp : Space) :
  current_total sp (State_new t0) = 0 /\
  current_live_sum sp (State_new t0) = 0 /\
  hwm_total sp (State_new t0) = 0.
Proof. destruct sp; repeat split. Qed.

(** C3, as amended.  Along every run of allocate and deallocate events that
    obeys the rules of the event source, the counter [total_size] of each
    current ledger is the sum of its live sizes modulo [2^64]; while that
    sum stays below [2^64], the counter is the sum itself and the total of
    the stored snapshot is the largest counter seen so far (zero at the
    start included).  A deallocate leaves both snapshots as they were. *)
Theorem ledger_invariant :
  forall (t0 : Now) (evs : list ledger_event),
    Forall (fun ev => is_uint64 (event_size ev)) evs ->
    follows_rules (State_new t0) evs ->
    exists states,
      ledger_trace (State_new t0) evs = Ok states /\
      (forall sp,
         Forall (fun s => current_total sp s = wrap64 (current_live_sum sp s))
           states) /\
      (forall sp,
         Forall (fun s => current_live_sum sp s < 2 ^ 64) states ->
         forall k s,
           nth_error states k = Some s ->
           current_total sp s = current_live_sum sp s /\
           hwm_total sp s =
             max_list (map (current_total sp) (firstn (S k) states))) /\
      (forall st sp nm p sz st',
         State_deallocate st sp nm p sz = Ok st' ->
         hwm_allocations st' = hwm_allocations st).
Proof.
  intros t0 evs U R.
  assert (N : sizes_nonneg (State_new t0)) by (intros [|]; constructor).
  destruct (ledger_trace_spec evs _ U R N) as [states [T H]].
  exists states. split; [exact T|]. split; [|split].
  - intros sp. apply H. now destruct sp.
  - intros sp FB k s Hk.
    destruct (State_new_ledger t0 sp) as [C [L W]].
    destruct (H sp) as [_ X]; [rewrite C, L; reflexivity|].
    assert (B0 : current_live_sum sp (State_new t0) < 2 ^ 64) by
      (rewrite L; reflexivity).
    assert (M0 : current_total sp (State_new t0) <= hwm_total sp (State_new t0))
      by (rewrite C, W; lia).
    destruct (X B0 M0 FB k s Hk) as [A1 A2].
    split; [assumption|]. rewrite A2, W.
    pose proof (max_list_nonneg (map (current_total sp) (firstn (S k) states))).
    lia.
  - intros st sp nm p sz st'. apply State_deallocate_keeps_hwm.
Qed.

(** The scenario of the specification: two buffers on the host, the first
    one freed; the counter goes 1000, 1200, 200 and the snapshot keeps
    1200. *)
Lemma ledger_invariant_witness :
  let evs := [Ev_allocate SPACE_HOST "buf1" 4096 1000;
              Ev_allocate SPACE_HOST "buf2" 8192 200;
              Ev_deallocate SPACE_HOST "buf1" 4096 1000] in
  exists states,
    ledger_trace (State_new 0) evs = Ok states /\
    (forall sp,
       Forall (fun s => current_total sp s = wrap64 (current_live_sum sp s))
         states) /\
    (forall sp,
       Forall (fun s => current_live_sum sp s < 2 ^ 64) states ->
       forall k s,
         nth_error states k = Some s ->
         current_total sp s = current_live_sum sp s /\
         hwm_total sp s =
           max_list (map (current_total sp) (firstn (S k) states))) /\
    (forall st sp nm p sz st',
       State_deallocate st sp nm p sz = Ok st' ->
       hwm_allocations st' = hwm_allocations st).
Proof.
  intros evs. apply (ledger_invariant 0 evs).
  - repeat constructor; unfold is_uint64; simpl; lia.
  - simpl. rules_by_computation.
Defined.

(** C3 as stated fails when the live sizes add up to [2^64] or more: after
    two allocations of [2^63] bytes the counter is back at zero. *)
Lemma ledger_total_wraps :
  let evs := [Ev_allocate SPACE_HOST "a" 1 (2 ^ 63);
              Ev_allocate SPACE_HOST "b" 2 (2 ^ 63)] in
  Forall (fun ev => is_uint64 (event_size ev)) evs /\
  follows_rules (State_new 0) evs /\
  exists s1 s2,
    ledger_trace (State_new 0) evs = Ok [s1; s2] /\
    current_total SPACE_HOST s2 = 0 /\
    current_live_sum SPACE_HOST s2 = 2 ^ 64.
Proof.
  intros evs. split; [|split].
  - repeat constructor; unfold is_uint64; simpl; lia.
  - simpl. rules_by_computation.
  - do 2 eexists. split; [vm_compute; reflexivity|]. split; reflexivity.
Qed.

(** The totals of that scenario: the counter goes 1000, 1200, 200, the
    snapshot total 1000, 1200, 1200, and the last snapshot still holds both
    records. *)
Example ledger_scenario_totals :
  match ledger_trace (State_new 0)
          [Ev_allocate SPACE_HOST "buf1" 4096 1000;
           Ev_allocate SPACE_HOST "buf2" 8192 200;
           Ev_deallocate SPACE_HOST "buf1" 4096 1000] with
  | Ok states =>
      map (current_total SPACE_HOST) states = [1000; 1200; 200] /\
      map (hwm_total SPACE_HOST) states = [1000; 1200; 1200] /\
      map (fun s => map alloc_name
                      (alloc_set (space_get (hwm_allocations s) SPACE_HOST)))
        states
      = [["buf1"]; ["buf1"; "buf2"]; ["buf1"; "buf2"]]%string
  | _ => False
  end.
Proof. vm_compute. repeat split. Qed.

(** ** Keys and their order *)

Lemma string_lt_irrefl (a : string) : string_lt a a = false.
Proof.
  unfold string_lt. destruct (String_as_OT.compare_spec a a) as [_|H|H];
    try reflexivity; exfalso; exact (irreflexivity H).
Qed.

Lemma string_lt_trans (a b c : string) :
  string_lt a b = true -> string_lt b c = true -> string_lt a c = true.
Proof.
  unfold string_lt.
  destruct (String_as_OT.compare a b) eqn:E1; try discriminate.
  destruct (String_as_OT.compare b c) eqn:E2; try discriminate.
  intros _ _.
  assert (H : String_as_OT.lt a c) by
    (transitivity b; assumption).
  unfold String_as_OT.lt in H. now rewrite H.
Qed.

Lemma string_lt_total (a b : string) :
  string_lt a b = false -> string_lt b a = false -> a = b.
Proof.
  unfold string_lt.
  destruct (String_as_OT.compare_spec a b) as [E|H|H]; auto; try discriminate.
  unfold String_as_OT.lt in H. rewrite H. discriminate.
Qed.

Lemma StackKind_int_inj (a b : StackKind) :
  StackKind_int a = StackKind_int b -> a = b.
Proof. destruct a, b; simpl; congruence. Qed.

Lemma key_lt_irrefl (a : key) : key_lt a a = false.
Proof.
  unfold key_lt. rewrite Z.eqb_refl. simpl. apply string_lt_irrefl.
Qed.

Lemma key_lt_trans (a b c : key) :
  key_lt a b = true -> key_lt b c = true -> key_lt a c = true.
Proof.
  unfold key_lt.
  destruct (Z.eqb_spec (StackKind_int (fst a)) (StackKind_int (fst b)));
    destruct (Z.eqb_spec (StackKind_int (fst b)) (StackKind_int (fst c)));
    destruct (Z.eqb_spec (StackKind_int (fst a)) (StackKind_int (fst c)));
    simpl; rewrite ?Z.ltb_lt; try lia; try congruence.
  apply string_lt_trans.
Qed.

Lemma key_eqb_eq (a b : key) : key_eqb a b = true <-> a = b.
Proof.
  unfold key_eqb, equiv. split.
  - rewrite andb_true_iff, !negb_true_iff. unfold key_lt.
    destruct (Z.eqb_spec (StackKind_int (fst a)) (StackKind_int (fst b)))
      as [E|E];
      destruct (Z.eqb_spec (StackKind_int (fst b)) (StackKind_int (fst a)))
      as [E'|E']; try congruence; simpl.
    + intros [H1 H2]. apply StackKind_int_inj in E.
      destruct a, b; simpl in *. f_equal; auto using string_lt_total.
    + rewrite !Z.ltb_ge. lia.
  - intros <-. now rewrite key_lt_irrefl.
Qed.

Lemma key_eqb_refl (a : key) : key_eqb a a = true.
Proof. now apply key_eqb_eq. Qed.

Lemma key_eqb_neq (a b : key) : key_eqb a b = false <-> a <> b.
Proof.
  rewrite <- key_eqb_eq. destruct (key_eqb a b); split; congruence.
Qed.

Lemma key_eqb_sym (a b : key) : key_eqb a b = key_eqb b a.
Proof. unfold key_eqb, equiv. apply andb_comm. Qed.

Lemma key_eq_dec (a b : key) : {a = b} + {a <> b}.
Proof.
  destruct (key_eqb a b) eqn:E; [left; now apply key_eqb_eq|right].
  now apply key_eqb_neq.
Qed.

Lemma path_eqb_eq (p q : path) : path_eqb p q = true <-> p = q.
Proof.
  revert q. induction p as [|k p IH]; destruct q as [|l q]; simpl;
    try (split; congruence).
  rewrite andb_true_iff, key_eqb_eq, IH. split; [intros [-> ->]|intros [= -> ->]];
    auto.
Qed.

Lemma ptr_eqb_eq (a b : node_ptr) : ptr_eqb a b = true <-> a = b.
Proof.
  destruct a as [p|], b as [q|]; simpl; try (split; congruence).
  rewrite path_eqb_eq. split; congruence.
Qed.

(** ** Children sets *)

Lemma node_equiv_key (a b : StackNode) :
  equiv StackNode_lt a b = key_eqb (node_key a) (node_key b).
Proof. reflexivity. Qed.

Lemma find_child_cons (k : key) (c : StackNode) (cs : list StackNode) :
  find_child k (c :: cs) =
  if key_eqb (node_key c) k then Some c else find_child k cs.
Proof.
  unfold find_child. simpl. rewrite node_equiv_key, key_eqb_sym.
  destruct k; reflexivity.
Qed.

Lemma find_child_nil (k : key) : find_child k [] = None.
Proof. reflexivity. Qed.

Lemma find_child_Some (k : key) (c : StackNode) (cs : list StackNode) :
  find_child k cs = Some c -> In c cs /\ node_key c = k.
Proof.
  induction cs as [|d cs IH]; [discriminate|].
  rewrite find_child_cons. destruct (key_eqb (node_key d) k) eqn:E.
  - intros [= <-]. apply key_eqb_eq in E. simpl; auto.
  - intros H. destruct (IH H). simpl; auto.
Qed.

Lemma find_child_None (k : key) (cs : list StackNode) :
  find_child k cs = None <-> ~ In k (map node_key cs).
Proof.
  induction cs as [|d cs IH]; [simpl; tauto|].
  rewrite find_child_cons. simpl.
  destruct (key_eqb (node_key d) k) eqn:E.
  - apply key_eqb_eq in E. split; [discriminate|tauto].
  - apply key_eqb_neq in E. rewrite IH. tauto.
Qed.

Lemma find_child_update_same (g : StackNode -> StackNode) (k : key)
  (cs : list StackNode) :
  (forall c, node_key (g c) = node_key c) ->
  find_child k (update_child k g cs) = option_map g (find_child k cs).
Proof.
  intros G. induction cs as [|d cs IH]; [reflexivity|].
  simpl. rewrite find_child_cons.
  destruct (key_eqb (node_key d) k) eqn:E.
  - now rewrite find_child_cons, G, E.
  - now rewrite find_child_cons, E.
Qed.

Lemma find_child_update_other (g : StackNode -> StackNode) (k l : key)
  (cs : list StackNode) :
  (forall c, node_key (g c) = node_key c) ->
  l <> k ->
  find_child l (update_child k g cs) = find_child l cs.
Proof.
  intros G N. induction cs as [|d cs IH]; [reflexivity|].
  simpl. destruct (key_eqb (node_key d) k) eqn:E.
  - rewrite !find_child_cons, G. apply key_eqb_eq in E.
    destruct (key_eqb (node_key d) l) eqn:E'; [|reflexivity].
    apply key_eqb_eq in E'. congruence.
  - rewrite !find_child_cons, IH. reflexivity.
Qed.

Lemma update_child_keys (g : StackNode -> StackNode) (k : key)
  (cs : list StackNode) :
  (forall c, node_key (g c) = node_key c) ->
  map node_key (update_child k g cs) = map node_key cs.
Proof.
  intros G. induction cs as [|d cs IH]; [reflexivity|].
  simpl. destruct (key_eqb (node_key d) k); simpl; now rewrite ?G, ?IH.
Qed.

Lemma update_child_id (g : StackNode -> StackNode) (k : key)
  (cs : list StackNode) :
  (forall c, find_child k cs = Some c -> g c = c) ->
  update_child k g cs = cs.
Proof.
  induction cs as [|d cs IH]; [reflexivity|].
  simpl. rewrite find_child_cons. destruct (key_eqb (node_key d) k).
  - intros H. now rewrite H.
  - intros H. now rewrite IH.
Qed.

Lemma update_child_twice (g : StackNode -> StackNode) (k : key)
  (cs : list StackNode) :
  (forall c, node_key (g c) = node_key c) ->
  update_child k g (update_child k g cs)
  = update_child k (fun c => g (g c)) cs.
Proof.
  intros G. induction cs as [|d cs IH]; [reflexivity|].
  simpl. destruct (key_eqb (node_key d) k) eqn:E; simpl.
  - now rewrite G, E.
  - now rewrite E, IH.
Qed.

Lemma update_child_ext (g h : StackNode -> StackNode) (k : key)
  (cs : list StackNode) :
  (forall c, g c = h c) -> update_child k g cs = update_child k h cs.
Proof.
  intros H. induction cs as [|d cs IH]; [reflexivity|].
  simpl. now rewrite H, IH.
Qed.

Lemma get_child_candidate (n : StackNode) (nm : string) (k : StackKind) :
  set_find StackNode_lt (new_StackNode nm k) (children n)
  = find_child (k, nm) (children n).
Proof. reflexivity. Qed.

Lemma set_place_keys (c : StackNode) (cs : list StackNode) :
  Permutation (map node_key (set_place StackNode_lt c cs))
    (node_key c :: map node_key cs).
Proof.
  change (node_key c :: map node_key cs) with (map node_key (c :: cs)).
  apply Permutation_map, set_place_perm.
Qed.

Lemma find_child_place_same (c : StackNode) (cs : list StackNode) :
  find_child (node_key c) cs = None ->
  find_child (node_key c) (set_place StackNode_lt c cs) = Some c.
Proof.
  induction cs as [|d cs IH]; simpl.
  - intros _. rewrite find_child_cons, key_eqb_refl. reflexivity.
  - rewrite find_child_cons. destruct (key_eqb (node_key d) (node_key c)) eqn:E;
      [discriminate|]. intros H.
    destruct (StackNode_lt c d).
    + rewrite find_child_cons, key_eqb_refl. reflexivity.
    + rewrite find_child_cons, E. auto.
Qed.

Lemma find_child_place_other (k : key) (c : StackNode) (cs : list StackNode) :
  node_key c <> k ->
  find_child k (set_place StackNode_lt c cs) = find_child k cs.
Proof.
  intros N. apply key_eqb_neq in N.
  induction cs as [|d cs IH]; simpl.
  - now rewrite find_child_cons, N.
  - destruct (StackNode_lt c d).
    + now rewrite find_child_cons, N.
    + rewrite !find_child_cons, IH. reflexivity.
Qed.

(** [get_child] on a node: what it leaves and what it adds. *)
Lemma get_child_fields (n : StackNode) (nm : string) (k : StackKind) :
  name (get_child n nm k) = name n /\
  kind (get_child n nm k) = kind n /\
  total_runtime (get_child n nm k) = total_runtime n /\
  max_runtime (get_child n nm k) = max_runtime n /\
  avg_runtime (get_child n nm k) = avg_runtime n /\
  number_of_calls (get_child n nm k) = number_of_calls n /\
  start_time (get_child n nm k) = start_time n.
Proof.
  unfold get_child. destruct (set_find _ _ _); simpl; repeat split.
Qed.

Lemma get_child_key (n : StackNode) (nm : string) (k : StackKind) :
  node_key (get_child n nm k) = node_key n.
Proof.
  unfold node_key. destruct (get_child_fields n nm k) as [-> [-> _]].
  reflexivity.
Qed.

Lemma get_child_children (n : StackNode) (nm : string) (k : StackKind) :
  children (get_child n nm k) =
  match find_child (k, nm) (children n) with
  | Some _ => children n
  | None => set_place StackNode_lt (new_StackNode nm k) (children n)
  end.
Proof.
  unfold get_child, set_emplace. rewrite get_child_candidate.
  destruct (find_child _ _); reflexivity.
Qed.

Lemma get_child_find_same (n : StackNode) (nm : string) (k : StackKind) :
  find_child (k, nm) (children (get_child n nm k)) =
  match find_child (k, nm) (children n) with
  | Some c => Some c
  | None => Some (new_StackNode nm k)
  end.
Proof.
  rewrite get_child_children. destruct (find_child (k, nm) (children n)) eqn:E;
    [exact E|].
  apply (find_child_place_same (new_StackNode nm k)). exact E.
Qed.

Lemma get_child_find_other (n : StackNode) (nm : string) (k : StackKind)
  (l : key) :
  l <> (k, nm) ->
  find_child l (children (get_child n nm k)) = find_child l (children n).
Proof.
  intros N. rewrite get_child_children.
  destruct (find_child (k, nm) (children n)); [reflexivity|].
  apply find_child_place_other. intros E. apply N. now rewrite <- E.
Qed.

Lemma get_child_idem (n : StackNode) (nm : string) (k : StackKind) :
  get_child (get_child n nm k) nm k = get_child n nm k.
Proof.
  unfold get_child at 1. rewrite get_child_candidate, get_child_find_same.
  destruct (find_child (k, nm) (children n)); reflexivity.
Qed.

(** ** Reading and writing through pointers *)

Lemma bare_key (n n' : StackNode) : bare n = bare n' -> node_key n = node_key n'.
Proof. unfold bare, set_children, node_key. intros [= -> -> _]. reflexivity. Qed.

Lemma bare_total (n n' : StackNode) :
  bare n = bare n' -> total_runtime n = total_runtime n'.
Proof. unfold bare, set_children. now intros [= _ _ -> _]. Qed.

Lemma bare_set_children (n : StackNode) (cs : list StackNode) :
  bare (set_children n cs) = bare n.
Proof. reflexivity. Qed.

Lemma keeps_fields_key (f : StackNode -> StackNode) :
  keeps_fields f -> keeps_key f.
Proof. intros H n. apply bare_key, H. Qed.

Lemma get_child_keeps_fields (nm : string) (k : StackKind) :
  keeps_fields (fun n => get_child n nm k).
Proof.
  intros n. unfold get_child. destruct (set_find _ _ _); reflexivity.
Qed.

Lemma modify_at_key (f : StackNode -> StackNode) (p : path) (n : StackNode) :
  keeps_key f -> node_key (modify_at f p n) = node_key n.
Proof. intros F. destruct p; [apply F|reflexivity]. Qed.

Lemma strip_prefix_app (p r : path) : strip_prefix p (p ++ r) = Some r.
Proof.
  induction p as [|k p IH]; simpl; [reflexivity|].
  now rewrite key_eqb_refl.
Qed.

Lemma strip_prefix_Some (p q r : path) :
  strip_prefix p q = Some r -> q = p ++ r.
Proof.
  revert q. induction p as [|k p IH]; simpl; intros q.
  - now intros [= ->].
  - destruct q as [|l q]; [discriminate|].
    destruct (key_eqb l k) eqn:E; [|discriminate].
    apply key_eqb_eq in E. subst l. intros H. f_equal. auto.
Qed.

Lemma strip_prefix_refl (p : path) : strip_prefix p p = Some [].
Proof.
  rewrite <- (app_nil_r p) at 2. apply strip_prefix_app.
Qed.

(** The node read at [q] after a write at [p]. *)
Lemma node_at_modify_at (f : StackNode -> StackNode) :
  keeps_key f ->
  forall (p q : path) (t : StackNode),
    node_at q (modify_at f p t) =
    match strip_prefix p q with
    | Some r =>
        match node_at p t with
        | Some n => node_at r (f n)
        | None => None
        end
    | None =>
        match strip_prefix q p with
        | Some r => option_map (modify_at f r) (node_at q t)
        | None => node_at q t
        end
    end.
Proof.
  intros F. induction p as [|k p IH]; intros q t.
  - reflexivity.
  - destruct q as [|l q].
    + reflexivity.
    + cbn [strip_prefix modify_at node_at].
      assert (G : forall c, node_key (modify_at f p c) = node_key c) by
        (intros c; now apply modify_at_key).
      change (children (set_children t
                (update_child k (modify_at f p) (children t))))
        with (update_child k (modify_at f p) (children t)).
      rewrite (key_eqb_sym k l).
      destruct (key_eqb l k) eqn:E.
      * apply key_eqb_eq in E. subst l.
        rewrite (find_child_update_same _ k _ G).
        destruct (find_child k (children t)) as [c|] eqn:C; simpl.
        -- apply IH.
        -- destruct (strip_prefix p q); [reflexivity|].
           destruct (strip_prefix q p); reflexivity.
      * apply key_eqb_neq in E.
        rewrite (find_child_update_other _ k l _ G E). reflexivity.
Qed.

Lemma node_at_modify_at_same (f : StackNode -> StackNode) (p : path)
  (t : StackNode) :
  keeps_key f ->
  node_at p (modify_at f p t) = option_map f (node_at p t).
Proof.
  intros F. rewrite (node_at_modify_at f F), strip_prefix_refl.
  destruct (node_at p t); reflexivity.
Qed.

Lemma node_at_app (p r : path) (t : StackNode) :
  node_at (p ++ r) t =
  match node_at p t with
  | Some n => node_at r n
  | None => None
  end.
Proof.
  revert t. induction p as [|k p IH]; intros t; simpl; [reflexivity|].
  destruct (find_child k (children t)); [apply IH|reflexivity].
Qed.

Lemma node_at_children_only (n n' : StackNode) (r : path) :
  children n = children n' -> r <> [] -> node_at r n = node_at r n'.
Proof.
  intros C R. destruct r as [|k r]; [congruence|]. simpl. now rewrite C.
Qed.

Lemma bare_modify_at_cons (f : StackNode -> StackNode) (k : key) (r : path)
  (n : StackNode) :
  bare (modify_at f (k :: r) n) = bare n.
Proof. reflexivity. Qed.

(** A write that keeps the children leaves every other node's own fields
    alone, and no node appears or disappears. *)
Lemma node_at_modify_at_other (f : StackNode -> StackNode) (p q : path)
  (t : StackNode) :
  keeps_key f -> keeps_children f -> q <> p ->
  option_map bare (node_at q (modify_at f p t)) = option_map bare (node_at q t).
Proof.
  intros F C N. rewrite (node_at_modify_at f F).
  destruct (strip_prefix p q) as [r|] eqn:S1.
  - apply strip_prefix_Some in S1. subst q.
    rewrite node_at_app. destruct (node_at p t) as [n|]; [|reflexivity].
    f_equal. apply node_at_children_only; [apply C|].
    intros ->. apply N. now rewrite app_nil_r.
  - destruct (strip_prefix q p) as [r|] eqn:S2; [|reflexivity].
    apply strip_prefix_Some in S2. subst p.
    destruct (node_at q t) as [n|]; [|reflexivity]. simpl. f_equal.
    destruct r as [|k r]; [exfalso; apply N; now rewrite app_nil_r|].
    reflexivity.
Qed.

(** A write that keeps the fields (and may add children): nodes that were
    there stay, with their own fields. *)
Lemma node_at_grow (f : StackNode -> StackNode) (p q : path)
  (t n : StackNode) :
  keeps_fields f ->
  (forall m l c, find_child l (children m) = Some c ->
                 find_child l (children (f m)) = Some c) ->
  node_at q t = Some n ->
  exists n', node_at q (modify_at f p t) = Some n' /\ bare n' = bare n.
Proof.
  intros F G H. rewrite (node_at_modify_at f (keeps_fields_key f F)).
  destruct (strip_prefix p q) as [r|] eqn:S1.
  - apply strip_prefix_Some in S1. subst q.
    rewrite node_at_app in H. destruct (node_at p t) as [m|]; [|discriminate].
    destruct r as [|l r]; simpl in *.
    + injection H as <-. eexists. split; [reflexivity|apply F].
    + destruct (find_child l (children m)) as [c|] eqn:C; [|discriminate].
      rewrite (G m l c C). eauto.
  - destruct (strip_prefix q p) as [r|] eqn:S2.
    + rewrite H. simpl. eexists. split; [reflexivity|].
      apply strip_prefix_Some in S2. subst p.
      destruct r as [|k r]; [|reflexivity].
      rewrite app_nil_r, strip_prefix_refl in S1. discriminate.
    + eauto.
Qed.

Lemma get_child_find_keep (nm : string) (k : StackKind) (m : StackNode)
  (l : key) (c : StackNode) :
  find_child l (children m) = Some c ->
  find_child l (children (get_child m nm k)) = Some c.
Proof.
  intros H. destruct (key_eq_dec l (k, nm)) as [->|N].
  - rewrite get_child_find_same, H. reflexivity.
  - rewrite get_child_find_other; assumption.
Qed.

Lemma get_child_at_keeps (root : StackNode) (p q : path) (nm : string)
  (k : StackKind) (n : StackNode) :
  node_at q root = Some n ->
  exists n', node_at q (fst (get_child_at root p nm k)) = Some n' /\
             bare n' = bare n.
Proof.
  apply node_at_grow.
  - apply get_child_keeps_fields.
  - intros m l c. apply get_child_find_keep.
Qed.

(** The returned pointer of [get_child] points to a node with the asked
    key: the child that was there, or a new one with zero counters. *)
Lemma get_child_at_result (root : StackNode) (p : path) (nm : string)
  (k : StackKind) (n : StackNode) :
  node_at p root = Some n ->
  node_at (snd (get_child_at root p nm k)) (fst (get_child_at root p nm k)) =
  match find_child (k, nm) (children n) with
  | Some c => Some c
  | None => Some (new_StackNode nm k)
  end.
Proof.
  intros H. unfold get_child_at. cbn [fst snd].
  rewrite (node_at_modify_at _ (keeps_fields_key _ (get_child_keeps_fields nm k))).
  rewrite strip_prefix_app, H. simpl. rewrite get_child_find_same.
  destruct (find_child (k, nm) (children n)); reflexivity.
Qed.

Lemma modify_at_twice (f : StackNode -> StackNode) (p : path) (t : StackNode) :
  keeps_key f -> (forall n, f (f n) = f n) ->
  modify_at f p (modify_at f p t) = modify_at f p t.
Proof.
  intros F I. revert t. induction p as [|k p IH]; intros t; simpl; [apply I|].
  unfold set_children. simpl. f_equal.
  rewrite update_child_twice by (intros c; now apply modify_at_key).
  apply update_child_ext, IH.
Qed.

Lemma set_children_same (n : StackNode) : set_children n (children n) = n.
Proof. now destruct n. Qed.

(** A write that does not change the node it reaches changes nothing. *)
Lemma modify_at_id (f : StackNode -> StackNode) (p : path) (t : StackNode) :
  (forall n, node_at p t = Some n -> f n = n) ->
  modify_at f p t = t.
Proof.
  revert t. induction p as [|k p IH]; intros t H; simpl; [now apply H|].
  rewrite update_child_id; [apply set_children_same|].
  intros c C. apply IH. intros n Hn. apply H. simpl. now rewrite C.
Qed.

Lemma get_child_at_idem (root : StackNode) (p : path) (nm : string)
  (k : StackKind) :
  get_child_at (fst (get_child_at root p nm k)) p nm k
  = get_child_at root p nm k.
Proof.
  unfold get_child_at. cbn [fst]. f_equal.
  apply (modify_at_twice (fun n => get_child n nm k)).
  - apply keeps_fields_key, get_child_keeps_fields.
  - intros n. apply get_child_idem.
Qed.

(** ** The session: cursor, kernel ids and full names *)

(** C4, at its input.  The frame reached by [get_child("A")] under the
    root and then [get_child("B")] exists, and [get_full_name] gives it the
    name [A/B/]: every name on the way, the last one too, is followed by the
    separator. *)
Theorem get_full_name_nested :
  forall (k1 k2 : StackKind),
    let root := new_StackNode "" STACK_REGION in
    let a := get_child_at root [] "A" k1 in
    let b := get_child_at (fst a) (snd a) "B" k2 in
    node_at (snd b) (fst b) = Some (new_StackNode "B" k2) /\
    get_full_name (fst b) (snd b) = "A/B/"%string.
Proof.
  intros k1 k2. destruct k1, k2; split; vm_compute; reflexivity.
Qed.

Lemma end_frame_Some (st : State) (end_time : Now) (p : path) :
  stack_frame st = Some p ->
  end_frame st end_time =
  Ok (mkState (modify_at (end_ end_time) p (stack_root st)) (parent_ptr p)
        (current_allocations st) (hwm_allocations st)).
Proof. unfold end_frame. now intros ->. Qed.

(** C5.  In a state whose cursor points to the frame at [p]: a kernel id
    other than the cursor aborts, with the diagnostic that names the full
    path of the cursor; the kernel id of the cursor ends that frame and
    moves the cursor to its parent. *)
Theorem end_kernel_checks_kernel_id :
  forall (st : State) (end_time : Now) (kernid : node_ptr) (p : path),
    stack_frame st = Some p ->
    (kernid <> Some p ->
     end_kernel st end_time kernid =
     Abort ("Expected " ++ dquote ++ get_full_name (stack_root st) p
              ++ dquote ++ " to end, got different kernel ID" ++ newline)%string)
    /\
    (kernid = Some p ->
     exists st',
       end_kernel st end_time kernid = Ok st' /\
       stack_frame st' = parent_ptr p /\
       stack_root st' = modify_at (end_ end_time) p (stack_root st)).
Proof.
  intros st end_time kernid p C. unfold end_kernel. rewrite C. split.
  - intros N. destruct (ptr_eqb kernid (Some p)) eqn:E.
    + apply ptr_eqb_eq in E. contradiction.
    + reflexivity.
  - intros ->. assert (E : ptr_eqb (Some p) (Some p) = true) by
      now apply ptr_eqb_eq.
    rewrite E. simpl. rewrite (end_frame_Some st end_time p C).
    eexists. repeat split.
Qed.

(** A kernel [A] is running and the id of the root is presented. *)
Lemma end_kernel_checks_kernel_id_witness :
  let st := mkState
              (get_child (begin 0 (new_StackNode "" STACK_REGION)) "A" STACK_FOR)
              (Some [(STACK_FOR, "A"%string)])
              (Allocations_new, Allocations_new)
              (Allocations_new, Allocations_new) in
  (Some [] <> Some [(STACK_FOR, "A"%string)] ->
   end_kernel st 7 (Some []) =
   Abort ("Expected " ++ dquote
            ++ get_full_name (stack_root st) [(STACK_FOR, "A"%string)]
            ++ dquote ++ " to end, got different kernel ID" ++ newline)%string)
  /\
  (Some [] = Some [(STACK_FOR, "A"%string)] ->
   exists st',
     end_kernel st 7 (Some []) = Ok st' /\
     stack_frame st' = parent_ptr [(STACK_FOR, "A"%string)] /\
     stack_root st' =
       modify_at (end_ 7) [(STACK_FOR, "A"%string)] (stack_root st)).
Proof.
  intros st.
  apply (end_kernel_checks_kernel_id st 7 (Some []) [(STACK_FOR, "A"%string)]).
  reflexivity.
Defined.

(** C6 as stated fails: [pop_region] in the state right after construction
    returns, and the cursor is then null. *)
Lemma pop_region_at_root_returns :
  exists st', pop_region (State_new 0) 5 = Ok st' /\ stack_frame st' = None.
Proof. eexists. split; reflexivity. Qed.

(** C6, as amended.  With the cursor at the root, [pop_region] makes no
    check: it ends the root frame and leaves the cursor at the parent of the
    root, which is null.  Nothing aborts at that point; from that state no
    later frame event and no run of the destructor returns. *)
Theorem pop_region_at_root :
  forall (st : State) (t : Now),
    stack_frame st = Some [] ->
    exists st',
      pop_region st t = Ok st' /\
      stack_frame st' = None /\
      stack_root st' = end_ t (stack_root st) /\
      (forall t' nm k, fails (begin_frame st' t' nm k)) /\
      (forall t', fails (pop_region st' t')) /\
      (forall t' kernid, fails (end_kernel st' t' kernid)) /\
      (forall t', fails (State_finish st' t')).
Proof.
  intros st t C. unfold pop_region. rewrite (end_frame_Some st t [] C).
  eexists. split; [reflexivity|]. simpl. repeat split.
  intros t' kernid. unfold end_kernel. simpl.
  destruct (ptr_eqb kernid None); exact I.
Qed.

Lemma pop_region_at_root_witness :
  exists st',
    pop_region (State_new 0) 5 = Ok st' /\
    stack_frame st' = None /\
    stack_root st' = end_ 5 (stack_root (State_new 0)) /\
    (forall t' nm k, fails (begin_frame st' t' nm k)) /\
    (forall t', fails (pop_region st' t')) /\
    (forall t' kernid, fails (end_kernel st' t' kernid)) /\
    (forall t', fails (State_finish st' t')).
Proof.
  apply (pop_region_at_root (State_new 0) 5). reflexivity.
Defined.

(** ** Child lookup *)

Lemma get_child_calls_keep (calls : list (path * string * StackKind)) :
  forall (root : StackNode) (q : path) (n : StackNode),
    node_at q root = Some n ->
    exists n', node_at q (get_child_calls root calls) = Some n' /\
               bare n' = bare n.
Proof.
  induction calls as [|[[p nm] k] calls IH]; intros root q n H; simpl.
  - eauto.
  - destruct (get_child_at_keeps root p q nm k n H) as [n1 [H1 B1]].
    destruct (IH _ q n1 H1) as [n2 [H2 B2]].
    exists n2. split; [exact H2|congruence].
Qed.

Lemma get_child_at_found (root : StackNode) (p : path) (nm : string)
  (k : StackKind) (c : StackNode) :
  node_at (p ++ [(k, nm)]) root = Some c ->
  get_child_at root p nm k = (root, p ++ [(k, nm)]).
Proof.
  intros H. unfold get_child_at. f_equal. apply modify_at_id.
  intros n Hn. rewrite node_at_app, Hn in H. simpl in H.
  unfold get_child. rewrite get_child_candidate.
  destruct (find_child (k, nm) (children n)); [reflexivity|discriminate].
Qed.

(** C8.  Under a frame that exists, a second [get_child] with the same name
    and kind returns the pointer of the first and creates nothing.  The
    pointer then stays good through any later [get_child] calls, on any
    frames: it still points to a node with the same name, kind and
    counters, and asking again still returns it and creates nothing. *)
Theorem get_child_idempotent_stable :
  forall (root : StackNode) (p : path) (nm : string) (k : StackKind)
         (n : StackNode),
    node_at p root = Some n ->
    let first := get_child_at root p nm k in
    get_child_at (fst first) p nm k = first /\
    exists c,
      node_at (snd first) (fst first) = Some c /\
      node_key c = (k, nm) /\
      forall calls : list (path * string * StackKind),
        let root' := get_child_calls (fst first) calls in
        (exists c', node_at (snd first) root' = Some c' /\ bare c' = bare c) /\
        get_child_at root' p nm k = (root', snd first).
Proof.
  intros root p nm k n H first. split.
  - apply get_child_at_idem.
  - pose proof (get_child_at_result root p nm k n H) as R. fold first in R.
    assert (X : exists c, node_at (snd first) (fst first) = Some c /\
                          node_key c = (k, nm)).
    { rewrite R. destruct (find_child (k, nm) (children n)) as [c|] eqn:C.
      - exists c. split; [reflexivity|]. now apply find_child_Some in C.
      - eexists. split; reflexivity. }
    destruct X as [c [Hc Kc]]. exists c. split; [exact Hc|].
    split; [exact Kc|]. intros calls root'.
    destruct (get_child_calls_keep calls _ _ _ Hc) as [c' [Hc' Bc']].
    fold root' in Hc'. split; [eauto|].
    apply (get_child_at_found root' p nm k c'). exact Hc'.
Qed.

(** The root of a new session, a child [A], and later calls that create a
    sibling and a grandchild. *)
Lemma get_child_idempotent_stable_witness :
  let root := new_StackNode "" STACK_REGION in
  let first := get_child_at root [] "A" STACK_FOR in
  get_child_at (fst first) [] "A" STACK_FOR = first /\
  exists c,
    node_at (snd first) (fst first) = Some c /\
    node_key c = (STACK_FOR, "A"%string) /\
    forall calls : list (path * string * StackKind),
      let root' := get_child_calls (fst first) calls in
      (exists c', node_at (snd first) root' = Some c' /\ bare c' = bare c) /\
      get_child_at root' [] "A" STACK_FOR = (root', snd first).
Proof.
  intros root.
  apply (get_child_idempotent_stable root [] "A" STACK_FOR root).
  reflexivity.
Defined.

(** ** Inversion *)

Local Open Scope Q_scope.

Lemma tree_size_pos (n : StackNode) : (0 < tree_size n)%nat.
Proof. destruct n; simpl; lia. Qed.

Lemma tree_size_unfold (n : StackNode) :
  tree_size n = S (list_sum (map tree_size (children n))).
Proof. destruct n; reflexivity. Qed.

Lemma queue_size_app (q q' : list (StackNode * list key)) :
  queue_size (q ++ q') = (queue_size q + queue_size q')%nat.
Proof. unfold queue_size. now rewrite map_app, list_sum_app. Qed.

Lemma queue_size_children (cs : list StackNode) (anc : list key) :
  queue_size (map (fun child => (child, anc)) cs)
  = list_sum (map tree_size cs).
Proof. unfold queue_size. rewrite map_map. reflexivity. Qed.

(** ** Sets in the order of their comparator *)

Section StdSetOrder.

Variable A : Type.
Variable lt : A -> A -> bool.
Hypothesis lt_trans : forall a b c, lt a b = true -> lt b c = true -> lt a c = true.

Lemma set_place_In (x y : A) (s : list A) :
  In y (set_place lt x s) <-> y = x \/ In y s.
Proof.
  split; intros H.
  - apply (Permutation_in _ (set_place_perm A lt x s)) in H.
    destruct H; auto.
  - apply (Permutation_in _ (Permutation_sym (set_place_perm A lt x s))).
    destruct H; [left|right]; auto.
Qed.

Lemma set_place_sorted (x : A) (s : list A) :
  StronglySorted (lt_true lt) s ->
  set_find lt x s = None ->
  StronglySorted (lt_true lt) (set_place lt x s).
Proof.
  induction 1 as [|y s S IH F]; simpl.
  - intros _. repeat constructor.
  - unfold lt_true in *. unfold equiv. destruct (lt x y) eqn:L; simpl.
    + intros _. constructor; [now constructor|].
      constructor; [exact L|].
      rewrite Forall_forall in *. intros z Hz. apply (lt_trans x y z L).
      now apply F.
    + destruct (lt y x) eqn:L'; simpl; [|discriminate].
      intros N. constructor; [now apply IH|].
      rewrite Forall_forall in *. intros z Hz.
      apply set_place_In in Hz. destruct Hz as [->|Hz]; [exact L'|].
      now apply F.
Qed.


Lemma set_emplace_In (x y : A) (s : list A) :
  In y (fst (set_emplace lt x s)) -> y = x \/ In y s.
Proof.
  unfold set_emplace. destruct (set_find lt x s); simpl; [auto|].
  apply set_place_In.
Qed.



Lemma insert_all_from_In (xs : list A) :
  forall s y, In y (fold_left (fun s x => fst (set_emplace lt x s)) xs s) ->
              In y xs \/ In y s.
Proof.
  induction xs as [|x xs IH]; intros s y H; simpl in *; [auto|].
  destruct (IH _ _ H) as [H'|H']; [auto|].
  apply set_emplace_In in H'. destruct H'; auto.
Qed.

Lemma insert_all_In (xs : list A) (y : A) : In y (insert_all lt xs) -> In y xs.
Proof.
  intros H. destruct (insert_all_from_In xs [] y H) as [|[]]. assumption.
Qed.

End StdSetOrder.

(** Sorting entries by their node sorts the nodes. *)
Section Entries.

Variables N P : Type.
Variable lt : N -> N -> bool.
Variable g : N -> P.

Lemma set_find_entries (x : N) (s : list N) :
  set_find (fun a b : N * P => lt (fst a) (fst b)) (x, g x)
    (map (fun c => (c, g c)) s)
  = option_map (fun c => (c, g c)) (set_find lt x s).
Proof.
  induction s as [|y s IH]; simpl; [reflexivity|].
  unfold equiv at 1. simpl. fold (equiv lt x y).
  destruct (equiv lt x y); [reflexivity|exact IH].
Qed.

Lemma set_place_entries (x : N) (s : list N) :
  set_place (fun a b : N * P => lt (fst a) (fst b)) (x, g x)
    (map (fun c => (c, g c)) s)
  = map (fun c => (c, g c)) (set_place lt x s).
Proof.
  induction s as [|y s IH]; simpl; [reflexivity|].
  destruct (lt x y); simpl; [reflexivity|]. now rewrite IH.
Qed.

Lemma set_emplace_entries (x : N) (s : list N) :
  fst (set_emplace (fun a b : N * P => lt (fst a) (fst b)) (x, g x)
         (map (fun c => (c, g c)) s))
  = map (fun c => (c, g c)) (fst (set_emplace lt x s)).
Proof.
  unfold set_emplace. rewrite set_find_entries.
  destruct (set_find lt x s); simpl; [reflexivity|apply set_place_entries].
Qed.

Lemma insert_all_entries (xs : list N) :
  insert_all (fun a b : N * P => lt (fst a) (fst b))
    (map (fun c => (c, g c)) xs)
  = map (fun c => (c, g c)) (insert_all lt xs).
Proof.
  unfold insert_all.
  change (@nil (N * P)) with (map (fun c => (c, g c)) []).
  generalize (@nil N).
  induction xs as [|x xs IH]; intros s; simpl; [reflexivity|].
  rewrite set_emplace_entries. apply IH.
Qed.

End Entries.

Local Open Scope Q_scope.

Lemma Qltb_lt (a b : Q) : Qltb a b = true <-> a < b.
Proof.
  unfold Qltb. rewrite Qlt_alt. destruct (a ?= b); split; congruence.
Qed.

Lemma by_time_spec (a b : StackNode) :
  by_time a b = true <-> printed_before a b.
Proof.
  unfold by_time, printed_before.
  destruct (Qeq_bool (total_runtime a) (total_runtime b)) eqn:E; simpl.
  - apply Qeq_bool_iff in E. split; [auto|].
    intros [H|[_ H]]; [|exact H]. rewrite E in H.
    exfalso. exact (Qlt_irrefl _ H).
  - rewrite Qltb_lt. split; [auto|]. intros [H|[H _]]; [exact H|].
    apply Qeq_bool_iff in H. congruence.
Qed.

Lemma by_time_trans (a b c : StackNode) :
  by_time a b = true -> by_time b c = true -> by_time a c = true.
Proof.
  rewrite !by_time_spec. unfold printed_before.
  intros [H1|[E1 S1]] [H2|[E2 S2]].
  - left. now apply (Qlt_trans _ (total_runtime b)).
  - left. now rewrite <- E2.
  - left. now rewrite E1.
  - right. split; [now rewrite E1|]. now apply (string_lt_trans _ (name b)).
Qed.

(** ** Reduction over the ranks *)

Local Open Scope Z_scope.

(** Induction on trees. *)
Lemma StackNode_tree_ind (P : StackNode -> Prop) :
  (forall n, Forall P (children n) -> P n) -> forall n, P n.
Proof.
  intros H. fix IH 1. intros [nm kd cs tot mx av calls st]. apply H. simpl.
  induction cs as [|c cs IHcs]; constructor; [apply IH|exact IHcs].
Qed.

Lemma sortedb_cons {A : Type} (lt : A -> A -> bool) (x : A) (l : list A) :
  (forall a b c, lt a b = true -> lt b c = true -> lt a c = true) ->
  sortedb lt (x :: l) = true ->
  Forall (fun y => lt x y = true) l /\ sortedb lt l = true.
Proof.
  intros T. revert x. induction l as [|y l IH]; intros x H.
  - split; [constructor|reflexivity].
  - cbn [sortedb] in H. apply andb_true_iff in H. destruct H as [L S].
    split; [|exact S]. constructor; [exact L|].
    destruct (IH y S) as [F _]. rewrite Forall_forall in *.
    intros z Hz. apply (T x y z L). now apply F.
Qed.

Lemma StackNode_lt_trans (a b c : StackNode) :
  StackNode_lt a b = true -> StackNode_lt b c = true -> StackNode_lt a c = true.
Proof. apply key_lt_trans. Qed.

Lemma sorted_children_NoDup (cs : list StackNode) :
  sortedb StackNode_lt cs = true -> NoDup (map node_key cs).
Proof.
  induction cs as [|c cs IH]; intros H; [constructor|].
  destruct (sortedb_cons _ _ _ StackNode_lt_trans H) as [F S].
  simpl. constructor; [|now apply IH].
  intros Hin. apply in_map_iff in Hin. destruct Hin as [d [K Hd]].
  rewrite Forall_forall in F. specialize (F d Hd).
  unfold StackNode_lt in F. rewrite K, key_lt_irrefl in F. discriminate.
Qed.

Lemma wf_children (n : StackNode) :
  wf n = true ->
  NoDup (child_keys n) /\ forall c, In c (children n) -> wf c = true.
Proof.
  destruct n as [nm kd cs tot mx av calls st]. cbn [wf children child_keys].
  rewrite andb_true_iff, forallb_forall. intros [S F].
  split; [now apply sorted_children_NoDup|exact F].
Qed.

Lemma wf_node_at (p : path) :
  forall t n, wf t = true -> node_at p t = Some n -> wf n = true.
Proof.
  induction p as [|k p IH]; intros t n W H; simpl in H.
  - now injection H as <-.
  - destruct (find_child k (children t)) as [c|] eqn:C; [|discriminate].
    apply (IH c n); [|exact H].
    apply (proj2 (wf_children t W)). now apply find_child_Some in C.
Qed.

Lemma find_child_own (c : StackNode) (cs : list StackNode) :
  NoDup (map node_key cs) -> In c cs -> find_child (node_key c) cs = Some c.
Proof.
  induction cs as [|d cs IH]; intros N H; [destruct H|].
  simpl in N. inversion N as [|? ? N1 N2]; subst.
  rewrite find_child_cons. destruct H as [->|H].
  - now rewrite key_eqb_refl.
  - destruct (key_eqb (node_key d) (node_key c)) eqn:E; [|now apply IH].
    apply key_eqb_eq in E. exfalso. apply N1. rewrite E. now apply in_map.
Qed.

Lemma find_child_key_In (k : key) (cs : list StackNode) :
  In k (map node_key cs) -> exists c, find_child k cs = Some c.
Proof.
  intros H. destruct (find_child k cs) eqn:E; [eauto|].
  apply find_child_None in E. contradiction.
Qed.

(** *** Writes of the reduction and what they keep *)

Lemma reduced_keeps_key (sum mx : Q) (cs : Z) : keeps_key (reduced sum mx cs).
Proof. intros n. reflexivity. Qed.

Lemma reduced_keeps_children (sum mx : Q) (cs : Z) :
  keeps_children (reduced sum mx cs).
Proof. intros n. reflexivity. Qed.

Lemma child_keys_modify_at (f : StackNode -> StackNode) (p q : path)
  (t : StackNode) :
  keeps_key f -> keeps_children f ->
  option_map child_keys (node_at q (modify_at f p t))
  = option_map child_keys (node_at q t).
Proof.
  intros F C. rewrite (node_at_modify_at f F).
  destruct (strip_prefix p q) as [r|] eqn:S1.
  - apply strip_prefix_Some in S1. subst q. rewrite node_at_app.
    destruct (node_at p t) as [n|]; [|reflexivity].
    destruct r as [|k r].
    + simpl. unfold child_keys. now rewrite C.
    + f_equal. apply node_at_children_only; [apply C|discriminate].
  - destruct (strip_prefix q p) as [r|] eqn:S2; [|reflexivity].
    destruct (node_at q t) as [n|]; [|reflexivity]. simpl. f_equal.
    destruct r as [|k r]; simpl.
    + unfold child_keys. now rewrite C.
    + unfold child_keys. simpl. apply update_child_keys.
      intros c. now apply modify_at_key.
Qed.

Lemma shape_modify_at (f : StackNode -> StackNode) (p : path) :
  keeps_key f -> keeps_children f ->
  forall t, shape (modify_at f p t) = shape t.
Proof.
  intros F C. induction p as [|k p IH]; intros t.
  - destruct t as [nm kd cs tot mx av calls st]. simpl.
    specialize (F (mkStackNode nm kd cs tot mx av calls st)).
    specialize (C (mkStackNode nm kd cs tot mx av calls st)).
    destruct (f (mkStackNode nm kd cs tot mx av calls st)). simpl in *.
    now rewrite F, C.
  - destruct t as [nm kd cs tot mx av calls st]. simpl. f_equal.
    induction cs as [|c cs IHcs]; [reflexivity|]. simpl.
    destruct (key_eqb (node_key c) k); simpl; [now rewrite IH|].
    now rewrite IHcs.
Qed.

Lemma exists_modify_at (f : StackNode -> StackNode) (p q : path)
  (t : StackNode) :
  keeps_key f -> keeps_children f ->
  node_at q (modify_at f p t) = None <-> node_at q t = None.
Proof.
  intros F C. pose proof (child_keys_modify_at f p q t F C) as H.
  destruct (node_at q (modify_at f p t)), (node_at q t); simpl in H;
    split; congruence.
Qed.

Lemma local_total_bare (p : path) (t t' : StackNode) :
  option_map bare (node_at p t) = option_map bare (node_at p t') ->
  local_total p t = local_total p t'.
Proof.
  unfold local_total.
  destruct (node_at p t) as [n|], (node_at p t') as [n'|]; cbn [option_map];
    try discriminate; [|reflexivity].
  intros H. apply bare_total. congruence.
Qed.

Lemma local_total_modify_at (f : StackNode -> StackNode) (p q : path)
  (t : StackNode) :
  keeps_key f -> keeps_children f -> q <> p ->
  local_total q (modify_at f p t) = local_total q t.
Proof.
  intros F C N. apply local_total_bare. now apply node_at_modify_at_other.
Qed.

(** [get_child] creates at most the asked child, with a zero total. *)
Lemma get_child_at_new (root : StackNode) (p q : path) (nm : string)
  (k : StackKind) (n' : StackNode) :
  node_at q (fst (get_child_at root p nm k)) = Some n' ->
  node_at q root = None ->
  total_runtime n' = 0%Q.
Proof.
  unfold get_child_at. cbn [fst].
  rewrite (node_at_modify_at _ (keeps_fields_key _ (get_child_keeps_fields nm k))).
  destruct (strip_prefix p q) as [r|] eqn:S1.
  - apply strip_prefix_Some in S1. subst q. rewrite node_at_app.
    destruct (node_at p root) as [n|]; [|discriminate].
    destruct r as [|l r]; [discriminate|]. simpl.
    destruct (key_eq_dec l (k, nm)) as [->|N].
    + rewrite get_child_find_same.
      destruct (find_child (k, nm) (children n)) as [c|]; [congruence|].
      destruct r as [|l' r]; simpl; [|discriminate].
      intros [= <-] _. reflexivity.
    + rewrite (get_child_find_other n nm k l N). congruence.
  - destruct (strip_prefix q p) as [r|]; [|congruence].
    destruct (node_at q root); simpl; congruence.
Qed.

Lemma get_child_at_local_total (root : StackNode) (p q : path) (nm : string)
  (k : StackKind) :
  local_total q (fst (get_child_at root p nm k)) = local_total q root.
Proof.
  unfold local_total at 2. destruct (node_at q root) as [n|] eqn:E.
  - destruct (get_child_at_keeps root p q nm k n E) as [n' [H B]].
    unfold local_total. rewrite H. now apply bare_total.
  - unfold local_total.
    destruct (node_at q (fst (get_child_at root p nm k))) as [n'|] eqn:E';
      [|reflexivity].
    now apply (get_child_at_new root p q nm k n').
Qed.

Lemma adopt_children_cons (t : StackNode) (p : path) (k : key)
  (keys : list key) :
  adopt_children t p (k :: keys)
  = adopt_children (fst (get_child_at t p (snd k) (fst k))) p keys.
Proof. reflexivity. Qed.

Lemma adopt_children_keeps (keys : list key) :
  forall (t : StackNode) (p q : path) (n : StackNode),
    node_at q t = Some n ->
    exists n', node_at q (adopt_children t p keys) = Some n' /\
               bare n' = bare n.
Proof.
  induction keys as [|k keys IH]; intros t p q n H; [simpl; eauto|].
  rewrite adopt_children_cons.
  destruct (get_child_at_keeps t p q (snd k) (fst k) n H) as [n1 [H1 B1]].
  destruct (IH _ p q n1 H1) as [n2 [H2 B2]].
  exists n2. split; [exact H2|congruence].
Qed.

Lemma adopt_children_local_total (keys : list key) :
  forall (t : StackNode) (p q : path),
    local_total q (adopt_children t p keys) = local_total q t.
Proof.
  induction keys as [|k keys IH]; intros t p q; [reflexivity|].
  rewrite adopt_children_cons, IH. apply get_child_at_local_total.
Qed.

Lemma get_child_at_child (t : StackNode) (p : path) (k : key) :
  node_at p t <> None ->
  node_at (p ++ [k]) (fst (get_child_at t p (snd k) (fst k))) <> None.
Proof.
  destruct (node_at p t) as [n|] eqn:E; [intros _|congruence].
  destruct k as [kd nm]. cbn [fst snd].
  pose proof (get_child_at_result t p nm kd n E) as R.
  change (snd (get_child_at t p nm kd)) with (p ++ [(kd, nm)]) in R.
  intros X. pose proof (eq_trans (eq_sym X) R) as Y.
  destruct (find_child (kd, nm) (children n)); discriminate.
Qed.

Lemma adopt_children_exist (keys : list key) :
  forall (t : StackNode) (p : path) (k : key),
    node_at p t <> None ->
    In k keys ->
    node_at (p ++ [k]) (adopt_children t p keys) <> None.
Proof.
  induction keys as [|l keys IH]; intros t p k H Hin; [destruct Hin|].
  rewrite adopt_children_cons.
  destruct Hin as [->|Hin].
  - pose proof (get_child_at_child t p k H) as X.
    destruct (node_at (p ++ [k]) (fst (get_child_at t p (snd k) (fst k))))
      as [c|] eqn:Hc; [|congruence].
    destruct (adopt_children_keeps keys _ p _ c Hc) as [c' [Hc' _]].
    rewrite Hc'. discriminate.
  - apply IH; [|exact Hin].
    destruct (node_at p t) as [n|] eqn:E; [|congruence].
    destruct (get_child_at_keeps t p p (snd l) (fst l) n E) as [n1 [H1 _]].
    rewrite H1. discriminate.
Qed.

(** *** The queue *)

Lemma app_snoc_cases (a r q : path) (k : key) :
  a ++ r = q ++ [k] ->
  (r = [] /\ a = q ++ [k]) \/ (exists r', r = r' ++ [k] /\ q = a ++ r').
Proof.
  intros H. destruct r as [|x r] using rev_ind.
  - left. rewrite app_nil_r in H. auto.
  - right. rewrite app_assoc in H. apply app_inj_tail in H.
    destruct H as [H ->]. eauto.
Qed.

Lemma pending_head (q : path) (queue : list path) : pending (q :: queue) q.
Proof. exists q, []. rewrite app_nil_r. simpl; auto. Qed.

Lemma pending_cons (q q' : path) (queue : list path) (p : path) :
  pending queue p -> pending (q :: queue) p.
Proof. intros [a [r [H E]]]. exists a, r. simpl; auto. Qed.

Lemma in_push_children (queue : list path) (q : path) (keys : list key)
  (a : path) :
  In a (push_children queue q keys) <->
  In a queue \/ exists k, In k keys /\ a = q ++ [k].
Proof.
  unfold push_children. rewrite in_app_iff, in_map_iff.
  split; intros [H|[k H]]; auto; right; exists k; intuition.
Qed.

(** A frame pending after the turn was pending before it, and is not the
    visited frame. *)
Lemma pending_after (q : path) (queue : list path) (keys : list key)
  (p : path) :
  antichain (q :: queue) ->
  pending (push_children queue q keys) p ->
  pending (q :: queue) p /\ p <> q.
Proof.
  intros [A _] [a [r [Ha E]]]. apply in_push_children in Ha.
  destruct Ha as [Ha|[k [Hk ->]]].
  - split; [exists a, r; simpl; auto|].
    intros ->. destruct (A a r Ha) as [_ N]. contradiction.
  - split.
    + exists q, ([k] ++ r). rewrite app_assoc. simpl; auto.
    + intros ->. rewrite <- app_assoc in E.
      rewrite <- (app_nil_r q) in E at 1. apply app_inv_head in E.
      discriminate.
Qed.

(** A frame of rank 0 that was pending and is no more is the visited one. *)
Lemma pending_before (this0 : StackNode) (q : path) (queue : list path)
  (p : path) (n0 : StackNode) :
  node_at q this0 = Some n0 ->
  node_at p this0 <> None ->
  pending (q :: queue) p ->
  ~ pending (push_children queue q (child_keys n0)) p ->
  p = q.
Proof.
  intros H0 Hp [a [r [Ha E]]] N. destruct Ha as [<-|Ha].
  - destruct r as [|k r]; [now rewrite app_nil_r in E|]. exfalso. apply N.
    exists (q ++ [k]), r. split; [|now rewrite <- app_assoc].
    apply in_push_children. right. exists k. split; [|reflexivity].
    subst p. rewrite node_at_app, H0 in Hp. simpl in Hp.
    destruct (find_child k (children n0)) as [c|] eqn:C; [|congruence].
    apply find_child_Some in C. destruct C as [Hin <-].
    unfold child_keys. now apply in_map.
  - exfalso. apply N. exists a, r. split; [|exact E].
    apply in_push_children. auto.
Qed.

Lemma antichain_app (a b : list path) :
  antichain a -> antichain b ->
  (forall x y r, In x a -> In y b -> y <> x ++ r /\ x <> y ++ r) ->
  antichain (a ++ b).
Proof.
  intros A B X. induction a as [|x a IH]; [exact B|].
  destruct A as [A1 A2]. simpl. split.
  - intros y r Hy. apply in_app_iff in Hy. destruct Hy as [Hy|Hy].
    + now apply A1.
    + apply X; simpl; auto.
  - apply IH; [exact A2|]. intros x' y r Hx Hy. apply X; simpl; auto.
Qed.

Lemma antichain_children (q : path) (keys : list key) :
  NoDup keys -> antichain (map (fun k => q ++ [k]) keys).
Proof.
  induction 1 as [|k keys N _ IH]; [exact I|]. simpl. split; [|exact IH].
  intros a r Ha. apply in_map_iff in Ha. destruct Ha as [k' [<- Hk']].
  assert (D : k' <> k) by (intros ->; contradiction).
  split; intros E; rewrite <- app_assoc in E; apply app_inv_head in E;
    injection E as E _; congruence.
Qed.

Lemma antichain_push (q : path) (queue : list path) (keys : list key) :
  antichain (q :: queue) -> NoDup keys ->
  antichain (push_children queue q keys).
Proof.
  intros [A1 A2] N. unfold push_children.
  apply antichain_app; [exact A2|now apply antichain_children|].
  intros x y r Hx Hy. apply in_map_iff in Hy. destruct Hy as [k [<- Hk]].
  destruct (A1 x) with (r := @nil key) as [_ _]; [exact Hx|].
  split; intros E.
  - symmetry in E. apply app_snoc_cases in E.
    destruct E as [[-> ->]|[r' [-> ->]]].
    + destruct (A1 (q ++ [k]) [k] Hx) as [B _]. now apply B.
    + destruct (A1 x r' Hx) as [_ B]. now apply B.
  - destruct (A1 x ([k] ++ r) Hx) as [B _]. apply B.
    rewrite E. now rewrite <- app_assoc.
Qed.

Lemma unvisited_app (this0 : StackNode) (a b : list path) :
  unvisited this0 (a ++ b) = (unvisited this0 a + unvisited this0 b)%nat.
Proof. unfold unvisited. now rewrite map_app, list_sum_app. Qed.

Lemma unvisited_children (this0 : StackNode) (q : path) (n0 : StackNode) :
  wf this0 = true ->
  node_at q this0 = Some n0 ->
  unvisited this0 (map (fun k => q ++ [k]) (child_keys n0))
  = list_sum (map tree_size (children n0)).
Proof.
  intros W H0. pose proof (wf_node_at q this0 n0 W H0) as W0.
  destruct (wf_children n0 W0) as [N _]. unfold unvisited, child_keys.
  rewrite !map_map. f_equal. apply map_ext_in. intros c Hc.
  rewrite node_at_app, H0. simpl.
  now rewrite (find_child_own c (children n0) N Hc).
Qed.

(** Each turn visits one node of rank 0. *)
Lemma unvisited_push (this0 : StackNode) (q : path) (queue : list path)
  (n0 : StackNode) :
  wf this0 = true ->
  node_at q this0 = Some n0 ->
  unvisited this0 (q :: queue)
  = S (unvisited this0 (push_children queue q (child_keys n0))).
Proof.
  intros W H0. unfold push_children.
  rewrite unvisited_app, (unvisited_children this0 q n0 W H0).
  unfold unvisited at 1. simpl. rewrite H0, tree_size_unfold.
  fold (unvisited this0 queue). lia.
Qed.

(** *** One turn of the loop *)

Lemma merged_bare (this0 : StackNode) (those : list StackNode) (p : path)
  (n n' : StackNode) :
  bare n' = bare n -> merged this0 those p n -> merged this0 those p n'.
Proof.
  unfold bare, set_children, merged. intros [= _ _ -> -> -> _ _]. auto.
Qed.

Lemma Forall2_map_left {A B : Type} (R R' : A -> B -> Prop) (F : A -> A)
  (l : list A) (l' : list B) :
  Forall2 R l l' ->
  (forall a b, In a l -> R a b -> R' (F a) b) ->
  Forall2 R' (map F l) l'.
Proof.
  induction 1 as [|a b l l' H _ IH]; intros X; simpl; constructor.
  - apply X; simpl; auto.
  - apply IH. intros a' b' Ha. apply X. simpl; auto.
Qed.

Lemma Forall2_map_eq {A B C : Type} (f : A -> C) (g : B -> C) (l : list A)
  (l' : list B) :
  Forall2 (fun a b => f a = g b) l l' -> map f l = map g l'.
Proof. induction 1; simpl; congruence. Qed.

Section Turn.

Variable this0 : StackNode.
Variable those : list StackNode.
Hypothesis this0_wf : wf this0 = true.

Variables (q : path) (queue : list path) (s0 : StackNode) (ss : list StackNode).
Hypothesis I : reduce_inv this0 those (q :: queue) s0 ss.

Lemma turn_node_this0 : exists n, node_at q this0 = Some n.
Proof.
  pose proof (inv_live0 _ _ _ _ _ I q (or_introl eq_refl)) as H.
  destruct (node_at q this0); [eauto|congruence].
Qed.

Lemma turn_node_s0 :
  exists n nT,
    node_at q s0 = Some n /\ node_at q this0 = Some nT /\
    child_keys n = child_keys nT.
Proof.
  destruct turn_node_this0 as [nT HT].
  pose proof (inv_keys _ _ _ _ _ I q) as K. rewrite HT in K.
  destruct (node_at q s0) as [n|]; [|discriminate].
  exists n, nT. repeat split; auto. simpl in K. congruence.
Qed.

Lemma turn_values :
  visit_values q s0 ss =
  (merged_total this0 those q, merged_max this0 those q, comm_size_of those).
Proof.
  unfold visit_values, merged_total, merged_max, comm_size_of.
  rewrite (inv_auth _ _ _ _ _ I q (pending_head q queue)).
  assert (E : map (local_total q) ss = map (local_total q) those).
  { apply Forall2_map_eq.
    eapply Forall2_impl; [|exact (inv_ranks _ _ _ _ _ I)].
    intros s t H. apply H, pending_head. }
  rewrite E, (Forall2_length (inv_ranks _ _ _ _ _ I)). reflexivity.
Qed.

Lemma turn_keys :
  exists nT, node_at q this0 = Some nT /\ visit_keys q s0 = child_keys nT.
Proof.
  destruct turn_node_s0 as [n [nT [H [HT K]]]]. exists nT. split; [exact HT|].
  unfold visit_keys. now rewrite H.
Qed.

Lemma turn_was_done (p : path) :
  node_at p this0 <> None ->
  ~ pending (push_children queue q (visit_keys q s0)) p ->
  p <> q ->
  ~ pending (q :: queue) p.
Proof.
  intros Hp N D P. destruct turn_keys as [nT [HT K]]. rewrite K in N.
  apply D. exact (pending_before this0 q queue p nT HT Hp P N).
Qed.

Lemma turn_merged_write (n : StackNode) :
  let v := visit_values q s0 ss in
  merged this0 those q (reduced (fst (fst v)) (snd (fst v)) (snd v) n).
Proof. rewrite turn_values. repeat split. Qed.

Lemma visit_write_other (p : path) (s n : StackNode) :
  p <> q -> node_at p s = Some n ->
  exists n', node_at p (visit_write q s0 ss s) = Some n' /\ bare n' = bare n.
Proof.
  intros D H. unfold visit_write.
  pose proof (node_at_modify_at_other
                (reduced (fst (fst (visit_values q s0 ss)))
                   (snd (fst (visit_values q s0 ss)))
                   (snd (visit_values q s0 ss))) q p s
                (reduced_keeps_key _ _ _) (reduced_keeps_children _ _ _) D)
    as X.
  rewrite H in X. cbn [option_map] in X.
  destruct (node_at p (modify_at _ q s)) as [n'|]; [|discriminate].
  exists n'. split; [reflexivity|]. cbn [option_map] in X. congruence.
Qed.

Lemma visit_write_same (s n : StackNode) :
  node_at q s = Some n ->
  exists n', node_at q (visit_write q s0 ss s) = Some n' /\
             merged this0 those q n'.
Proof.
  intros H. unfold visit_write.
  rewrite node_at_modify_at_same by apply reduced_keeps_key. rewrite H.
  eexists. split; [reflexivity|]. apply turn_merged_write.
Qed.

Lemma visit_write_exists (p : path) (s : StackNode) :
  node_at p s <> None -> node_at p (visit_write q s0 ss s) <> None.
Proof.
  intros H E. apply H. unfold visit_write in E.
  apply exists_modify_at in E; auto using reduced_keeps_key,
    reduced_keeps_children.
Qed.

Lemma visit_write_local_total (p : path) (s : StackNode) :
  p <> q -> local_total p (visit_write q s0 ss s) = local_total p s.
Proof.
  intros D. unfold visit_write.
  apply local_total_modify_at; auto using reduced_keeps_key,
    reduced_keeps_children.
Qed.

(** The invariant after the turn. *)
Lemma reduce_inv_turn :
  reduce_inv this0 those (push_children queue q (visit_keys q s0))
    (visit_write q s0 ss s0) (map (visit_other q s0 ss) ss).
Proof.
  destruct turn_node_s0 as [n0 [nT [H0 [HT K0]]]].
  destruct turn_keys as [nT' [HT' K]]. rewrite HT in HT'.
  injection HT' as <-.
  pose proof (inv_queue _ _ _ _ _ I) as A.
  constructor.
  - unfold visit_write.
    rewrite shape_modify_at by auto using reduced_keeps_key,
      reduced_keeps_children. exact (inv_shape _ _ _ _ _ I).
  - intros p. unfold visit_write.
    rewrite child_keys_modify_at by auto using reduced_keeps_key,
      reduced_keeps_children. exact (inv_keys _ _ _ _ _ I p).
  - intros p P. destruct (pending_after q queue _ p A P) as [P' D].
    rewrite (visit_write_local_total p s0 D).
    exact (inv_auth _ _ _ _ _ I p P').
  - apply (Forall2_map_left _ _ _ _ _ (inv_ranks _ _ _ _ _ I)).
    intros s t _ R p P. destruct (pending_after q queue _ p A P) as [P' D].
    unfold visit_other.
    rewrite adopt_children_local_total, (visit_write_local_total p s D).
    now apply R.
  - apply (Forall2_map_left _ _ _ _ _ (inv_outside _ _ _ _ _ I)).
    intros s t _ R p Hp. unfold visit_other.
    rewrite adopt_children_local_total, visit_write_local_total;
      [now apply R|].
    intros ->. congruence.
  - rewrite K. apply antichain_push; [exact A|].
    exact (proj1 (wf_children nT (wf_node_at q this0 nT this0_wf HT))).
  - intros a Ha. apply in_push_children in Ha. destruct Ha as [Ha|[k [Hk ->]]].
    + apply (inv_live0 _ _ _ _ _ I). simpl; auto.
    + rewrite K in Hk. rewrite node_at_app, HT. simpl.
      destruct (find_child_key_In k (children nT) Hk) as [c ->]. discriminate.
  - intros a s' Ha Hs'. apply in_map_iff in Hs'. destruct Hs' as [s [<- Hs]].
    assert (L : node_at q s <> None) by
      (apply (inv_live _ _ _ _ _ I); simpl; auto).
    unfold visit_other.
    apply in_push_children in Ha. destruct Ha as [Ha|[k [Hk ->]]].
    + assert (La : node_at a s <> None) by
        (apply (inv_live _ _ _ _ _ I); simpl; auto).
      apply (visit_write_exists a s) in La.
      destruct (node_at a (visit_write q s0 ss s)) as [n|] eqn:E;
        [|congruence].
      destruct (adopt_children_keeps (visit_keys q s0) _ q a n E)
        as [n' [E' _]].
      rewrite E'. discriminate.
    + apply adopt_children_exist; [|exact Hk].
      now apply visit_write_exists.
  - intros p Hp N. destruct (list_eq_dec key_eq_dec p q) as [->|D].
    + apply (visit_write_same s0 n0 H0).
    + pose proof (turn_was_done p Hp N D) as N'.
      destruct (inv_done0 _ _ _ _ _ I p Hp N') as [n [Hn M]].
      destruct (visit_write_other p s0 n D Hn) as [n' [Hn' B]].
      exists n'. split; [exact Hn'|]. exact (merged_bare _ _ _ _ _ B M).
  - intros p s' Hp N Hs'. apply in_map_iff in Hs'.
    destruct Hs' as [s [<- Hs]]. unfold visit_other.
    assert (X : exists n, node_at p (visit_write q s0 ss s) = Some n /\
                          merged this0 those p n).
    { destruct (list_eq_dec key_eq_dec p q) as [->|D].
      - assert (L : node_at q s <> None) by
          (apply (inv_live _ _ _ _ _ I); simpl; auto).
        destruct (node_at q s) as [n|] eqn:E; [|congruence].
        apply (visit_write_same s n E).
      - pose proof (turn_was_done p Hp N D) as N'.
        destruct (inv_done _ _ _ _ _ I p s Hp N' Hs) as [n [Hn M]].
        destruct (visit_write_other p s n D Hn) as [n' [Hn' B]].
        exists n'. split; [exact Hn'|]. exact (merged_bare _ _ _ _ _ B M). }
    destruct X as [n [Hn M]].
    destruct (adopt_children_keeps (visit_keys q s0) _ q p n Hn)
      as [n' [Hn' B]].
    exists n'. split; [exact Hn'|]. exact (merged_bare _ _ _ _ _ B M).
Qed.

End Turn.

(** *** The loop on all ranks *)

Lemma pop_ranks_shared (q : path) (queue : list path) (ss : list StackNode) :
  (forall s, In s ss -> node_at q s <> None) ->
  pop_ranks (ranks_at (q :: queue) ss)
  = Some (map (fun s => (q, deref q s, queue)) ss).
Proof.
  induction ss as [|s ss IH]; intros H; [reflexivity|].
  simpl. unfold pop_rank at 1. simpl.
  assert (L : node_at q s <> None) by (apply H; simpl; auto).
  unfold deref at 1. destruct (node_at q s) as [n|]; [|congruence].
  fold (ranks_at (q :: queue) ss). rewrite IH; [reflexivity|].
  intros s' Hs'. apply H. simpl; auto.
Qed.

Lemma combine_map_same {A B C : Type} (f : A -> B) (g : A -> C) (l : list A) :
  combine (map f l) (map g l) = map (fun a => (f a, g a)) l.
Proof. induction l as [|a l IH]; simpl; [reflexivity|]. now rewrite IH. Qed.

Lemma reduce_step_shared (q : path) (queue : list path) (s0 : StackNode)
  (ss : list StackNode) :
  node_at q s0 <> None ->
  (forall s, In s ss -> node_at q s <> None) ->
  reduce_step (mkRank s0 (q :: queue)) (ranks_at (q :: queue) ss)
  = Some (mkRank (visit_write q s0 ss s0)
            (push_children queue q (visit_keys q s0)),
          ranks_at (push_children queue q (visit_keys q s0))
            (map (visit_other q s0 ss) ss)).
Proof.
  intros H0 H. unfold reduce_step.
  rewrite (pop_ranks_shared q queue ss H). unfold pop_rank. cbn [rank_queue rank_tree].
  destruct (node_at q s0) as [n0|] eqn:E0; [|congruence].
  assert (L : map (fun x : path * StackNode * list path =>
                     total_runtime (snd (fst x)))
                (map (fun s => (q, deref q s, queue)) ss)
              = map (local_total q) ss).
  { rewrite map_map. apply map_ext_in. intros s Hs. cbn [fst snd].
    unfold deref, local_total. specialize (H s Hs).
    destruct (node_at q s); [reflexivity|congruence]. }
  rewrite L. unfold ranks_at. rewrite length_map.
  rewrite (combine_map_same (fun s => mkRank s (q :: queue))
             (fun s => (q, deref q s, queue)) ss).
  rewrite map_map. cbn [fst snd rank_tree].
  unfold visit_write, visit_other, visit_write, visit_values, visit_keys,
    local_total, ranks_at, child_keys.
  rewrite E0, map_map. cbn [fst snd]. reflexivity.
Qed.

Lemma reduce_inv_start (this0 : StackNode) (those : list StackNode) :
  reduce_inv this0 those [[]] this0 those.
Proof.
  constructor; try reflexivity.
  - induction those as [|t ts IH]; constructor; auto.
  - induction those as [|t ts IH]; constructor; auto.
  - simpl. split; [intros q' r []|exact I].
  - intros q [<-|[]]. discriminate.
  - intros q s [<-|[]] _. discriminate.
  - intros p _ N. exfalso. apply N. exists [], p. simpl; auto.
  - intros p s _ N. exfalso. apply N. exists [], p. simpl; auto.
Qed.

Lemma reduce_loop_done (s0 : StackNode) (ss : list StackNode) (fuel : nat) :
  reduce_loop fuel (mkRank s0 []) (ranks_at [] ss) = Some (s0, ss).
Proof.
  assert (E : forallb queue_empty (ranks_at [] ss) = true) by
    (induction ss; simpl; auto).
  assert (M : map rank_tree (ranks_at [] ss) = ss) by
    (unfold ranks_at; rewrite map_map; apply map_id).
  destruct fuel; simpl; rewrite E, M; reflexivity.
Qed.

(** With fuel for the nodes of rank 0 still to be visited, the loop ends,
    and nothing is pending at its end. *)
Lemma reduce_loop_spec (this0 : StackNode) (those : list StackNode) :
  wf this0 = true ->
  forall (fuel : nat) (queue : list path) (s0 : StackNode)
         (ss : list StackNode),
    reduce_inv this0 those queue s0 ss ->
    (unvisited this0 queue <= fuel)%nat ->
    exists s0' ss',
      reduce_loop fuel (mkRank s0 queue) (ranks_at queue ss) = Some (s0', ss')
      /\ reduce_inv this0 those [] s0' ss'.
Proof.
  intros W. induction fuel as [|fuel IH]; intros queue s0 ss I B.
  - destruct queue as [|q queue].
    + exists s0, ss. split; [apply reduce_loop_done|exact I].
    + destruct (turn_node_this0 this0 those q queue s0 ss I) as [nT HT].
      unfold unvisited in B. simpl in B. rewrite HT in B.
      pose proof (tree_size_pos nT). lia.
  - destruct queue as [|q queue].
    + exists s0, ss. split; [apply reduce_loop_done|exact I].
    + destruct (turn_keys this0 those q queue s0 ss I) as [nT [HT K]].
      destruct (turn_node_s0 this0 those q queue s0 ss I)
        as [n0 [_ [H0 _]]].
      cbn [reduce_loop queue_empty rank_queue andb].
      rewrite reduce_step_shared.
      * apply IH.
        -- now apply reduce_inv_turn.
        -- rewrite K. rewrite (unvisited_push this0 q queue nT W HT) in B.
           lia.
      * congruence.
      * intros s Hs. apply (inv_live _ _ _ _ _ I); simpl; auto.
Qed.

Lemma reduce_over_mpi_spec (this0 : StackNode) (those : list StackNode) :
  wf this0 = true ->
  exists s0 ss,
    reduce_over_mpi this0 those = Some (s0, ss) /\
    reduce_inv this0 those [] s0 ss.
Proof.
  intros W. unfold reduce_over_mpi.
  apply (reduce_loop_spec this0 those W (tree_size this0) [[]] this0 those).
  - apply reduce_inv_start.
  - unfold unvisited. simpl. lia.
Qed.

Lemma not_pending_nil (p : path) : ~ pending [] p.
Proof. intros [q [r [[] _]]]. Qed.

Lemma shape_unfold (n : StackNode) :
  shape n = KT (node_key n) (map shape (children n)).
Proof. now destruct n. Qed.

Lemma shape_root_key (n : StackNode) :
  node_key n = match shape n with KT k _ => k end.
Proof. now rewrite shape_unfold. Qed.

Lemma shape_child_keys (a b : StackNode) :
  shape a = shape b -> child_keys a = child_keys b.
Proof.
  rewrite (shape_unfold a), (shape_unfold b). intros E.
  assert (H : map shape (children a) = map shape (children b)) by congruence.
  unfold child_keys.
  rewrite (map_ext _ _ shape_root_key (children a)).
  rewrite (map_ext _ _ shape_root_key (children b)).
  rewrite <- !(map_map shape (fun s => match s with KT k _ => k end)).
  now rewrite H.
Qed.

(** At the end of the loop every frame of rank 0 holds the merged values. *)
Lemma reduce_inv_end (this0 : StackNode) (those : list StackNode)
  (s0 : StackNode) (ss : list StackNode) :
  reduce_inv this0 those [] s0 ss ->
  forall p n, node_at p s0 = Some n -> merged this0 those p n.
Proof.
  intros I p n H.
  assert (Hp : node_at p this0 <> None).
  { pose proof (inv_keys _ _ _ _ _ I p) as K. rewrite H in K.
    destruct (node_at p this0); discriminate. }
  destruct (inv_done0 _ _ _ _ _ I p Hp (not_pending_nil p)) as [n' [H' M]].
  congruence.
Qed.

(** C1.  With a well-formed tree on rank 0, [reduce_over_mpi] ends on all
    ranks.  The tree of rank 0, the one that is printed, keeps its shape: no
    frame is added to it, so a frame that only another rank has is not part
    of the merged tree.  Every frame of rank 0 then holds, on rank 0 and on
    every other rank, the sum over the ranks of the local totals, their
    maximum, and the sum divided by the number of ranks, a rank without the
    frame counting for zero.  A frame outside the shape of rank 0 is
    ignored: the rank that has it keeps it with its local total. *)
Theorem reduce_over_mpi_authority_shape :
  forall (this0 : StackNode) (those : list StackNode),
    wf this0 = true ->
    exists s0 ss,
      reduce_over_mpi this0 those = Some (s0, ss) /\
      shape s0 = shape this0 /\
      List.length ss = List.length those /\
      (forall p n, node_at p s0 = Some n -> merged this0 those p n) /\
      (forall s p,
         In s ss -> node_at p this0 <> None ->
         exists n, node_at p s = Some n /\ merged this0 those p n) /\
      Forall2 (fun s t => forall p, node_at p this0 = None ->
                                    local_total p s = local_total p t)
        ss those.
Proof.
  intros this0 those W.
  destruct (reduce_over_mpi_spec this0 those W) as [s0 [ss [E I]]].
  exists s0, ss. split; [exact E|]. split; [exact (inv_shape _ _ _ _ _ I)|].
  split; [exact (Forall2_length (inv_ranks _ _ _ _ _ I))|]. split.
  - exact (reduce_inv_end this0 those s0 ss I).
  - split; [|exact (inv_outside _ _ _ _ _ I)]. intros s p Hs Hp.
    exact (inv_done _ _ _ _ _ I p s Hp (not_pending_nil p) Hs).
Qed.

Local Open Scope Q_scope.

(** Rank 0 has the kernels [A] and [B], rank 1 the kernels [A] and [C]:
    the merged tree has the children [A] and [B] only, and [A] holds the
    total 1 + 3, the maximum 3 and the average 2; on rank 1 the kernel [C]
    keeps its local total 5. *)
Lemma reduce_over_mpi_authority_shape_witness :
  let A0 := mkStackNode "A" STACK_FOR [] 1 0 0 1%Z 0%Z in
  let B0 := mkStackNode "B" STACK_FOR [] 2 0 0 1%Z 0%Z in
  let A1 := mkStackNode "A" STACK_FOR [] 3 0 0 1%Z 0%Z in
  let C1 := mkStackNode "C" STACK_FOR [] 5 0 0 1%Z 0%Z in
  let rank0 := mkStackNode "" STACK_REGION [A0; B0] 4 0 0 1%Z 0%Z in
  let rank1 := mkStackNode "" STACK_REGION [A1; C1] 9 0 0 1%Z 0%Z in
  exists s0 ss,
    reduce_over_mpi rank0 [rank1] = Some (s0, ss) /\
    child_keys s0 = [(STACK_FOR, "A"%string); (STACK_FOR, "B"%string)] /\
    (forall a, node_at [(STACK_FOR, "A"%string)] s0 = Some a ->
               total_runtime a = 4 /\ max_runtime a = 3 /\
               avg_runtime a == 2) /\
    (forall b, node_at [(STACK_FOR, "B"%string)] s0 = Some b ->
               total_runtime b = 2 /\ max_runtime b = 2 /\
               avg_runtime b == 1) /\
    (forall s1, In s1 ss ->
                local_total [(STACK_FOR, "C"%string)] s1 = 5).
Proof.
  intros A0 B0 A1 C1 rank0 rank1.
  destruct (reduce_over_mpi_authority_shape rank0 [rank1] eq_refl)
    as [s0 [ss [E [S [_ [M [_ O]]]]]]].
  exists s0, ss. split; [exact E|]. split; [|split; [|split]].
  - rewrite (shape_child_keys _ _ S). reflexivity.
  - intros a Ha. destruct (M _ _ Ha) as [-> [-> ->]].
    repeat split; vm_compute; reflexivity.
  - intros b Hb. destruct (M _ _ Hb) as [-> [-> ->]].
    repeat split; vm_compute; reflexivity.
  - intros s1 Hs1. inversion O as [|s t ss' ts' R O']; subst.
    inversion O'; subst. destruct Hs1 as [<-|[]].
    now rewrite (R [(STACK_FOR, "C"%string)] eq_refl).
Defined.

(** *** A single process *)

Lemma sortedb_keys (cs cs' : list StackNode) :
  map node_key cs = map node_key cs' ->
  sortedb StackNode_lt cs = sortedb StackNode_lt cs'.
Proof.
  revert cs'. induction cs as [|c cs IH]; destruct cs' as [|c' cs'];
    try discriminate; [reflexivity|].
  intros H. assert (K : node_key c = node_key c') by (simpl in H; congruence).
  assert (T : map node_key cs = map node_key cs') by (simpl in H; congruence).
  specialize (IH cs' T). cbn [sortedb].
  destruct cs as [|d cs], cs' as [|d' cs']; try discriminate; [reflexivity|].
  assert (K' : node_key d = node_key d') by (simpl in T; congruence).
  unfold StackNode_lt at 1 3. rewrite K, K'. f_equal. exact IH.
Qed.

Lemma wf_unfold (n : StackNode) :
  wf n = sortedb StackNode_lt (children n) && forallb wf (children n).
Proof. now destruct n. Qed.

(** Well-formedness is a property of the shape. *)
Lemma wf_shape (a : StackNode) :
  forall b, shape a = shape b -> wf a = true -> wf b = true.
Proof.
  induction a as [a IH] using StackNode_tree_ind. intros b E W.
  rewrite wf_unfold in *. apply andb_true_iff in W. destruct W as [S F].
  pose proof (shape_child_keys a b E) as K.
  rewrite (shape_unfold a), (shape_unfold b) in E.
  assert (C : map shape (children a) = map shape (children b)) by congruence.
  apply andb_true_iff. split.
  - rewrite <- (sortedb_keys _ _ K). exact S.
  - clear K E S. revert C IH F. generalize (children b).
    induction (children a) as [|c cs IHcs]; intros [|c' cs'] C IH F;
      try discriminate; [reflexivity|].
    inversion IH as [|? ? IH1 IH2]; subst. simpl in F.
    apply andb_true_iff in F. destruct F as [F1 F2]. simpl.
    assert (C1 : shape c = shape c') by (simpl in C; congruence).
    assert (C2 : map shape cs = map shape cs') by (simpl in C; congruence).
    rewrite (IH1 c' C1 F1). simpl. now apply IHcs.
Qed.

Lemma nodes_unfold (n : StackNode) :
  nodes n = n :: flat_map nodes (children n).
Proof. now destruct n. Qed.

Local Open Scope Q_scope.

(** * More properties of the code *)

(** ** Order of the sets *)

Local Open Scope Z_scope.

Lemma sortedb_StronglySorted {A : Type} (lt : A -> A -> bool) (l : list A) :
  (forall a b c, lt a b = true -> lt b c = true -> lt a c = true) ->
  sortedb lt l = true <-> StronglySorted (lt_true lt) l.
Proof.
  intros T. split.
  - induction l as [|x l IH]; intros H; [constructor|].
    destruct (sortedb_cons lt x l T H) as [F S]. constructor; auto.
  - induction 1 as [|x l S IH F]; [reflexivity|].
    destruct l as [|y l]; [reflexivity|].
    change (sortedb lt (x :: y :: l)) with (lt x y && sortedb lt (y :: l)).
    inversion F as [|? ? Hy _]; subst. unfold lt_true in Hy.
    now rewrite Hy, IH.
Qed.

Lemma set_erase_In {A : Type} (lt : A -> A -> bool) (x y : A) (s : list A) :
  In y (set_erase lt x s) -> In y s.
Proof.
  induction s as [|z s IH]; simpl; [auto|].
  destruct (equiv lt x z); simpl; intuition.
Qed.

Lemma set_erase_sorted {A : Type} (lt : A -> A -> bool) (x : A) (s : list A) :
  StronglySorted (lt_true lt) s -> StronglySorted (lt_true lt) (set_erase lt x s).
Proof.
  induction 1 as [|z s S IH F]; simpl; [constructor|].
  destruct (equiv lt x z); [exact S|]. constructor; [exact IH|].
  rewrite Forall_forall in *. intros y Hy. apply F.
  now apply set_erase_In in Hy.
Qed.

Lemma forallb_update_child (P : StackNode -> bool) (k : key)
  (g : StackNode -> StackNode) (cs : list StackNode) :
  (forall c, P c = true -> P (g c) = true) ->
  forallb P cs = true -> forallb P (update_child k g cs) = true.
Proof.
  intros G. induction cs as [|c cs IH]; simpl; [auto|].
  rewrite andb_true_iff. intros [H1 H2].
  destruct (key_eqb (node_key c) k); simpl; rewrite ?H1, ?H2, ?G, ?IH; auto.
Qed.

Lemma wf_same_children (n n' : StackNode) :
  children n' = children n -> wf n' = wf n.
Proof. intros H. now rewrite !wf_unfold, H. Qed.

Lemma wf_new_StackNode (nm : string) (k : StackKind) :
  wf (new_StackNode nm k) = true.
Proof. reflexivity. Qed.

(** [get_child] keeps the children set in order. *)
Lemma wf_get_child (n : StackNode) (nm : string) (k : StackKind) :
  wf n = true -> wf (get_child n nm k) = true.
Proof.
  intros W. rewrite wf_unfold in W. apply andb_true_iff in W.
  destruct W as [S F]. rewrite wf_unfold, get_child_children.
  destruct (find_child (k, nm) (children n)) eqn:E.
  - now rewrite S, F.
  - apply andb_true_iff. split.
    + apply (sortedb_StronglySorted _ _ StackNode_lt_trans).
      apply (set_place_sorted _ _ StackNode_lt_trans).
      * now apply (sortedb_StronglySorted _ _ StackNode_lt_trans).
      * exact E.
    + rewrite forallb_forall in *. intros c Hc.
      apply set_place_In in Hc. destruct Hc as [->|Hc]; [reflexivity|auto].
Qed.

(** A write through a pointer keeps the tree in order when the written node
    stays in order and keeps its key. *)
Lemma wf_modify_at (f : StackNode -> StackNode) (p : path) :
  (forall n, wf n = true -> wf (f n) = true) ->
  keeps_key f ->
  forall t, wf t = true -> wf (modify_at f p t) = true.
Proof.
  intros F K. induction p as [|k p IH]; intros t W; [now apply F|].
  cbn [modify_at]. rewrite wf_unfold in *. cbn [set_children children].
  apply andb_true_iff in W. destruct W as [S A]. apply andb_true_iff. split.
  - rewrite <- S. apply sortedb_keys, update_child_keys.
    intros c. now apply modify_at_key.
  - apply forallb_update_child; [|exact A]. intros c. apply IH.
Qed.

Lemma begin_keeps_key (t : Now) : keeps_key (begin t).
Proof. intros n. reflexivity. Qed.

Lemma begin_keeps_children (t : Now) : keeps_children (begin t).
Proof. intros n. reflexivity. Qed.

Lemma end_keeps_key (t : Now) : keeps_key (end_ t).
Proof. intros n. reflexivity. Qed.

Lemma end_keeps_children (t : Now) : keeps_children (end_ t).
Proof. intros n. reflexivity. Qed.

Lemma wf_keeps_children (f : StackNode -> StackNode) :
  keeps_children f -> forall n, wf n = true -> wf (f n) = true.
Proof. intros C n W. now rewrite (wf_same_children n (f n) (C n)). Qed.

Lemma wf_get_child_at (root : StackNode) (p : path) (nm : string)
  (k : StackKind) :
  wf root = true -> wf (fst (get_child_at root p nm k)) = true.
Proof.
  intros W. unfold get_child_at. cbn [fst]. apply wf_modify_at; auto.
  - intros n. apply wf_get_child.
  - apply keeps_fields_key, get_child_keeps_fields.
Qed.

(** ** Pointers stay good *)

Lemma node_at_prefix (p r : path) (t : StackNode) :
  node_at (p ++ r) t <> None -> node_at p t <> None.
Proof.
  rewrite node_at_app. destruct (node_at p t); congruence.
Qed.

Lemma parent_ptr_snoc (p : path) (k : key) : parent_ptr (p ++ [k]) = Some p.
Proof.
  unfold parent_ptr. rewrite removelast_last.
  destruct p; reflexivity.
Qed.

Lemma ptr_valid_parent (root : StackNode) (p : path) :
  node_at p root <> None -> ptr_valid root (parent_ptr p).
Proof.
  intros H. destruct p as [|k p] using rev_ind; [exact I|].
  rewrite parent_ptr_snoc. simpl. now apply node_at_prefix in H.
Qed.

Lemma grows_ptr_valid (root root' : StackNode) (p : node_ptr) :
  grows root root' -> ptr_valid root p -> ptr_valid root' p.
Proof. intros G. destruct p; simpl; auto. Qed.

Lemma grows_get_child_at (root : StackNode) (p : path) (nm : string)
  (k : StackKind) :
  grows root (fst (get_child_at root p nm k)).
Proof.
  intros q H. destruct (node_at q root) as [n|] eqn:E; [|congruence].
  destruct (get_child_at_keeps root p q nm k n E) as [n' [H' _]].
  congruence.
Qed.

Lemma grows_modify_at (f : StackNode -> StackNode) (p : path)
  (root : StackNode) :
  keeps_key f -> keeps_children f -> grows root (modify_at f p root).
Proof.
  intros K C q H E. apply H. now apply (exists_modify_at f p q root K C).
Qed.

Lemma grows_trans (a b c : StackNode) : grows a b -> grows b c -> grows a c.
Proof. intros H1 H2 q H. auto. Qed.

(** ** What a session keeps *)

Lemma begin_frame_Some (st : State) (t : Now) (nm : string) (k : StackKind)
  (p : path) :
  stack_frame st = Some p ->
  begin_frame st t nm k =
  Ok (mkState
        (modify_at (begin t) (p ++ [(k, nm)])
           (fst (get_child_at (stack_root st) p nm k)))
        (Some (p ++ [(k, nm)])) (current_allocations st) (hwm_allocations st)).
Proof. unfold begin_frame. now intros ->. Qed.

Lemma begin_frame_None (st : State) (t : Now) (nm : string) (k : StackKind) :
  stack_frame st = None -> begin_frame st t nm k = Fault.
Proof. unfold begin_frame. now intros ->. Qed.

Lemma end_frame_None (st : State) (t : Now) :
  stack_frame st = None -> end_frame st t = Fault.
Proof. unfold end_frame. now intros ->. Qed.

Lemma end_kernel_Ok (st st' : State) (t : Now) (kernid : node_ptr) :
  end_kernel st t kernid = Ok st' -> end_frame st t = Ok st'.
Proof.
  unfold end_kernel. destruct (ptr_eqb kernid (stack_frame st)); simpl; auto.
  destruct (stack_frame st); discriminate.
Qed.

(** A frame event that returns is a [begin_frame] or an [end_frame]. *)
Lemma frame_step_cases (st st' : State) (ev : frame_event) :
  frame_step st ev = Ok st' ->
  (frame_delta (Se_frame ev) = 1 /\
   exists t nm k, begin_frame st t nm k = Ok st') \/
  (frame_delta (Se_frame ev) = -1 /\ exists t, end_frame st t = Ok st').
Proof.
  destruct ev as [t nm k|t id|t nm|t|t dst src|t]; simpl; intros H.
  - left. split; [reflexivity|]. exists t, nm, k. unfold begin_kernel in H.
    destruct (begin_frame st t nm k); simpl in H; congruence.
  - right. split; [reflexivity|]. exists t. now apply end_kernel_Ok in H.
  - left. split; [reflexivity|]. unfold push_region in H. eauto.
  - right. split; [reflexivity|]. unfold pop_region in H. eauto.
  - left. split; [reflexivity|]. unfold begin_deep_copy in H. eauto.
  - right. split; [reflexivity|]. unfold end_deep_copy in H. eauto.
Qed.

Lemma begin_frame_grows (st st' : State) (t : Now) (nm : string)
  (k : StackKind) :
  begin_frame st t nm k = Ok st' -> grows (stack_root st) (stack_root st').
Proof.
  destruct (stack_frame st) as [p|] eqn:C;
    [|now rewrite begin_frame_None].
  rewrite (begin_frame_Some st t nm k p C). intros [= <-]. simpl.
  eapply grows_trans; [apply grows_get_child_at|].
  apply grows_modify_at; auto using begin_keeps_key, begin_keeps_children.
Qed.

Lemma end_frame_grows (st st' : State) (t : Now) :
  end_frame st t = Ok st' -> grows (stack_root st) (stack_root st').
Proof.
  destruct (stack_frame st) as [p|] eqn:C; [|now rewrite end_frame_None].
  rewrite (end_frame_Some st t p C). intros [= <-]. simpl.
  apply grows_modify_at; auto using end_keeps_key, end_keeps_children.
Qed.

Lemma begin_frame_ok (st st' : State) (t : Now) (nm : string) (k : StackKind) :
  State_ok st -> begin_frame st t nm k = Ok st' -> State_ok st'.
Proof.
  intros [W R C F] H. pose proof (begin_frame_grows _ _ _ _ _ H) as G.
  destruct (stack_frame st) as [p|] eqn:E;
    [|now rewrite begin_frame_None in H].
  rewrite (begin_frame_Some st t nm k p E) in H. injection H as <-.
  constructor; simpl in *.
  - apply wf_modify_at;
      auto using begin_keeps_key, wf_keeps_children, begin_keeps_children.
    now apply wf_get_child_at.
  - rewrite modify_at_key by apply begin_keeps_key.
    unfold get_child_at. cbn [fst].
    rewrite modify_at_key; [exact R|].
    apply keeps_fields_key, get_child_keeps_fields.
  - apply grows_modify_at; auto using begin_keeps_key, begin_keeps_children.
    apply (get_child_at_child (stack_root st) p (k, nm) C).
  - intros r Hr. apply (grows_ptr_valid _ _ _ G). now apply F.
Qed.

Lemma end_frame_ok (st st' : State) (t : Now) :
  State_ok st -> end_frame st t = Ok st' -> State_ok st'.
Proof.
  intros [W R C F] H. pose proof (end_frame_grows _ _ _ H) as G.
  destruct (stack_frame st) as [p|] eqn:E; [|now rewrite end_frame_None in H].
  rewrite (end_frame_Some st t p E) in H. injection H as <-.
  constructor; simpl in *.
  - apply wf_modify_at;
      auto using end_keeps_key, wf_keeps_children, end_keeps_children.
  - rewrite modify_at_key by apply end_keeps_key. exact R.
  - apply (grows_ptr_valid _ _ _ G). now apply ptr_valid_parent.
  - intros r Hr. apply (grows_ptr_valid _ _ _ G). now apply F.
Qed.

Lemma Allocations_allocate_Ok (a a' : Allocations) (nm : string) (p sz : Z)
  (fr : node_ptr) :
  Allocations_allocate a nm p sz fr = Ok a' ->
  set_find Allocation_lt (mkAllocation nm p sz fr) (alloc_set a) = None /\
  alloc_set a' = set_place Allocation_lt (mkAllocation nm p sz fr) (alloc_set a)
  /\ total_size a' = wrap64 (total_size a + sz).
Proof.
  unfold Allocations_allocate, set_emplace.
  destruct (set_find _ _ _); simpl; [discriminate|].
  intros [= <-]. auto.
Qed.

Lemma Allocations_deallocate_Ok' (a a' : Allocations) (nm : string) (p sz : Z)
  (fr : node_ptr) :
  Allocations_deallocate a nm p sz fr = Ok a' ->
  exists it,
    set_find Allocation_lt (mkAllocation nm p sz fr) (alloc_set a) = Some it /\
    alloc_set a' = set_erase Allocation_lt (mkAllocation nm p sz fr) (alloc_set a)
    /\ total_size a' = wrap64 (total_size a - size it).
Proof.
  unfold Allocations_deallocate.
  destruct (set_find _ _ _) as [it|]; [|discriminate].
  intros [= <-]. eauto.
Qed.

Lemma ledger_step_records (st st' : State) (ev : ledger_event) :
  ledger_step st ev = Ok st' ->
  stack_root st' = stack_root st /\
  stack_frame st' = stack_frame st /\
  forall r, In r (all_records st') ->
            frame r = stack_frame st \/ In r (all_records st).
Proof.
  destruct ev as [sp nm p sz|sp nm p sz]; simpl.
  - unfold State_allocate.
    destruct (Allocations_allocate _ _ _ _ _) as [a'| |] eqn:E;
      simpl; try discriminate.
    apply Allocations_allocate_Ok in E. destruct E as [_ [S _]].
    intros [= <-]. simpl. repeat split. intros r. unfold all_records. simpl.
    assert (X : In r (alloc_set a') ->
                frame r = stack_frame st \/
                In r (alloc_set (space_get (current_allocations st) sp))).
    { rewrite S. intros H. apply set_place_In in H.
      destruct H as [->|H]; auto. }
    destruct (total_size a' >? _), sp; simpl in *;
      rewrite !in_app_iff; intuition.
  - unfold State_deallocate.
    destruct (Allocations_deallocate _ _ _ _ _) as [a'| |] eqn:E;
      simpl; try discriminate.
    apply Allocations_deallocate_Ok' in E. destruct E as [it [_ [S _]]].
    intros [= <-]. simpl. repeat split. intros r. unfold all_records. simpl.
    assert (X : In r (alloc_set a') ->
                In r (alloc_set (space_get (current_allocations st) sp))).
    { rewrite S. apply set_erase_In. }
    destruct sp; simpl in *; rewrite !in_app_iff; intuition.
Qed.

Lemma ledger_step_ok (st st' : State) (ev : ledger_event) :
  State_ok st -> ledger_step st ev = Ok st' -> State_ok st'.
Proof.
  intros [W R C F] H. destruct (ledger_step_records st st' ev H) as [E1 [E2 X]].
  constructor; rewrite ?E1, ?E2; auto.
  intros r Hr. destruct (X r Hr) as [->|Hin]; auto.
Qed.

Lemma session_step_ok (st st' : State) (ev : session_event) :
  State_ok st -> session_step st ev = Ok st' -> State_ok st'.
Proof.
  intros O H. destruct ev as [e|e]; simpl in H.
  - destruct (frame_step_cases st st' e H) as [[_ [t [nm [k B]]]]|[_ [t E]]].
    + exact (begin_frame_ok st st' t nm k O B).
    + exact (end_frame_ok st st' t O E).
  - exact (ledger_step_ok st st' e O H).
Qed.

Lemma session_run_ok (evs : list session_event) :
  forall st st', State_ok st -> session_run st evs = Ok st' -> State_ok st'.
Proof.
  induction evs as [|ev evs IH]; intros st st' O H; simpl in H.
  - now injection H as <-.
  - destruct (session_step st ev) as [st1| |] eqn:E; simpl in H;
      try discriminate.
    exact (IH st1 st' (session_step_ok st st1 ev O E) H).
Qed.

Lemma State_new_ok (t0 : Now) : State_ok (State_new t0).
Proof.
  constructor; simpl; try reflexivity; try discriminate.
  intros r [].
Qed.

(** X1.  Whatever events a session has received, if none of them failed
    then the children sets of its tree are in order, the root is still the
    unnamed region, the cursor is null or points to a frame of the tree,
    and so does the owning frame of every record of the ledgers and of the
    snapshots. *)
Theorem session_keeps_state_ok :
  forall (t0 : Now) (evs : list session_event) (st : State),
    session_run (State_new t0) evs = Ok st -> State_ok st.
Proof.
  intros t0 evs st. apply session_run_ok, State_new_ok.
Qed.

(** A kernel with an allocation inside, its end, and a region left open. *)
Lemma session_keeps_state_ok_witness :
  exists st,
    session_run (State_new 0)
      [Se_frame (Fe_begin_kernel 1 "A" STACK_FOR);
       Se_ledger (Ev_allocate SPACE_HOST "buf" 4096 1000);
       Se_frame (Fe_end_kernel 2 (Some [(STACK_FOR, "A"%string)]));
       Se_frame (Fe_push_region 3 "R")] = Ok st /\
    State_ok st.
Proof.
  eexists. split; [reflexivity|].
  apply (session_keeps_state_ok 0
           [Se_frame (Fe_begin_kernel 1 "A" STACK_FOR);
            Se_ledger (Ev_allocate SPACE_HOST "buf" 4096 1000);
            Se_frame (Fe_end_kernel 2 (Some [(STACK_FOR, "A"%string)]));
            Se_frame (Fe_push_region 3 "R")]).
  reflexivity.
Defined.

(** ** Depth of the cursor *)

Lemma cursor_depth_begin (st st' : State) (t : Now) (nm : string)
  (k : StackKind) :
  begin_frame st t nm k = Ok st' ->
  cursor_depth (stack_frame st') = cursor_depth (stack_frame st) + 1.
Proof.
  destruct (stack_frame st) as [p|] eqn:C;
    [|now rewrite begin_frame_None].
  rewrite (begin_frame_Some st t nm k p C). intros [= <-]. simpl.
  rewrite length_app. simpl. lia.
Qed.

Lemma cursor_depth_end (st st' : State) (t : Now) :
  end_frame st t = Ok st' ->
  cursor_depth (stack_frame st') = cursor_depth (stack_frame st) - 1.
Proof.
  destruct (stack_frame st) as [p|] eqn:C; [|now rewrite end_frame_None].
  rewrite (end_frame_Some st t p C). intros [= <-]. simpl.
  destruct p as [|k p] using rev_ind; [reflexivity|].
  rewrite parent_ptr_snoc. simpl. rewrite length_app. simpl. lia.
Qed.

Lemma cursor_depth_step (st st' : State) (ev : session_event) :
  session_step st ev = Ok st' ->
  cursor_depth (stack_frame st')
  = cursor_depth (stack_frame st) + frame_delta ev.
Proof.
  destruct ev as [e|e]; intros H.
  - destruct (frame_step_cases st st' e H) as [[D [t [nm [k B]]]]|[D [t E]]];
      rewrite D.
    + exact (cursor_depth_begin st st' t nm k B).
    + exact (cursor_depth_end st st' t E).
  - destruct (ledger_step_records st st' e H) as [_ [-> _]]. simpl. lia.
Qed.

Lemma cursor_depth_run (evs : list session_event) :
  forall st st',
    session_run st evs = Ok st' ->
    cursor_depth (stack_frame st')
    = cursor_depth (stack_frame st) + open_frames evs.
Proof.
  induction evs as [|ev evs IH]; intros st st' H; simpl in H.
  - injection H as <-. unfold open_frames. simpl. lia.
  - destruct (session_step st ev) as [st1| |] eqn:E; simpl in H;
      try discriminate.
    rewrite (IH st1 st' H), (cursor_depth_step st st1 ev E).
    unfold open_frames. simpl. lia.
Qed.

Lemma State_finish_depth (st : State) (t : Now) :
  (exists root, State_finish st t = Ok root) <->
  cursor_depth (stack_frame st) = 0.
Proof.
  unfold State_finish. destruct (stack_frame st) as [[|k p]|]; simpl.
  - split; eauto.
  - split; [intros [r H]; discriminate|lia].
  - split; [intros [r H]; discriminate|lia].
Qed.

(** X2.  After any run of events that did not fail, the depth of the
    cursor (the length of its path, -1 for the null cursor) is the number of
    frames opened minus the number of frames closed; so the destructor gets
    past its check exactly when every opened frame was closed, and a
    surplus of opened frames makes it abort. *)
Theorem destructor_needs_balance :
  forall (t0 : Now) (evs : list session_event) (st : State) (t : Now),
    session_run (State_new t0) evs = Ok st ->
    cursor_depth (stack_frame st) = open_frames evs /\
    ((exists root, State_finish st t = Ok root) <-> open_frames evs = 0) /\
    (0 < open_frames evs -> exists d, State_finish st t = Abort d).
Proof.
  intros t0 evs st t H. pose proof (cursor_depth_run evs _ _ H) as D.
  simpl in D. split; [exact D|]. split.
  - rewrite State_finish_depth, D. reflexivity.
  - intros P. unfold State_finish.
    destruct (stack_frame st) as [[|k p]|]; simpl in D; try lia. eauto.
Qed.

Lemma destructor_needs_balance_witness :
  exists st,
    session_run (State_new 0)
      [Se_frame (Fe_push_region 1 "R");
       Se_frame (Fe_begin_kernel 2 "A" STACK_FOR)] = Ok st /\
    cursor_depth (stack_frame st) = 2 /\
    exists d, State_finish st 3 = Abort d.
Proof.
  eexists. split; [reflexivity|].
  destruct (destructor_needs_balance 0
              [Se_frame (Fe_push_region 1 "R");
               Se_frame (Fe_begin_kernel 2 "A" STACK_FOR)] _ 3 eq_refl)
    as [D [_ A]].
  split; [exact D|]. apply A. reflexivity.
Defined.

(** ** One kernel *)

Local Open Scope Q_scope.

(** A frame that is opened in a frame that exists and closed again. *)
Lemma frame_round_trip (st : State) (t0 t1 : Now) (nm : string)
  (k : StackKind) (p : path) (n : StackNode) :
  stack_frame st = Some p ->
  node_at p (stack_root st) = Some n ->
  let before :=
    match find_child (k, nm) (children n) with
    | Some c => c
    | None => new_StackNode nm k
    end in
  exists st1 st2 c,
    begin_frame st t0 nm k = Ok st1 /\
    stack_frame st1 = Some (p ++ [(k, nm)]) /\
    end_frame st1 t1 = Ok st2 /\
    stack_frame st2 = Some p /\
    current_allocations st2 = current_allocations st /\
    hwm_allocations st2 = hwm_allocations st /\
    node_at (p ++ [(k, nm)]) (stack_root st2) = Some c /\
    number_of_calls c = (number_of_calls before + 1)%Z /\
    total_runtime c = total_runtime before + Now_sub t1 t0 /\
    children c = children before.
Proof.
  intros C H before.
  set (child := p ++ [(k, nm)]).
  set (st1 := mkState
                (modify_at (begin t0) child
                   (fst (get_child_at (stack_root st) p nm k)))
                (Some child) (current_allocations st) (hwm_allocations st)).
  set (st2 := mkState (modify_at (end_ t1) child (stack_root st1)) (Some p)
                (current_allocations st) (hwm_allocations st)).
  pose proof (get_child_at_result (stack_root st) p nm k n H) as R.
  change (snd (get_child_at (stack_root st) p nm k)) with child in R.
  assert (R' : node_at child (fst (get_child_at (stack_root st) p nm k))
               = Some before).
  { rewrite R. unfold before.
    destruct (find_child (k, nm) (children n)); reflexivity. }
  exists st1, st2, (end_ t1 (begin t0 before)).
  split; [exact (begin_frame_Some st t0 nm k p C)|].
  split; [reflexivity|].
  split.
  { rewrite (end_frame_Some st1 t1 child eq_refl).
    unfold child at 2. rewrite parent_ptr_snoc. reflexivity. }
  split; [reflexivity|]. split; [reflexivity|]. split; [reflexivity|].
  split.
  { cbn [stack_root st2 st1].
    rewrite node_at_modify_at_same by apply end_keeps_key.
    rewrite node_at_modify_at_same by apply begin_keeps_key.
    rewrite R'. reflexivity. }
  repeat split.
Qed.

(** X3.  A kernel that begins in a frame that exists and ends with the id
    it was given: both calls return, the cursor is back where it was, the
    ledgers are as before, and the frame of the kernel has one more call
    and the elapsed time added to its total, counted from zero when the
    frame is new. *)
Theorem kernel_round_trip :
  forall (st : State) (t0 t1 : Now) (nm : string) (k : StackKind) (p : path)
         (n : StackNode),
    stack_frame st = Some p ->
    node_at p (stack_root st) = Some n ->
    let before :=
      match find_child (k, nm) (children n) with
      | Some c => c
      | None => new_StackNode nm k
      end in
    exists st1 kernid st2 c,
      begin_kernel st t0 nm k = Ok (st1, kernid) /\
      end_kernel st1 t1 kernid = Ok st2 /\
      stack_frame st2 = Some p /\
      current_allocations st2 = current_allocations st /\
      hwm_allocations st2 = hwm_allocations st /\
      node_at (p ++ [(k, nm)]) (stack_root st2) = Some c /\
      number_of_calls c = (number_of_calls before + 1)%Z /\
      total_runtime c = total_runtime before + Now_sub t1 t0 /\
      children c = children before.
Proof.
  intros st t0 t1 nm k p n C H before.
  destruct (frame_round_trip st t0 t1 nm k p n C H)
    as (st1 & st2 & c & B & F1 & E & X).
  exists st1, (stack_frame st1), st2, c.
  split.
  { unfold begin_kernel. rewrite B. reflexivity. }
  split; [|exact X].
  unfold end_kernel.
  assert (Q : ptr_eqb (stack_frame st1) (stack_frame st1) = true) by
    now apply ptr_eqb_eq.
  rewrite Q. cbn [negb]. exact E.
Qed.

(** The first kernel of a session, two ticks long. *)
Lemma kernel_round_trip_witness :
  exists st1 kernid st2 c,
    begin_kernel (State_new 0%Z) 1%Z "A" STACK_FOR = Ok (st1, kernid) /\
    end_kernel st1 3%Z kernid = Ok st2 /\
    stack_frame st2 = Some [] /\
    node_at [(STACK_FOR, "A"%string)] (stack_root st2) = Some c /\
    number_of_calls c = 1%Z /\
    total_runtime c = 0 + Now_sub 3%Z 1%Z.
Proof.
  destruct (kernel_round_trip (State_new 0%Z) 1%Z 3%Z "A" STACK_FOR []
              (stack_root (State_new 0%Z)) eq_refl eq_refl)
    as (st1 & kid & st2 & c & A & B & C & _ & _ & D & E & F & _).
  exists st1, kid, st2, c. repeat split; assumption.
Defined.

(** ** What one frame event writes *)

Local Open Scope Z_scope.

Lemma get_child_at_only_new (root : StackNode) (p q : path) (nm : string)
  (k : StackKind) :
  node_at q (fst (get_child_at root p nm k)) <> None ->
  node_at q root = None ->
  q = p ++ [(k, nm)].
Proof.
  unfold get_child_at. cbn [fst].
  rewrite (node_at_modify_at _ (keeps_fields_key _ (get_child_keeps_fields nm k))).
  destruct (strip_prefix p q) as [r|] eqn:S1.
  - apply strip_prefix_Some in S1. subst q. rewrite node_at_app.
    destruct (node_at p root) as [n|]; [|congruence].
    destruct r as [|l r]; [simpl; congruence|]. simpl.
    destruct (key_eq_dec l (k, nm)) as [->|N].
    + rewrite get_child_find_same.
      destruct (find_child (k, nm) (children n)) as [c|]; [congruence|].
      destruct r as [|l' r]; simpl; [intros _ _; reflexivity|].
      intros X. now contradiction X.
    + rewrite (get_child_find_other n nm k l N). congruence.
  - destruct (strip_prefix q p) as [r|]; [|congruence].
    destruct (node_at q root); simpl; congruence.
Qed.

Lemma get_child_at_bare_other (root : StackNode) (p q : path) (nm : string)
  (k : StackKind) :
  q <> p ++ [(k, nm)] ->
  option_map bare (node_at q (fst (get_child_at root p nm k)))
  = option_map bare (node_at q root).
Proof.
  intros N. destruct (node_at q root) as [n|] eqn:E.
  - destruct (get_child_at_keeps root p q nm k n E) as [n' [H B]].
    rewrite H. simpl. now f_equal.
  - destruct (node_at q (fst (get_child_at root p nm k))) eqn:E';
      [|reflexivity].
    exfalso. apply N. apply (get_child_at_only_new root p q nm k);
      congruence.
Qed.

(** What a frame event writes. *)
Lemma begin_frame_others (st st' : State) (t : Now) (p q : path)
  (nm : string) (k : StackKind) :
  stack_frame st = Some p ->
  begin_frame st t nm k = Ok st' ->
  q <> p ++ [(k, nm)] ->
  option_map bare (node_at q (stack_root st'))
  = option_map bare (node_at q (stack_root st)).
Proof.
  intros C H N. rewrite (begin_frame_Some st t nm k p C) in H.
  injection H as <-. simpl.
  rewrite node_at_modify_at_other;
    auto using begin_keeps_key, begin_keeps_children.
  now apply get_child_at_bare_other.
Qed.

Lemma end_frame_others (st st' : State) (t : Now) (p q : path) :
  stack_frame st = Some p ->
  end_frame st t = Ok st' ->
  q <> p ->
  option_map bare (node_at q (stack_root st'))
  = option_map bare (node_at q (stack_root st)).
Proof.
  intros C H N. rewrite (end_frame_Some st t p C) in H.
  injection H as <-. simpl.
  apply node_at_modify_at_other;
    auto using end_keeps_key, end_keeps_children.
Qed.

Lemma end_frame_cursor (st st' : State) (t : Now) (p : path) :
  stack_frame st = Some p ->
  end_frame st t = Ok st' ->
  node_at p (stack_root st')
  = option_map (end_ t) (node_at p (stack_root st)).
Proof.
  intros C H. rewrite (end_frame_Some st t p C) in H.
  injection H as <-. simpl.
  apply node_at_modify_at_same, end_keeps_key.
Qed.

(** X4.  A frame event writes one frame.  [begin_frame] leaves the own
    fields of every frame but the new cursor as they were, and creates no
    frame but the new cursor; [end_frame] leaves those of every frame but
    the old cursor, and adds the elapsed time to that one. *)
Theorem frame_events_write_one_frame :
  forall (st st' : State) (t : Now) (p : path),
    stack_frame st = Some p ->
    (forall nm k q,
       begin_frame st t nm k = Ok st' ->
       q <> p ++ [(k, nm)] ->
       option_map bare (node_at q (stack_root st'))
       = option_map bare (node_at q (stack_root st))) /\
    (forall q,
       end_frame st t = Ok st' ->
       q <> p ->
       option_map bare (node_at q (stack_root st'))
       = option_map bare (node_at q (stack_root st))) /\
    (end_frame st t = Ok st' ->
     node_at p (stack_root st')
     = option_map (end_ t) (node_at p (stack_root st))).
Proof.
  intros st st' t p C. split; [|split].
  - intros nm k q H N. exact (begin_frame_others st st' t p q nm k C H N).
  - intros q H N. exact (end_frame_others st st' t p q C H N).
  - intros H. exact (end_frame_cursor st st' t p C H).
Qed.

(** The first kernel of a session: the root keeps its fields. *)
Lemma frame_events_write_one_frame_witness :
  let st := State_new 0 in
  let st' := mkState
               (modify_at (begin 1) [(STACK_FOR, "A"%string)]
                  (get_child (stack_root st) "A" STACK_FOR))
               (Some [(STACK_FOR, "A"%string)])
               (current_allocations st) (hwm_allocations st) in
  begin_frame st 1 "A" STACK_FOR = Ok st' /\
  option_map bare (node_at [] (stack_root st'))
  = option_map bare (node_at [] (stack_root st)).
Proof.
  intros st st'. split; [reflexivity|].
  destruct (frame_events_write_one_frame st st' 1 [] eq_refl) as [B _].
  apply (B "A"%string STACK_FOR []); [reflexivity|discriminate].
Defined.

(** ** Counting the calls *)

Local Open Scope Z_scope.

Lemma bare_calls (n n' : StackNode) :
  bare n = bare n' -> number_of_calls n = number_of_calls n'.
Proof. unfold bare, set_children. now intros [= _ _ _ _ _ -> _]. Qed.

Lemma bare_start (n n' : StackNode) :
  bare n = bare n' -> start_time n = start_time n'.
Proof. unfold bare, set_children. now intros [= _ _ _ _ _ _ ->]. Qed.

Lemma calls_at_bare (q : path) (t t' : StackNode) :
  option_map bare (node_at q t) = option_map bare (node_at q t') ->
  calls_at q t = calls_at q t'.
Proof.
  unfold calls_at.
  destruct (node_at q t) as [n|], (node_at q t') as [n'|]; cbn [option_map];
    try discriminate; [|reflexivity].
  intros H. apply bare_calls. congruence.
Qed.

Lemma calls_at_modify_at (f : StackNode -> StackNode) (p q : path)
  (t : StackNode) :
  keeps_key f -> keeps_children f ->
  (forall n, number_of_calls (f n) = number_of_calls n) ->
  calls_at q (modify_at f p t) = calls_at q t.
Proof.
  intros K C N. destruct (list_eq_dec key_eq_dec q p) as [->|D].
  - unfold calls_at. rewrite (node_at_modify_at_same f p t K).
    destruct (node_at p t); simpl; auto.
  - apply calls_at_bare. now apply node_at_modify_at_other.
Qed.

Lemma ptr_eqb_Some (p q : path) :
  ptr_eqb (Some p) (Some q) = true <-> p = q.
Proof. rewrite ptr_eqb_eq. split; congruence. Qed.

Lemma calls_at_begin_frame (st st' : State) (t : Now) (nm : string)
  (k : StackKind) (q : path) :
  ptr_valid (stack_root st) (stack_frame st) ->
  begin_frame st t nm k = Ok st' ->
  calls_at q (stack_root st')
  = calls_at q (stack_root st)
    + (if ptr_eqb (stack_frame st') (Some q) then 1 else 0).
Proof.
  intros V H. destruct (stack_frame st) as [p|] eqn:C;
    [|now rewrite begin_frame_None in H].
  rewrite (begin_frame_Some st t nm k p C) in H. injection H as <-.
  cbn [stack_root stack_frame]. simpl in V.
  destruct (node_at p (stack_root st)) as [n|] eqn:E; [|congruence].
  destruct (ptr_eqb (Some (p ++ [(k, nm)])) (Some q)) eqn:B.
  - apply ptr_eqb_Some in B. subst q. unfold calls_at.
    rewrite node_at_modify_at_same by apply begin_keeps_key.
    pose proof (get_child_at_result (stack_root st) p nm k n E) as R.
    unfold get_child_at in R. cbn [fst snd] in R.
    rewrite R, node_at_app, E. simpl.
    destruct (find_child (k, nm) (children n)); reflexivity.
  - assert (D : q <> p ++ [(k, nm)]).
    { intros ->. rewrite (proj2 (ptr_eqb_Some _ _) eq_refl) in B.
      discriminate. }
    rewrite Z.add_0_r. apply calls_at_bare.
    rewrite node_at_modify_at_other;
      auto using begin_keeps_key, begin_keeps_children.
    exact (get_child_at_bare_other (stack_root st) p q nm k D).
Qed.

Lemma calls_at_end_frame (st st' : State) (t : Now) (q : path) :
  end_frame st t = Ok st' ->
  calls_at q (stack_root st') = calls_at q (stack_root st).
Proof.
  intros H. destruct (stack_frame st) as [p|] eqn:C;
    [|now rewrite end_frame_None in H].
  rewrite (end_frame_Some st t p C) in H. injection H as <-. simpl.
  apply calls_at_modify_at; auto using end_keeps_key, end_keeps_children.
Qed.

Lemma calls_at_step (st st' : State) (ev : session_event) (q : path) :
  State_ok st ->
  session_step st ev = Ok st' ->
  calls_at q (stack_root st')
  = calls_at q (stack_root st)
    + (if (frame_delta ev =? 1) && ptr_eqb (stack_frame st') (Some q)
       then 1 else 0).
Proof.
  intros O H. destruct ev as [e|e].
  - destruct (frame_step_cases st st' e H) as [[D [t [nm [k B]]]]|[D [t E]]];
      rewrite D; simpl.
    + exact (calls_at_begin_frame st st' t nm k q (ok_cursor st O) B).
    + rewrite (calls_at_end_frame st st' t q E). lia.
  - destruct (ledger_step_records st st' e H) as [-> _]. simpl. lia.
Qed.

Lemma calls_at_run (evs : list session_event) :
  forall (st st' : State) (q : path),
    State_ok st ->
    session_run st evs = Ok st' ->
    calls_at q (stack_root st')
    = calls_at q (stack_root st) + begins_at q st evs.
Proof.
  induction evs as [|ev evs IH]; intros st st' q O H; simpl in *.
  - injection H as <-. lia.
  - destruct (session_step st ev) as [st1| |] eqn:E; simpl in H;
      try discriminate.
    rewrite (IH st1 st' q (session_step_ok st st1 ev O E) H).
    rewrite (calls_at_step st st1 ev q O E). lia.
Qed.

(** X5.  After any run of events that did not fail, [number_of_calls] of
    each frame is the number of opening events (kernel, region or copy)
    that made this frame the cursor, plus the one call of the constructor
    for the root; a path that is no frame counts zero. *)
Theorem calls_count_begins :
  forall (t0 : Now) (evs : list session_event) (st : State) (q : path),
    session_run (State_new t0) evs = Ok st ->
    calls_at q (stack_root st)
    = (match q with [] => 1 | _ => 0 end) + begins_at q (State_new t0) evs.
Proof.
  intros t0 evs st q H.
  rewrite (calls_at_run evs _ _ q (State_new_ok t0) H).
  destruct q as [|k q]; reflexivity.
Qed.

(** The kernel [A] runs twice and a region once. *)
Lemma calls_count_begins_witness :
  exists st,
    session_run (State_new 0)
      [Se_frame (Fe_begin_kernel 1 "A" STACK_FOR);
       Se_frame (Fe_end_kernel 2 (Some [(STACK_FOR, "A"%string)]));
       Se_frame (Fe_push_region 3 "R");
       Se_frame (Fe_pop_region 4);
       Se_frame (Fe_begin_kernel 5 "A" STACK_FOR);
       Se_frame (Fe_end_kernel 6 (Some [(STACK_FOR, "A"%string)]))] = Ok st /\
    calls_at [(STACK_FOR, "A"%string)] (stack_root st) = 2.
Proof.
  eexists. split; [reflexivity|].
  rewrite (calls_count_begins 0
             [Se_frame (Fe_begin_kernel 1 "A" STACK_FOR);
              Se_frame (Fe_end_kernel 2 (Some [(STACK_FOR, "A"%string)]));
              Se_frame (Fe_push_region 3 "R");
              Se_frame (Fe_pop_region 4);
              Se_frame (Fe_begin_kernel 5 "A" STACK_FOR);
              Se_frame (Fe_end_kernel 6 (Some [(STACK_FOR, "A"%string)]))]
             _ [(STACK_FOR, "A"%string)] eq_refl).
  reflexivity.
Defined.

(** ** Totals under a monotone clock *)

Local Open Scope Q_scope.

Lemma Now_sub_nonneg (b a : Now) : (a <= b)%Z -> 0 <= Now_sub b a.
Proof.
  intros H. unfold Now_sub. apply Qmult_le_0_compat; [|discriminate].
  unfold Qle. simpl. lia.
Qed.

Lemma started_by_later (t t' : Now) (root : StackNode) :
  (t <= t')%Z -> started_by t root -> started_by t' root.
Proof.
  intros L S q n H. destruct (S q n H). split; [lia|assumption].
Qed.

Lemma started_by_bare (t : Now) (root : StackNode) (q : path)
  (n' : StackNode) :
  started_by t root ->
  option_map bare (node_at q root) = Some (bare n') ->
  (start_time n' <= t)%Z /\ 0 <= total_runtime n'.
Proof.
  intros S H. destruct (node_at q root) as [n|] eqn:E; [|discriminate].
  cbn [option_map] in H. assert (B : bare n = bare n') by congruence.
  destruct (S q n E). rewrite <- (bare_start _ _ B), <- (bare_total _ _ B).
  auto.
Qed.

Lemma local_total_Some (q : path) (t : StackNode) (n : StackNode) :
  node_at q t = Some n -> local_total q t = total_runtime n.
Proof. unfold local_total. now intros ->. Qed.

Lemma begin_frame_started (st st' : State) (t t' : Now) (nm : string)
  (k : StackKind) :
  (t <= t')%Z ->
  started_by t (stack_root st) ->
  begin_frame st t' nm k = Ok st' ->
  started_by t' (stack_root st') /\
  forall q, local_total q (stack_root st') = local_total q (stack_root st).
Proof.
  intros L S H. destruct (stack_frame st) as [p|] eqn:C;
    [|now rewrite begin_frame_None in H].
  pose proof (fun nm k q => begin_frame_others st st' t' p q nm k C) as W.
  rewrite (begin_frame_Some st t' nm k p C) in H.
  assert (H' : begin_frame st t' nm k = Ok st') by
    (now rewrite (begin_frame_Some st t' nm k p C)).
  injection H as <-. cbn [stack_root] in *.
  change (modify_at (fun n : StackNode => get_child n nm k) p (stack_root st))
    with (fst (get_child_at (stack_root st) p nm k)) in *.
  set (root1 := fst (get_child_at (stack_root st) p nm k)) in *.
  assert (T : forall q, local_total q
                          (modify_at (begin t') (p ++ [(k, nm)]) root1)
                        = local_total q (stack_root st)).
  { intros q. destruct (list_eq_dec key_eq_dec q (p ++ [(k, nm)])) as [->|D].
    - unfold local_total at 1.
      rewrite node_at_modify_at_same by apply begin_keeps_key.
      fold (local_total (p ++ [(k, nm)]) (stack_root st)).
      rewrite <- (get_child_at_local_total (stack_root st) p
                    (p ++ [(k, nm)]) nm k).
      fold root1. unfold local_total.
      destruct (node_at (p ++ [(k, nm)]) root1); reflexivity.
    - apply local_total_bare. now apply (W nm k q). }
  split; [|exact T]. intros q n' Hq.
  destruct (list_eq_dec key_eq_dec q (p ++ [(k, nm)])) as [->|D].
  - rewrite node_at_modify_at_same in Hq by apply begin_keeps_key.
    destruct (node_at (p ++ [(k, nm)]) root1) as [b|] eqn:E; [|discriminate].
    injection Hq as <-. simpl. split; [lia|].
    destruct (node_at (p ++ [(k, nm)]) (stack_root st)) as [b0|] eqn:E0.
    + destruct (get_child_at_keeps (stack_root st) p _ nm k b0 E0)
        as [b' [Hb' B]].
      fold root1 in Hb'. assert (b' = b) by congruence. subst b'.
      rewrite (bare_total _ _ B). now destruct (S _ _ E0).
    + rewrite (get_child_at_new (stack_root st) p _ nm k b E E0).
      apply Qle_refl.
  - specialize (W nm k q H' D). cbn [stack_root] in W. rewrite Hq in W.
    destruct (started_by_bare t (stack_root st) q n' S (eq_sym W)).
    split; [lia|assumption].
Qed.

Lemma end_frame_started (st st' : State) (t t' : Now) :
  (t <= t')%Z ->
  started_by t (stack_root st) ->
  end_frame st t' = Ok st' ->
  started_by t' (stack_root st') /\
  forall q, local_total q (stack_root st) <= local_total q (stack_root st').
Proof.
  intros L S H. destruct (stack_frame st) as [p|] eqn:C;
    [|now rewrite end_frame_None in H].
  pose proof (fun q => end_frame_others st st' t' p q C) as W1.
  pose proof (end_frame_cursor st st' t' p C H) as W2. split.
  - intros q n' Hq. destruct (list_eq_dec key_eq_dec q p) as [->|D].
    + rewrite W2 in Hq. destruct (node_at p (stack_root st)) as [n|] eqn:E;
        [|discriminate].
      injection Hq as <-. destruct (S p n E) as [S1 S2]. simpl.
      split; [lia|].
      rewrite <- (Qplus_0_r 0). apply Qplus_le_compat; [exact S2|].
      apply Now_sub_nonneg. lia.
    + specialize (W1 q H D). rewrite Hq in W1.
      destruct (started_by_bare t (stack_root st) q n' S (eq_sym W1)).
      split; [lia|assumption].
  - intros q. destruct (list_eq_dec key_eq_dec q p) as [->|D].
    + unfold local_total. rewrite W2.
      destruct (node_at p (stack_root st)) as [n|] eqn:E;
        [|apply Qle_refl].
      simpl. destruct (S p n E) as [S1 _].
      rewrite <- (Qplus_0_r (total_runtime n)) at 1.
      apply Qplus_le_compat; [apply Qle_refl|].
      apply Now_sub_nonneg. lia.
    + rewrite (local_total_bare q _ _ (W1 q H D)). apply Qle_refl.
Qed.

Lemma frame_step_time (st st' : State) (e : frame_event) :
  frame_step st e = Ok st' ->
  exists t', event_time (Se_frame e) = Some t' /\
    ((exists nm k, begin_frame st t' nm k = Ok st') \/
     end_frame st t' = Ok st').
Proof.
  destruct e as [t nm k|t id|t nm|t|t dst src|t]; simpl; intros H;
    exists t; (split; [reflexivity|]).
  - left. exists nm, k. unfold begin_kernel in H.
    destruct (begin_frame st t nm k); simpl in H; congruence.
  - right. now apply end_kernel_Ok in H.
  - left. unfold push_region in H. eauto.
  - right. exact H.
  - left. unfold begin_deep_copy in H. eauto.
  - right. exact H.
Qed.

Lemma totals_run (evs : list session_event) :
  forall (st st' : State) (t : Now),
    started_by t (stack_root st) ->
    clock_monotone t evs ->
    session_run st evs = Ok st' ->
    started_by (last_time t evs) (stack_root st') /\
    forall q, local_total q (stack_root st) <= local_total q (stack_root st').
Proof.
  induction evs as [|ev evs IH]; intros st st' t S M H; simpl in H.
  - injection H as <-. split; [exact S|]. intros q. apply Qle_refl.
  - destruct (session_step st ev) as [st1| |] eqn:E; simpl in H;
      try discriminate.
    destruct ev as [e|e].
    + destruct (frame_step_time st st1 e E) as [t' [T X]].
      cbn [clock_monotone last_time] in *. rewrite T in *.
      destruct M as [L M].
      destruct X as [[nm [k B]]|B].
      * destruct (begin_frame_started st st1 t t' nm k L S B) as [S1 E1].
        destruct (IH st1 st' t' S1 M H) as [S' L'].
        split; [exact S'|]. intros q. rewrite <- (E1 q). apply L'.
      * destruct (end_frame_started st st1 t t' L S B) as [S1 L1].
        destruct (IH st1 st' t' S1 M H) as [S' L'].
        split; [exact S'|]. intros q.
        apply (Qle_trans _ (local_total q (stack_root st1))); auto.
    + cbn [clock_monotone last_time event_time] in *.
      destruct (ledger_step_records st st1 e E) as [R _].
      rewrite <- R in S. destruct (IH st1 st' t S M H) as [S' L'].
      split; [exact S'|]. intros q. rewrite <- R. apply L'.
Qed.

Lemma clock_monotone_app (a b : list session_event) :
  forall t, clock_monotone t (a ++ b) ->
            clock_monotone t a /\ clock_monotone (last_time t a) b.
Proof.
  induction a as [|ev a IH]; intros t H; simpl in *; [auto|].
  destruct (event_time ev) as [t'|].
  - destruct H as [L H]. destruct (IH t' H). auto.
  - apply IH, H.
Qed.

Lemma State_new_started (t0 : Now) : started_by t0 (stack_root (State_new t0)).
Proof.
  intros [|k q] n H; simpl in H; [|discriminate].
  injection H as <-. simpl. split; [lia|apply Qle_refl].
Qed.

(** X6.  When the clock readings of the events never go back, no total of a
    frame is ever negative and none ever decreases: between any two moments
    of a run the total of every frame has grown or stayed. *)
Theorem totals_never_decrease :
  forall (t0 : Now) (evs1 evs2 : list session_event) (st1 st2 : State),
    clock_monotone t0 (evs1 ++ evs2) ->
    session_run (State_new t0) evs1 = Ok st1 ->
    session_run st1 evs2 = Ok st2 ->
    forall q,
      0 <= local_total q (stack_root st1) /\
      local_total q (stack_root st1) <= local_total q (stack_root st2).
Proof.
  intros t0 evs1 evs2 st1 st2 M H1 H2 q.
  destruct (clock_monotone_app evs1 evs2 t0 M) as [M1 M2].
  destruct (totals_run evs1 _ _ t0 (State_new_started t0) M1 H1) as [S1 _].
  destruct (totals_run evs2 _ _ _ S1 M2 H2) as [_ L2].
  split; [|apply L2].
  unfold local_total. destruct (node_at q (stack_root st1)) as [n|] eqn:E;
    [|apply Qle_refl].
  now destruct (S1 q n E).
Qed.

(** A kernel that runs for two ticks, seen before and after its end. *)
Lemma totals_never_decrease_witness :
  exists st1 st2,
    session_run (State_new 0%Z) [Se_frame (Fe_begin_kernel 1%Z "A" STACK_FOR)]
    = Ok st1 /\
    session_run st1
      [Se_frame (Fe_end_kernel 3%Z (Some [(STACK_FOR, "A"%string)]))] = Ok st2 /\
    0 <= local_total [(STACK_FOR, "A"%string)] (stack_root st1) /\
    local_total [(STACK_FOR, "A"%string)] (stack_root st1)
    <= local_total [(STACK_FOR, "A"%string)] (stack_root st2).
Proof.
  do 2 eexists. split; [reflexivity|]. split; [reflexivity|].
  apply (totals_never_decrease 0%Z
           [Se_frame (Fe_begin_kernel 1%Z "A" STACK_FOR)]
           [Se_frame (Fe_end_kernel 3%Z (Some [(STACK_FOR, "A"%string)]))]).
  - simpl. lia.
  - reflexivity.
  - reflexivity.
Defined.

(** ** Full names and memory spaces *)

Local Open Scope string_scope.

Lemma append_nil_r (s : string) : s ++ "" = s.
Proof. induction s as [|c s IH]; simpl; congruence. Qed.

Lemma append_assoc (a b c : string) : (a ++ b) ++ c = a ++ (b ++ c).
Proof. induction a as [|x a IH]; simpl; congruence. Qed.

Lemma full_name_fold (l : list key) (acc : string) :
  fold_left (fun full_name k => snd k ++ "/" ++ full_name) l acc
  = fold_left (fun full_name k => snd k ++ "/" ++ full_name) l "" ++ acc.
Proof.
  revert acc. induction l as [|k l IH]; intros acc; [reflexivity|].
  cbn [fold_left]. rewrite (IH (snd k ++ "/" ++ acc)), (IH (snd k ++ "/" ++ "")).
  now rewrite append_nil_r, !append_assoc.
Qed.

(** X7.  The full name of the root is empty when the root has no name, and
    the full name of a frame below is the full name of its parent followed
    by its own name and a slash: every full name but that of an unnamed
    root ends with a slash. *)
Theorem get_full_name_of_child :
  forall (root : StackNode),
    get_full_name root []
    = (if (name root =? "")%string then "" else name root ++ "/") /\
    forall (p : path) (k : key),
      get_full_name root (p ++ [k])%list
      = get_full_name root p ++ snd k ++ "/".
Proof.
  intros root. split; [reflexivity|]. intros p k.
  unfold get_full_name. rewrite rev_app_distr. cbn [rev app fold_left].
  rewrite full_name_fold, append_nil_r.
  destruct (name root =? ""); [reflexivity|].
  now rewrite !append_assoc.
Qed.

Local Open Scope Z_scope.

(** X8.  The two conversions of memory spaces agree: every space below
    [NSPACES] has a name, a handle with that name is of that space, and
    only the first character of a handle counts; a number that is no space
    and a handle that starts with neither H nor C end the program. *)
Theorem space_names_round_trip :
  (forall sp : Space,
     exists nm, get_space_name (Space_int sp) = Ok nm /\
                get_space (mkSpaceHandle nm) = Ok sp) /\
  (forall z : Z, 0 <= z < NSPACES <-> exists nm, get_space_name z = Ok nm) /\
  (forall z : Z, ~ 0 <= z < NSPACES -> get_space_name z = Abort "") /\
  (forall (c : ascii) (s s' : string),
     get_space (mkSpaceHandle (String c s))
     = get_space (mkSpaceHandle (String c s'))) /\
  (forall h : SpaceHandle,
     first_char (handle_name h) <> "H"%char ->
     first_char (handle_name h) <> "C"%char ->
     get_space h = Abort "").
Proof.
  split; [|split; [|split; [|split]]].
  - intros [|]; eexists; split; reflexivity.
  - intros z. unfold get_space_name, NSPACES. split.
    + intros H. assert (C : z = 0 \/ z = 1) by lia.
      destruct C as [->| ->]; eexists; reflexivity.
    + intros [nm H]. destruct (Z.eqb_spec z 0); [lia|].
      destruct (Z.eqb_spec z 1); [lia|discriminate].
  - intros z H. unfold get_space_name, NSPACES in *.
    destruct (Z.eqb_spec z 0); [lia|]. destruct (Z.eqb_spec z 1); [lia|].
    reflexivity.
  - reflexivity.
  - intros h H C. unfold get_space.
    destruct (Ascii.eqb_spec (first_char (handle_name h)) "H"); [contradiction|].
    destruct (Ascii.eqb_spec (first_char (handle_name h)) "C"); [contradiction|].
    reflexivity.
Qed.

(** ** The ledgers of a session *)

Local Open Scope Z_scope.

Section StdSetRoundTrip.

Variable A : Type.
Variable lt : A -> A -> bool.

Lemma set_find_place (x y : A) (s : list A) :
  equiv lt x y = true -> set_find lt x s = None ->
  set_find lt x (set_place lt y s) = Some y.
Proof.
  intros E. induction s as [|z s IH]; simpl.
  - now rewrite E.
  - destruct (equiv lt x z) eqn:Z; [discriminate|]. intros N.
    destruct (lt y z); simpl; rewrite ?E, ?Z; auto.
Qed.

Lemma set_erase_place (x y : A) (s : list A) :
  equiv lt x y = true -> set_find lt x s = None ->
  set_erase lt x (set_place lt y s) = s.
Proof.
  intros E. induction s as [|z s IH]; simpl.
  - now rewrite E.
  - destruct (equiv lt x z) eqn:Z; [discriminate|]. intros N.
    destruct (lt y z); simpl; rewrite ?E, ?Z; [reflexivity|].
    now rewrite IH.
Qed.

End StdSetRoundTrip.

Lemma Allocation_lt_trans (a b c : Allocation) :
  Allocation_lt a b = true -> Allocation_lt b c = true ->
  Allocation_lt a c = true.
Proof.
  unfold Allocation_lt. rewrite !Z.gtb_ltb.
  destruct (Z.eqb_spec (size a) (size b)), (Z.eqb_spec (size b) (size c)),
    (Z.eqb_spec (size a) (size c)); cbn [negb];
    intros H1 H2; apply Z.ltb_lt in H1; apply Z.ltb_lt in H2;
    apply Z.ltb_lt; lia.
Qed.

Lemma space_set_get_same (c : per_space) (sp : Space) :
  space_set c sp (space_get c sp) = c.
Proof. now destruct c, sp. Qed.

Lemma space_set_twice (c : per_space) (sp : Space) (a b : Allocations) :
  space_set (space_set c sp a) sp b = space_set c sp b.
Proof. now destruct c, sp. Qed.

Lemma space_get_same (c : per_space) (sp : Space) (a : Allocations) :
  space_get (space_set c sp a) sp = a.
Proof. now destruct c, sp. Qed.

Lemma space_get_other (c : per_space) (sp sp' : Space) (a : Allocations) :
  sp <> sp' -> space_get (space_set c sp a) sp' = space_get c sp'.
Proof. destruct c, sp, sp'; simpl; congruence. Qed.

Lemma State_allocate_Ok (st st' : State) (sp : Space) (nm : string)
  (p sz : Z) :
  State_allocate st sp nm p sz = Ok st' ->
  exists cur,
    Allocations_allocate (space_get (current_allocations st) sp) nm p sz
      (stack_frame st) = Ok cur /\
    stack_root st' = stack_root st /\
    stack_frame st' = stack_frame st /\
    current_allocations st' = space_set (current_allocations st) sp cur /\
    hwm_allocations st'
    = (if total_size cur >? total_size (space_get (hwm_allocations st) sp)
       then space_set (hwm_allocations st) sp cur
       else hwm_allocations st).
Proof.
  unfold State_allocate.
  destruct (Allocations_allocate _ _ _ _ _) as [cur| |]; simpl;
    try discriminate.
  intros [= <-]. exists cur. repeat split.
Qed.

Lemma State_deallocate_Ok' (st st' : State) (sp : Space) (nm : string)
  (p sz : Z) :
  State_deallocate st sp nm p sz = Ok st' ->
  exists cur,
    Allocations_deallocate (space_get (current_allocations st) sp) nm p sz
      (stack_frame st) = Ok cur /\
    stack_root st' = stack_root st /\
    stack_frame st' = stack_frame st /\
    current_allocations st' = space_set (current_allocations st) sp cur /\
    hwm_allocations st' = hwm_allocations st.
Proof.
  unfold State_deallocate.
  destruct (Allocations_deallocate _ _ _ _ _) as [cur| |]; simpl;
    try discriminate.
  intros [= <-]. exists cur. repeat split.
Qed.

(** X9.  The allocation callback returns exactly when the handle names a
    space and the ledger of that space has no live record of the same size
    at the same address; the name and the owning frame play no part, and a
    second allocation of a live key ends in the failed assertion. *)
Theorem allocate_needs_fresh_key :
  forall (st : State) (h : SpaceHandle) (nm : string) (p sz : Z),
    ((exists st', kokkosp_allocate_data st h nm p sz = Ok st') <->
     (exists sp, get_space h = Ok sp /\
                 live_key (space_get (current_allocations st) sp) p sz
                 = false)) /\
    (forall sp,
       get_space h = Ok sp ->
       live_key (space_get (current_allocations st) sp) p sz = true ->
       kokkosp_allocate_data st h nm p sz = Abort "assert(res.second)").
Proof.
  intros st h nm p sz. unfold kokkosp_allocate_data. split; [split|].
  - intros [st' H]. destruct (get_space h) as [sp| |]; simpl in H;
      try discriminate.
    exists sp. split; [reflexivity|].
    destruct (State_allocate_Ok _ _ _ _ _ _ H) as [cur [C _]].
    apply Allocations_allocate_Ok in C. destruct C as [C _].
    now apply find_not_live in C.
  - intros [sp [-> L]]. simpl.
    destruct (Allocations_allocate_spec _ nm p sz (stack_frame st) L)
      as [a' [E _]].
    unfold State_allocate. rewrite E. simpl. eauto.
  - intros sp -> L. simpl. unfold State_allocate, Allocations_allocate,
      set_emplace.
    apply (find_live_key _ nm p sz (stack_frame st)) in L.
    destruct L as [it ->]. reflexivity.
Qed.

(** X10.  An allocation followed by a deallocation of the same size at the
    same address, under any name: the deallocation returns and the current
    ledgers are exactly as before the allocation, as long as the counter
    was a 64-bit number; the tree and the cursor are untouched, and the
    snapshots are as the allocation left them. *)
Theorem allocate_deallocate_round_trip :
  forall (st st1 : State) (h : SpaceHandle) (sp : Space) (nm nm' : string)
         (p sz : Z),
    get_space h = Ok sp ->
    is_uint64 (current_total sp st) ->
    kokkosp_allocate_data st h nm p sz = Ok st1 ->
    exists st2,
      kokkosp_deallocate_data st1 h nm' p sz = Ok st2 /\
      current_allocations st2 = current_allocations st /\
      hwm_allocations st2 = hwm_allocations st1 /\
      stack_root st2 = stack_root st /\
      stack_frame st2 = stack_frame st.
Proof.
  intros st st1 h sp nm nm' p sz G U H.
  unfold kokkosp_allocate_data, kokkosp_deallocate_data in *.
  rewrite G in *. simpl in *.
  destruct (State_allocate_Ok _ _ _ _ _ _ H) as [cur [C [R [F [E _]]]]].
  apply Allocations_allocate_Ok in C. destruct C as [N [S T]].
  assert (Q : equiv Allocation_lt (mkAllocation nm' p sz (stack_frame st1))
                (mkAllocation nm p sz (stack_frame st)) = true)
    by (apply Allocation_equiv_iff; auto).
  assert (N' : set_find Allocation_lt
                 (mkAllocation nm' p sz (stack_frame st1))
                 (alloc_set (space_get (current_allocations st) sp)) = None).
  { apply find_not_live. now apply find_not_live in N. }
  unfold State_deallocate, Allocations_deallocate.
  rewrite E, space_get_same, S.
  rewrite (set_find_place _ _ _ _ _ Q N'), (set_erase_place _ _ _ _ _ Q N').
  simpl. eexists. split; [reflexivity|]. simpl.
  rewrite space_set_twice, T, R, F. repeat split.
  replace (wrap64 (wrap64 (total_size (space_get (current_allocations st) sp)
                            + sz) - sz))
    with (total_size (space_get (current_allocations st) sp)).
  - destruct (space_get (current_allocations st) sp) eqn:X. simpl.
    rewrite <- X. apply space_set_get_same.
  - rewrite wrap64_sub.
    replace (total_size (space_get (current_allocations st) sp) + sz - sz)
      with (total_size (space_get (current_allocations st) sp)) by lia.
    symmetry. now apply wrap64_small.
Qed.

(** Eight bytes on the host, allocated and freed under another name. *)
Lemma allocate_deallocate_round_trip_witness :
  exists st1 st2,
    kokkosp_allocate_data (State_new 0) (mkSpaceHandle "Host") "a" 4096 8
    = Ok st1 /\
    kokkosp_deallocate_data st1 (mkSpaceHandle "Host") "b" 4096 8 = Ok st2 /\
    current_allocations st2 = current_allocations (State_new 0).
Proof.
  assert (U : is_uint64 (current_total SPACE_HOST (State_new 0)))
    by (vm_compute; split; [discriminate|reflexivity]).
  destruct (allocate_deallocate_round_trip (State_new 0) _
              (mkSpaceHandle "Host") SPACE_HOST "a" "b" 4096 8 eq_refl
              U eq_refl)
    as [st2 [D [C _]]].
  eexists. exists st2. split; [reflexivity|]. split; assumption.
Defined.

(** *** The sets stay in order, the snapshot is a past ledger *)

Lemma session_run_app (a b : list session_event) :
  forall st, session_run st (a ++ b)
             = (st' <- session_run st a ;; session_run st' b).
Proof.
  induction a as [|ev a IH]; intros st; simpl; [reflexivity|].
  destruct (session_step st ev); simpl; auto.
Qed.

Lemma frame_step_ledgers (st st' : State) (e : frame_event) :
  frame_step st e = Ok st' ->
  current_allocations st' = current_allocations st /\
  hwm_allocations st' = hwm_allocations st.
Proof.
  intros H.
  destruct (frame_step_cases st st' e H) as [[_ [t [nm [k B]]]]|[_ [t E]]].
  - unfold begin_frame in B. destruct (stack_frame st); [|discriminate].
    injection B as <-. auto.
  - unfold end_frame in E. destruct (stack_frame st); [|discriminate].
    injection E as <-. auto.
Qed.

Lemma Space_eq_dec (a b : Space) : {a = b} + {a <> b}.
Proof. decide equality. Qed.

Lemma ledger_ok_new : ledger_ok Allocations_new.
Proof. split; reflexivity. Qed.

Lemma ledger_ok_allocate (a a' : Allocations) (nm : string) (p sz : Z)
  (fr : node_ptr) :
  ledger_ok a -> Allocations_allocate a nm p sz fr = Ok a' -> ledger_ok a'.
Proof.
  intros [S T] H. destruct (Allocations_allocate_Ok _ _ _ _ _ _ H) as [N [E _]].
  assert (L : live_key a p sz = false) by now apply find_not_live in N.
  destruct (Allocations_allocate_spec a nm p sz fr L) as [a2 [H2 [T2 [L2 _]]]].
  assert (a2 = a') by congruence. subst a2. split.
  - rewrite E. apply (sortedb_StronglySorted _ _ Allocation_lt_trans).
    apply (set_place_sorted _ _ Allocation_lt_trans); [|exact N].
    now apply (sortedb_StronglySorted _ _ Allocation_lt_trans).
  - rewrite T2, L2, T. apply wrap64_add.
Qed.

Lemma ledger_ok_deallocate (a a' : Allocations) (nm : string) (p sz : Z)
  (fr : node_ptr) :
  ledger_ok a -> Allocations_deallocate a nm p sz fr = Ok a' -> ledger_ok a'.
Proof.
  intros [S T] H.
  destruct (Allocations_deallocate_Ok' _ _ _ _ _ _ H) as [it [F [E _]]].
  assert (L : live_key a p sz = true)
    by (apply (find_live_key a nm p sz fr); eauto).
  destruct (Allocations_deallocate_spec a nm p sz fr L)
    as [a2 [H2 [T2 [L2 _]]]].
  assert (a2 = a') by congruence. subst a2. split.
  - rewrite E. apply (sortedb_StronglySorted _ _ Allocation_lt_trans).
    apply set_erase_sorted.
    now apply (sortedb_StronglySorted _ _ Allocation_lt_trans).
  - rewrite T2, L2, T. apply wrap64_sub.
Qed.

Lemma ledger_ok_set (c : per_space) (sp : Space) (a : Allocations) :
  (forall s, ledger_ok (space_get c s)) -> ledger_ok a ->
  forall s, ledger_ok (space_get (space_set c sp a) s).
Proof.
  intros C A s. destruct (Space_eq_dec sp s) as [->|D].
  - now rewrite space_get_same.
  - now rewrite space_get_other.
Qed.

Lemma session_step_ledgers_ok (st st' : State) (ev : session_event) :
  (forall s, ledger_ok (space_get (current_allocations st) s)) ->
  (forall s, ledger_ok (space_get (hwm_allocations st) s)) ->
  session_step st ev = Ok st' ->
  (forall s, ledger_ok (space_get (current_allocations st') s)) /\
  (forall s, ledger_ok (space_get (hwm_allocations st') s)).
Proof.
  intros C W H. destruct ev as [e|[sp nm p sz|sp nm p sz]]; simpl in H.
  - destruct (frame_step_ledgers st st' e H) as [-> ->]. auto.
  - destruct (State_allocate_Ok _ _ _ _ _ _ H) as [cur [A [_ [_ [-> ->]]]]].
    pose proof (ledger_ok_allocate _ _ _ _ _ _ (C sp) A) as O.
    split; [now apply ledger_ok_set|].
    destruct (_ >? _); [now apply ledger_ok_set|exact W].
  - destruct (State_deallocate_Ok' _ _ _ _ _ _ H) as [cur [A [_ [_ [-> ->]]]]].
    pose proof (ledger_ok_deallocate _ _ _ _ _ _ (C sp) A) as O.
    split; [now apply ledger_ok_set|exact W].
Qed.

Lemma session_run_ledgers_ok (evs : list session_event) :
  forall st st',
    (forall s, ledger_ok (space_get (current_allocations st) s)) ->
    (forall s, ledger_ok (space_get (hwm_allocations st) s)) ->
    session_run st evs = Ok st' ->
    (forall s, ledger_ok (space_get (current_allocations st') s)) /\
    (forall s, ledger_ok (space_get (hwm_allocations st') s)).
Proof.
  induction evs as [|ev evs IH]; intros st st' C W H; simpl in H.
  - injection H as <-. auto.
  - destruct (session_step st ev) as [st1| |] eqn:E; simpl in H;
      try discriminate.
    destruct (session_step_ledgers_ok st st1 ev C W E) as [C1 W1].
    exact (IH st1 st' C1 W1 H).
Qed.

(** X11.  After any run of events that did not fail, every ledger of the
    session, the two current ones and the two snapshots, is a set in the
    strict order of its comparator, and its counter is the sum of the sizes
    of its records modulo [2^64]. *)
Theorem session_keeps_ledgers_ok :
  forall (t0 : Now) (evs : list session_event) (st : State) (sp : Space),
    session_run (State_new t0) evs = Ok st ->
    ledger_ok (space_get (current_allocations st) sp) /\
    ledger_ok (space_get (hwm_allocations st) sp).
Proof.
  intros t0 evs st sp H.
  assert (N : forall s, ledger_ok (space_get (Allocations_new, Allocations_new) s))
    by (intros [|]; apply ledger_ok_new).
  destruct (session_run_ledgers_ok evs (State_new t0) st N N H) as [C W].
  auto.
Qed.

(** Two allocations, the smaller one first: the set holds the larger one
    first. *)
Lemma session_keeps_ledgers_ok_witness :
  exists st,
    session_run (State_new 0)
      [Se_ledger (Ev_allocate SPACE_HOST "a" 4096 8);
       Se_ledger (Ev_allocate SPACE_HOST "b" 8192 16)] = Ok st /\
    map alloc_name (alloc_set (fst (hwm_allocations st)))
    = ["b"%string; "a"%string] /\
    ledger_ok (space_get (hwm_allocations st) SPACE_HOST).
Proof.
  eexists. split; [reflexivity|]. split; [reflexivity|].
  apply (session_keeps_ledgers_ok 0
           [Se_ledger (Ev_allocate SPACE_HOST "a" 4096 8);
            Se_ledger (Ev_allocate SPACE_HOST "b" 8192 16)] _ SPACE_HOST
           eq_refl).
Defined.

Lemma session_run_snoc (evs : list session_event) (ev : session_event)
  (st st' : State) :
  session_run st (evs ++ [ev]) = Ok st' ->
  exists st1, session_run st evs = Ok st1 /\ session_step st1 ev = Ok st'.
Proof.
  rewrite session_run_app.
  destruct (session_run st evs) as [st1| |]; simpl; try discriminate.
  intros H. exists st1. split; [reflexivity|].
  destruct (session_step st1 ev) as [st2| |]; simpl in H; congruence.
Qed.

(** X12.  The stored snapshot of a space is never made up: after any run of
    events that did not fail it is, records and counter, the current ledger
    of that space as it was after some earlier part of the run (the whole
    run and the empty run included). *)
Theorem hwm_is_a_past_ledger :
  forall (t0 : Now) (evs : list session_event) (st : State) (sp : Space),
    session_run (State_new t0) evs = Ok st ->
    exists evs1 evs2 st1,
      evs = (evs1 ++ evs2)%list /\
      session_run (State_new t0) evs1 = Ok st1 /\
      space_get (hwm_allocations st) sp
      = space_get (current_allocations st1) sp.
Proof.
  intros t0 evs. induction evs as [|ev evs IH] using rev_ind; intros st sp H.
  - injection H as <-. exists [], [], (State_new t0).
    repeat split.
  - destruct (session_run_snoc evs ev _ st H) as [st1 [R S]].
    destruct (IH st1 sp R) as [evs1 [evs2 [st0 [E [R0 X]]]]].
    assert (Keep : space_get (hwm_allocations st) sp
                   = space_get (hwm_allocations st1) sp ->
                   exists evs1 evs2 st2,
                     (evs ++ [ev] = evs1 ++ evs2)%list /\
                     session_run (State_new t0) evs1 = Ok st2 /\
                     space_get (hwm_allocations st) sp
                     = space_get (current_allocations st2) sp).
    { intros K. exists evs1, (evs2 ++ [ev])%list, st0.
      rewrite app_assoc, <- E. repeat split; [exact R0|congruence]. }
    destruct ev as [e|[s nm p sz|s nm p sz]]; simpl in S.
    + apply Keep. now destruct (frame_step_ledgers st1 st e S) as [_ ->].
    + destruct (State_allocate_Ok _ _ _ _ _ _ S) as [cur [_ [_ [_ [C W]]]]].
      destruct (total_size cur >? _) eqn:G; [|apply Keep; congruence].
      destruct (Space_eq_dec s sp) as [->|D].
      * exists (evs ++ [Se_ledger (Ev_allocate sp nm p sz)])%list, [], st.
        rewrite app_nil_r. repeat split; [exact H|].
        now rewrite W, C, !space_get_same.
      * apply Keep. rewrite W. now apply space_get_other.
    + apply Keep.
      now destruct (State_deallocate_Ok' _ _ _ _ _ _ S) as [_ [_ [_ [_ [_ ->]]]]].
Qed.

(** The snapshot taken at the peak stays when the memory is freed. *)
Lemma hwm_is_a_past_ledger_witness :
  exists st evs1 evs2 st1,
    session_run (State_new 0)
      [Se_ledger (Ev_allocate SPACE_HOST "a" 4096 8);
       Se_ledger (Ev_deallocate SPACE_HOST "a" 4096 8)] = Ok st /\
    [Se_ledger (Ev_allocate SPACE_HOST "a" 4096 8);
     Se_ledger (Ev_deallocate SPACE_HOST "a" 4096 8)] = (evs1 ++ evs2)%list /\
    session_run (State_new 0) evs1 = Ok st1 /\
    space_get (hwm_allocations st) SPACE_HOST
    = space_get (current_allocations st1) SPACE_HOST.
Proof.
  eexists.
  destruct (hwm_is_a_past_ledger 0
              [Se_ledger (Ev_allocate SPACE_HOST "a" 4096 8);
               Se_ledger (Ev_deallocate SPACE_HOST "a" 4096 8)] _ SPACE_HOST
              eq_refl) as [evs1 [evs2 [st1 [E [R X]]]]].
  exists evs1, evs2, st1. split; [reflexivity|]. repeat split; assumption.
Defined.

(** ** The report of the ledgers *)

Local Open Scope Z_scope.

Lemma allreduce_max_Z_ge (xs : list Z) :
  forall x0, x0 <= allreduce_max_Z x0 xs /\
             forall x, In x xs -> x <= allreduce_max_Z x0 xs.
Proof.
  unfold allreduce_max_Z. induction xs as [|y xs IH]; intros x0; simpl.
  - split; [lia|intros x []].
  - destruct (IH (Z.max x0 y)) as [A B]. split; [lia|].
    intros x [<-|H]; [lia|auto].
Qed.

Lemma allreduce_max_Z_In (xs : list Z) :
  forall x0, In (allreduce_max_Z x0 xs) (x0 :: xs).
Proof.
  unfold allreduce_max_Z. induction xs as [|y xs IH]; intros x0; simpl.
  - auto.
  - destruct (IH (Z.max x0 y)) as [E|H]; [|auto].
    rewrite <- E. destruct (Z.max_spec x0 y) as [[_ ->]|[_ ->]]; auto.
Qed.

Lemma allreduce_min_Z_le (xs : list Z) :
  forall x0, allreduce_min_Z x0 xs <= x0 /\
             forall x, In x xs -> allreduce_min_Z x0 xs <= x.
Proof.
  unfold allreduce_min_Z. induction xs as [|y xs IH]; intros x0; simpl.
  - split; [lia|intros x []].
  - destruct (IH (Z.min x0 y)) as [A B]. split; [lia|].
    intros x [<-|H]; [lia|auto].
Qed.

Lemma allreduce_min_Z_In (xs : list Z) :
  forall x0, In (allreduce_min_Z x0 xs) (x0 :: xs).
Proof.
  unfold allreduce_min_Z. induction xs as [|y xs IH]; intros x0; simpl.
  - auto.
  - destruct (IH (Z.min x0 y)) as [E|H]; [|auto].
    rewrite <- E. destruct (Z.min_spec x0 y) as [[_ ->]|[_ ->]]; auto.
Qed.

(** The least bid: below the start value, at most the rank of every rank
    that holds the maximum, and one of the start value, the number of ranks
    and the rank of such a rank. *)
Lemma rank_bids_min (size m : Z) (l : list Z) :
  forall (r acc : Z),
    let w := allreduce_min_Z acc (rank_bids r size m l) in
    w <= acc /\
    (forall i, (i < List.length l)%nat -> nth i l 0 = m ->
               w <= r + Z.of_nat i) /\
    (w = acc \/ w = size \/
     exists i, (i < List.length l)%nat /\ nth i l 0 = m /\
               w = r + Z.of_nat i).
Proof.
  unfold allreduce_min_Z.
  induction l as [|x l IH]; intros r acc; cbn [rank_bids fold_left].
  - split; [cbn; lia|]. split; [intros i H; inversion H|now left].
  - destruct (IH (r + 1) (Z.min acc (if m =? x then r else size)))
      as [A [B C]].
    set (w := fold_left Z.min (rank_bids (r + 1) size m l)
                (Z.min acc (if m =? x then r else size))) in *.
    cbn zeta. split; [lia|]. split.
    + intros [|i] Hi Hn; cbn [nth List.length] in *.
      * subst x. rewrite Z.eqb_refl in A. lia.
      * specialize (B i ltac:(lia) Hn). lia.
    + destruct C as [C|[C|[i [Hi [Hn C]]]]].
      * destruct (Z.eqb_spec m x) as [->|N].
        -- destruct (Z.min_spec acc r) as [[_ E]|[_ E]]; rewrite E in C;
             [now left|].
           right. right. exists 0%nat. cbn. repeat split; lia.
        -- destruct (Z.min_spec acc size) as [[_ E]|[_ E]]; rewrite E in C;
             auto.
      * auto.
      * right. right. exists (S i). cbn [nth List.length].
        repeat split; [lia|exact Hn|lia].
Qed.

Lemma min_max_rank_bids (total0 : Z) (totals : list Z) :
  min_max_rank total0 totals
  = allreduce_min_Z (Z.of_nat (S (List.length totals)))
      (rank_bids 0 (Z.of_nat (S (List.length totals)))
         (allreduce_max_Z total0 totals) (total0 :: totals)).
Proof.
  unfold min_max_rank. cbn [rank_bids]. unfold allreduce_min_Z.
  cbn [fold_left]. f_equal.
  destruct (_ =? _); lia.
Qed.

Lemma In_nth_lt (l : list Z) (x : Z) :
  In x l -> exists i, (i < List.length l)%nat /\ nth i l 0 = x.
Proof.
  intros H. destruct (In_nth l x 0 H) as [i [Hi Hn]]. eauto.
Qed.

Lemma min_max_rank_lt (total0 : Z) (totals : list Z) :
  min_max_rank total0 totals < Z.of_nat (S (List.length totals)).
Proof.
  rewrite (min_max_rank_bids total0 totals).
  set (size := Z.of_nat (S (List.length totals))).
  set (m := allreduce_max_Z total0 totals).
  pose proof (rank_bids_min size m (total0 :: totals) 0 size) as X.
  cbn zeta in X. destruct X as [A [B C]].
  destruct (In_nth_lt (total0 :: totals) m (allreduce_max_Z_In totals total0))
    as [i0 [Hi0 Hn0]].
  pose proof (B i0 Hi0 Hn0) as U. cbn [List.length] in Hi0. unfold size in *.
  lia.
Qed.

Lemma one_rank_prints_allocations_aux (total0 : Z) (totals : list Z)
  (root : StackNode) (a : Allocations) (rank : Z) :
  Allocations_print root a rank total0 totals
  = (ls <- alloc_lines root (total_size a) (alloc_set a) ;;
     Ok (Some (mkAllocReport (total_size a) rank ls))) \/
  Allocations_print root a rank total0 totals = Ok None \/
  Allocations_print root a rank total0 totals
  = Abort "assert(min_max_rank < size)".
Proof.
  unfold Allocations_print.
  destruct (negb _); [auto|]. destruct (negb _); auto.
Qed.

(** X13.  Who prints the snapshot of a space.  The two collectives pick a
    rank that exists, that holds the largest total and that is the lowest
    of the ranks that do; the assertion on it cannot fail; every other rank
    returns without a line, and the picked rank prints its own total and
    its lines. *)
Theorem one_rank_prints_allocations :
  forall (total0 : Z) (totals : list Z),
    let all := total0 :: totals in
    let w := min_max_rank total0 totals in
    0 <= w < Z.of_nat (List.length all) /\
    (forall x, In x all -> x <= nth (Z.to_nat w) all 0) /\
    (forall i, (i < Z.to_nat w)%nat -> nth i all 0 < nth (Z.to_nat w) all 0) /\
    forall (root : StackNode) (a : Allocations) (rank : Z),
      Allocations_print root a rank total0 totals
      = if rank =? w
        then ls <- alloc_lines root (total_size a) (alloc_set a) ;;
             Ok (Some (mkAllocReport (total_size a) rank ls))
        else Ok None.
Proof.
  intros total0 totals all w.
  pose proof (min_max_rank_bids total0 totals) as E. fold w in E.
  set (size := Z.of_nat (S (List.length totals))) in *.
  set (m := allreduce_max_Z total0 totals) in *.
  change (total0 :: totals) with all in E.
  pose proof (rank_bids_min size m all 0 size) as X. cbn zeta in X.
  rewrite <- E in X. destruct X as [A [B C]].
  destruct (In_nth_lt all m (allreduce_max_Z_In totals total0))
    as [i0 [Hi0 Hn0]].
  pose proof (B i0 Hi0 Hn0) as U.
  assert (L : List.length all = S (List.length totals)) by reflexivity.
  assert (W : exists i, (i < List.length all)%nat /\ nth i all 0 = m /\
                        w = Z.of_nat i).
  { destruct C as [C|[C|[i [Hi [Hn C]]]]]; [unfold size in *; lia ..|].
    exists i. repeat split; auto. }
  destruct W as [i [Hi [Hn Hw]]].
  assert (T : Z.to_nat w = i) by lia. rewrite T, Hn.
  split; [lia|]. split; [|split].
  - intros x [<-|H].
    + exact (proj1 (allreduce_max_Z_ge totals total0)).
    + exact (proj2 (allreduce_max_Z_ge totals total0) x H).
  - intros j Hj.
    assert (Q : nth j all 0 <= m).
    { destruct (allreduce_max_Z_ge totals total0) as [G1 G2].
      assert (I : In (nth j all 0) all) by (apply nth_In; lia).
      destruct I as [<-|I]; [exact G1|now apply G2]. }
    destruct (Z.eq_dec (nth j all 0) m) as [X|X]; [|lia].
    specialize (B j ltac:(lia) X). lia.
  - intros root a rank. unfold Allocations_print. fold w. fold size.
    assert (S : (w <? size) = true) by (apply Z.ltb_lt; unfold size; lia).
    rewrite S. cbn [negb]. destruct (rank =? w); reflexivity.
Qed.

(** *** The lines of a snapshot *)

Lemma Allocation_lt_size (a b : Allocation) :
  Allocation_lt a b = true -> size b <= size a.
Proof.
  unfold Allocation_lt. rewrite Z.gtb_ltb.
  destruct (Z.eqb_spec (size a) (size b)); cbn [negb]; [lia|].
  rewrite Z.ltb_lt. lia.
Qed.

Lemma sizes_descend (s : list Allocation) :
  StronglySorted (lt_true Allocation_lt) s ->
  StronglySorted (fun a b => size b <= size a) s.
Proof.
  induction 1 as [|a s S IH F]; constructor; [exact IH|].
  eapply Forall_impl; [|exact F]. intros b. apply Allocation_lt_size.
Qed.

Local Open Scope Q_scope.

(** With a total that is not negative a smaller record is below the
    threshold when a larger one is. *)
Lemma below_threshold_smaller (total sz sz' : Z) :
  (0 <= total)%Z -> (sz' <= sz)%Z ->
  below_threshold (alloc_percent_of sz total) = true ->
  below_threshold (alloc_percent_of sz' total) = true.
Proof.
  intros T L. unfold alloc_percent_of.
  destruct (Z.eqb_spec total 0) as [|N]; [discriminate|]. cbn [below_threshold].
  intros H. apply Qltb_lt in H. apply Qltb_lt.
  eapply Qle_lt_trans; [|exact H].
  apply Qmult_le_compat_r; [|discriminate].
  unfold Qdiv. apply Qmult_le_compat_r.
  - rewrite <- Zle_Qle. exact L.
  - apply Qinv_le_0_compat. replace 0 with (inject_Z 0) by reflexivity.
    rewrite <- Zle_Qle. exact T.
Qed.

Local Open Scope Z_scope.

Lemma alloc_line_of_below (root : StackNode) (total : Z) (a : Allocation) :
  below_threshold (alloc_percent_of (size a) total) = true ->
  alloc_line_of root total a = Ok [].
Proof. unfold alloc_line_of. now intros ->. Qed.

Lemma alloc_line_of_above (root : StackNode) (total : Z) (a : Allocation)
  (l : list alloc_line) :
  below_threshold (alloc_percent_of (size a) total) = false ->
  alloc_line_of root total a = Ok l ->
  exists x, l = [x] /\ alloc_percent x = alloc_percent_of (size a) total.
Proof.
  unfold alloc_line_of. intros ->. destruct (frame a); [|discriminate].
  intros [= <-]. eauto.
Qed.

Lemma alloc_lines_all_below (root : StackNode) (total : Z)
  (s : list Allocation) :
  Forall (fun a => below_threshold (alloc_percent_of (size a) total) = true) s ->
  alloc_lines root total s = Ok [].
Proof.
  induction 1 as [|a s H F IH]; [reflexivity|].
  cbn [alloc_lines]. rewrite (alloc_line_of_below root total a H). simpl.
  now rewrite IH.
Qed.

Lemma alloc_lines_prefix (root : StackNode) (total : Z) (s : list Allocation) :
  (0 <= total)%Z ->
  StronglySorted (fun a b => size b <= size a) s ->
  forall ls,
    alloc_lines root total s = Ok ls ->
    exists n,
      Forall2 (fun l a => alloc_line_of root total a = Ok [l]) ls (firstn n s)
      /\
      Forall (fun a => alloc_line_of root total a = Ok []) (skipn n s).
Proof.
  intros T. induction 1 as [|a s Srt IH F]; intros ls H.
  - injection H as <-. exists 0%nat. split; constructor.
  - destruct (below_threshold (alloc_percent_of (size a) total)) eqn:B.
    + assert (G : Forall (fun b => below_threshold
                                     (alloc_percent_of (size b) total) = true)
                    (a :: s)).
      { constructor; [exact B|]. eapply Forall_impl; [|exact F].
        intros b L. exact (below_threshold_smaller total _ _ T L B). }
      rewrite (alloc_lines_all_below root total _ G) in H. injection H as <-.
      exists 0%nat. split; [constructor|]. cbn [skipn].
      eapply Forall_impl; [|exact G]. intros b. apply alloc_line_of_below.
    + cbn [alloc_lines] in H.
      destruct (alloc_line_of root total a) as [l| |] eqn:E; simpl in H;
        try discriminate.
      destruct (alloc_lines root total s) as [ls'| |] eqn:E'; simpl in H;
        try discriminate.
      injection H as <-.
      destruct (alloc_line_of_above root total a l B E) as [x [-> _]].
      destruct (IH ls' eq_refl) as [n [A1 A2]].
      exists (S n). cbn [firstn skipn app]. split; [|exact A2].
      constructor; [exact E|exact A1].
Qed.

(** X14.  The lines of a snapshot.  For a ledger in order whose counter
    agrees with its records, the rank that prints reports the counter of
    the ledger and one line for each record of a front part of the set,
    from the largest size down; all the records behind that part are
    skipped, so that no record is printed after a skipped one. *)
Theorem report_lists_largest_first :
  forall (root : StackNode) (a : Allocations) (rank total0 : Z)
         (totals : list Z) (rep : alloc_report),
    ledger_ok a ->
    Allocations_print root a rank total0 totals = Ok (Some rep) ->
    report_total rep = total_size a /\
    report_rank rep = rank /\
    StronglySorted (fun x y => size y <= size x) (alloc_set a) /\
    exists n,
      Forall2 (fun l r => alloc_line_of root (total_size a) r = Ok [l])
        (report_lines rep) (firstn n (alloc_set a)) /\
      Forall (fun r => alloc_line_of root (total_size a) r = Ok [])
        (skipn n (alloc_set a)).
Proof.
  intros root a rank total0 totals rep [S T] H.
  destruct (one_rank_prints_allocations_aux total0 totals root a rank)
    as [X|[X|X]]; rewrite X in H; [|discriminate ..].
  destruct (alloc_lines root (total_size a) (alloc_set a)) as [ls| |] eqn:E;
    simpl in H; try discriminate.
  injection H as <-. cbn [report_total report_rank report_lines].
  apply (sortedb_StronglySorted _ _ Allocation_lt_trans) in S.
  apply sizes_descend in S.
  split; [reflexivity|]. split; [reflexivity|]. split; [exact S|].
  apply alloc_lines_prefix; auto.
  rewrite T. unfold wrap64. apply Z.mod_pos_bound. reflexivity.
Qed.

(** One large record and one below the threshold. *)
Lemma report_lists_largest_first_witness :
  exists rep,
    Allocations_print (new_StackNode "" STACK_REGION)
      (mkAllocations 1000001
         [mkAllocation "big" 4096 1000000 (Some []);
          mkAllocation "small" 8192 1 (Some [])])
      0 1000001 [] = Ok (Some rep) /\
    map alloc_label (report_lines rep) = ["big"%string] /\
    report_total rep = 1000001.
Proof.
  eexists. split; [reflexivity|]. split; [reflexivity|].
  apply (report_lists_largest_first (new_StackNode "" STACK_REGION)
           (mkAllocations 1000001
              [mkAllocation "big" 4096 1000000 (Some []);
               mkAllocation "small" 8192 1 (Some [])])
           0 1000001 [] _ (conj eq_refl eq_refl) eq_refl).
Defined.

(** *** The owning frames of the records *)

Lemma all_records_frame_step (st st' : State) (e : frame_event) :
  frame_step st e = Ok st' -> all_records st' = all_records st.
Proof.
  intros H. destruct (frame_step_ledgers st st' e H) as [C W].
  unfold all_records. now rewrite C, W.
Qed.

Lemma session_step_cursor (st st' : State) (ev : session_event) :
  session_step st ev = Ok st' ->
  stack_frame st <> None /\
  ((forall r, In r (all_records st) -> frame r <> None) ->
   forall r, In r (all_records st') -> frame r <> None)
  \/ stack_frame st' = None.
Proof.
  intros H. destruct (stack_frame st) as [p|] eqn:C.
  - left. split; [discriminate|]. intros A r Hr.
    destruct ev as [e|e]; simpl in H.
    + rewrite (all_records_frame_step st st' e H) in Hr. auto.
    + destruct (ledger_step_records st st' e H) as [_ [_ X]].
      destruct (X r Hr) as [->|Hin]; [rewrite C; discriminate|auto].
  - right. destruct ev as [e|e]; simpl in H.
    + destruct (frame_step_cases st st' e H) as [[_ [t [nm [k B]]]]|[_ [t E]]].
      * now rewrite begin_frame_None in B.
      * now rewrite end_frame_None in E.
    + destruct (ledger_step_records st st' e H) as [_ [-> _]]. exact C.
Qed.

Lemma session_run_cursor (evs : list session_event) :
  forall st st',
    session_run st evs = Ok st' ->
    stack_frame st' <> None ->
    (forall r, In r (all_records st) -> frame r <> None) ->
    forall r, In r (all_records st') -> frame r <> None.
Proof.
  induction evs as [|ev evs IH]; intros st st' H C A; simpl in H.
  - now injection H as <-.
  - destruct (session_step st ev) as [st1| |] eqn:E; simpl in H;
      try discriminate.
    destruct (session_step_cursor st st1 ev E) as [[_ X]|X].
    + exact (IH st1 st' H C (X A)).
    + exfalso. clear IH A E. revert st1 H X.
      induction evs as [|ev' evs IH']; intros st1 H X; simpl in H.
      * injection H as <-. contradiction.
      * destruct (session_step st1 ev') as [st2| |] eqn:E'; simpl in H;
          try discriminate.
        apply (IH' st2 H).
        destruct (session_step_cursor st1 st2 ev' E') as [[N _]|N];
          [contradiction|exact N].
Qed.

Lemma alloc_lines_Ok (root : StackNode) (total : Z) (s : list Allocation) :
  Forall (fun a => frame a <> None) s ->
  exists ls, alloc_lines root total s = Ok ls.
Proof.
  induction 1 as [|a s H F [ls IH]]; [now exists []|].
  cbn [alloc_lines]. rewrite IH. unfold alloc_line_of.
  destruct (below_threshold _); simpl; [eauto|].
  destruct (frame a); [simpl; eauto|contradiction].
Qed.

Lemma hwm_records (st : State) (sp : Space) (r : Allocation) :
  In r (alloc_set (space_get (hwm_allocations st) sp)) ->
  In r (all_records st).
Proof.
  unfold all_records. rewrite !in_app_iff. destruct sp; simpl; auto.
Qed.

(** X15.  When no event failed and the destructor finds the cursor at the
    root, the reports of the snapshots read no null and no dangling frame:
    every record of a snapshot is owned by a frame of the tree that is
    printed, and [Allocations::print] returns on every rank. *)
Theorem report_reads_live_frames :
  forall (t0 t : Now) (evs : list session_event) (st : State)
         (root : StackNode),
    session_run (State_new t0) evs = Ok st ->
    State_finish st t = Ok root ->
    forall sp : Space,
      (forall r, In r (alloc_set (space_get (hwm_allocations st) sp)) ->
                 exists q, frame r = Some q /\ node_at q root <> None) /\
      (forall rank total0 totals,
         exists out,
           Allocations_print root (space_get (hwm_allocations st) sp) rank
             total0 totals = Ok out).
Proof.
  intros t0 t evs st root R F sp.
  pose proof (session_run_ok evs _ _ (State_new_ok t0) R) as O.
  assert (C : stack_frame st = Some [] /\
              root = modify_at (end_ t) [] (stack_root st)).
  { unfold State_finish in F. destruct (stack_frame st) as [[|k p]|];
      try discriminate. injection F as <-. auto. }
  destruct C as [C ->].
  assert (A : forall r, In r (all_records st) -> frame r <> None).
  { apply (session_run_cursor evs (State_new t0) st R).
    - rewrite C. discriminate.
    - intros r []. }
  split.
  - intros r Hr. apply hwm_records in Hr.
    pose proof (ok_frames st O r Hr) as V. specialize (A r Hr).
    destruct (frame r) as [q|]; [|contradiction]. exists q.
    split; [reflexivity|].
    apply (grows_modify_at (end_ t) [] (stack_root st));
      auto using end_keeps_key, end_keeps_children.
  - intros rank total0 totals.
    destruct (alloc_lines_Ok (modify_at (end_ t) [] (stack_root st))
                (total_size (space_get (hwm_allocations st) sp))
                (alloc_set (space_get (hwm_allocations st) sp)))
      as [ls L].
    { apply Forall_forall. intros r Hr. apply A. now apply (hwm_records st sp). }
    destruct (one_rank_prints_allocations_aux total0 totals
                (modify_at (end_ t) [] (stack_root st))
                (space_get (hwm_allocations st) sp) rank) as [X|[X|X]].
    + rewrite X, L. simpl. eauto.
    + rewrite X. eauto.
    + exfalso. unfold Allocations_print in X.
      pose proof (min_max_rank_lt total0 totals) as M.
      apply Z.ltb_lt in M. rewrite M in X. cbn [negb] in X.
      destruct (negb _); [discriminate|].
      destruct (alloc_lines _ _ _); discriminate.
Qed.

(** An allocation inside a kernel that has ended when the session ends. *)
Lemma report_reads_live_frames_witness :
  exists st root out,
    session_run (State_new 0)
      [Se_frame (Fe_begin_kernel 1 "A" STACK_FOR);
       Se_ledger (Ev_allocate SPACE_HOST "a" 4096 8);
       Se_frame (Fe_end_kernel 2 (Some [(STACK_FOR, "A"%string)]))] = Ok st /\
    State_finish st 3 = Ok root /\
    Allocations_print root (space_get (hwm_allocations st) SPACE_HOST) 0
      8 [] = Ok out.
Proof.
  eexists. eexists.
  destruct (report_reads_live_frames 0 3
              [Se_frame (Fe_begin_kernel 1 "A" STACK_FOR);
               Se_ledger (Ev_allocate SPACE_HOST "a" 4096 8);
               Se_frame (Fe_end_kernel 2 (Some [(STACK_FOR, "A"%string)]))]
              _ _ eq_refl eq_refl SPACE_HOST) as [_ P].
  destruct (P 0 8 []) as [out E]. exists out.
  split; [reflexivity|]. split; [reflexivity|exact E].
Defined.

(** ** The high water mark of the processes *)

Local Open Scope Z_scope.

Lemma wrap_long_small (z : Z) : - 2 ^ 63 <= z < 2 ^ 63 -> wrap_long z = z.
Proof. intros H. unfold wrap_long. rewrite Z.mod_small; lia. Qed.

Lemma sum_from_ge (l : list Z) :
  Forall (fun h => 0 <= h) l -> forall acc, acc <= fold_left Z.add l acc.
Proof.
  induction 1 as [|h l H F IH]; intros acc; simpl; [lia|].
  specialize (IH (acc + h)). lia.
Qed.

Lemma long_sum_exact (l : list Z) :
  Forall (fun h => 0 <= h) l ->
  forall acc,
    0 <= acc -> fold_left Z.add l acc < 2 ^ 63 ->
    fold_left (fun s h => wrap_long (s + h)) l acc = fold_left Z.add l acc.
Proof.
  induction 1 as [|h l H F IH]; intros acc A B; simpl in *; [reflexivity|].
  pose proof (sum_from_ge l F (acc + h)) as G.
  rewrite wrap_long_small by lia. apply IH; lia.
Qed.

Lemma sum_from_acc (l : list Z) :
  forall acc, fold_left Z.add l acc = acc + fold_right Z.add 0 l.
Proof.
  induction l as [|h l IH]; intros acc; simpl; [lia|]. rewrite IH. lia.
Qed.

Lemma sum_between (a b : Z) (l : list Z) :
  Forall (fun h => a <= h <= b) l ->
  forall acc,
    acc + a * Z.of_nat (List.length l) <= fold_left Z.add l acc
    <= acc + b * Z.of_nat (List.length l).
Proof.
  induction 1 as [|h l H F IH]; intros acc; cbn [fold_left List.length];
    [lia|].
  specialize (IH (acc + h)). lia.
Qed.

(** X16.  The three numbers of the line of the processes.  [Max] and [Min]
    are values of some rank and bound the values of all the ranks; when no
    value is negative and their sum fits a [long], the sum is exact and
    [Ave], its quotient by the number of ranks, lies between [Min] and
    [Max]. *)
Theorem process_hwm_line :
  forall (hwm0 : Z) (hwms : list Z),
    let all := hwm0 :: hwms in
    let hwm_max := fst (fst (print_process_hwm hwm0 hwms)) in
    let hwm_min := snd (fst (print_process_hwm hwm0 hwms)) in
    let hwm_ave := snd (print_process_hwm hwm0 hwms) in
    In hwm_max all /\ In hwm_min all /\
    (forall h, In h all -> hwm_min <= h <= hwm_max) /\
    (Forall (fun h => 0 <= h) all ->
     fold_right Z.add 0 all < 2 ^ 63 ->
     hwm_ave = fold_right Z.add 0 all / Z.of_nat (List.length all) /\
     hwm_min <= hwm_ave <= hwm_max).
Proof.
  intros hwm0 hwms all hwm_max hwm_min hwm_ave.
  unfold print_process_hwm in *. cbn [fst snd] in *.
  split; [apply allreduce_max_Z_In|]. split; [apply allreduce_min_Z_In|].
  assert (R : forall h, In h all -> hwm_min <= h <= hwm_max).
  { intros h [<-|H]; split.
    - exact (proj1 (allreduce_min_Z_le hwms hwm0)).
    - exact (proj1 (allreduce_max_Z_ge hwms hwm0)).
    - exact (proj2 (allreduce_min_Z_le hwms hwm0) h H).
    - exact (proj2 (allreduce_max_Z_ge hwms hwm0) h H). }
  split; [exact R|]. intros N B.
  assert (E : fold_right Z.add 0 all = fold_left Z.add hwms hwm0).
  { unfold all. cbn [fold_right]. now rewrite sum_from_acc. }
  inversion N as [|? ? N0 Ns]; subst.
  assert (Sm : fold_left (fun s h => wrap_long (s + h)) hwms hwm0
              = fold_left Z.add hwms hwm0)
    by (apply long_sum_exact; [exact Ns|exact N0|rewrite <- E; exact B]).
  unfold hwm_ave. rewrite Sm, <- E.
  assert (P : 0 < Z.of_nat (List.length all)) by (unfold all; cbn [List.length]; lia).
  assert (G : 0 <= fold_right Z.add 0 all).
  { rewrite E. pose proof (sum_from_ge hwms Ns hwm0). lia. }
  change (S (List.length hwms)) with (List.length all).
  rewrite Z.quot_div_nonneg by lia. split; [reflexivity|].
  assert (F : Forall (fun h => hwm_min <= h <= hwm_max) all)
    by (apply Forall_forall; exact R).
  pose proof (sum_between hwm_min hwm_max all F 0) as [L U].
  assert (E0 : fold_left Z.add all 0 = fold_right Z.add 0 all).
  { rewrite sum_from_acc. lia. }
  rewrite E0 in L, U. split.
  - apply Z.div_le_lower_bound; lia.
  - apply Z.div_le_upper_bound; lia.
Qed.

(** ** The bottom-up tree *)

Local Open Scope Z_scope.

Lemma add_time_keeps_key (s : Q) (c : Z) : keeps_key (add_time s c).
Proof. intros n. reflexivity. Qed.

Lemma add_time_keeps_children (s : Q) (c : Z) : keeps_children (add_time s c).
Proof. intros n. reflexivity. Qed.

Lemma wf_add_time (s : Q) (c : Z) (n : StackNode) :
  wf n = true -> wf (add_time s c n) = true.
Proof. intros W. rewrite wf_unfold in *. exact W. Qed.

(** The walk of the inner loop writes below its starting point only. *)
Lemma invert_walk_shallow (s : Q) (c : Z) (chain : list key) :
  forall (root : StackNode) (p q : path),
    (List.length q <= List.length p)%nat ->
    option_map bare (node_at q (invert_walk chain s c root p))
    = option_map bare (node_at q root).
Proof.
  induction chain as [|k chain IH]; intros root p q L; [reflexivity|].
  cbn [invert_walk]. unfold get_child_at. cbn [fst snd].
  assert (N : q <> (p ++ [(fst k, snd k)])%list).
  { intros ->. rewrite length_app in L. simpl in L. lia. }
  rewrite IH by (rewrite length_app; simpl; lia).
  rewrite node_at_modify_at_other;
    auto using add_time_keeps_key, add_time_keeps_children.
  exact (get_child_at_bare_other root p q (snd k) (fst k) N).
Qed.

Lemma wf_invert_walk (s : Q) (c : Z) (chain : list key) :
  forall (root : StackNode) (p : path),
    wf root = true -> wf (invert_walk chain s c root p) = true.
Proof.
  induction chain as [|k chain IH]; intros root p W; [exact W|].
  cbn [invert_walk]. apply IH. apply wf_modify_at.
  - intros n. apply wf_add_time.
  - apply add_time_keeps_key.
  - now apply wf_get_child_at.
Qed.

Lemma wf_invert_visit (n : StackNode) (anc : list key) (r : StackNode) :
  wf r = true -> wf (invert_visit n anc r) = true.
Proof.
  intros W. unfold invert_visit. apply wf_invert_walk.
  cbn [modify_at]. now apply wf_add_time.
Qed.

Lemma bare_invert_visit (n : StackNode) (anc : list key) (r : StackNode) :
  bare (invert_visit n anc r)
  = bare (add_time (self_time_of n) (number_of_calls n) r).
Proof.
  unfold invert_visit.
  pose proof (invert_walk_shallow (self_time_of n) (number_of_calls n)
                (node_key n :: anc)
                (modify_at (add_time (self_time_of n) (number_of_calls n)) [] r)
                [] [] (le_n _)) as H.
  cbn [node_at option_map modify_at] in H. cbn [modify_at]. congruence.
Qed.

Local Open Scope Q_scope.

(** The loop of [invert] visits the nodes of the queued subtrees, each
    once. *)
Lemma invert_loop_visits (fuel : nat) :
  forall (q : list (StackNode * list key)) (inv_root : StackNode),
    (queue_size q <= fuel)%nat ->
    exists visits,
      invert_loop fuel q inv_root = Some (invert_visits visits inv_root) /\
      Permutation (map fst visits) (flat_map nodes (map fst q)).
Proof.
  induction fuel as [|fuel IH]; intros q inv_root B.
  - destruct q as [|[n anc] q].
    + exists []. split; [reflexivity|constructor].
    + unfold queue_size in B. simpl in B. pose proof (tree_size_pos n). lia.
  - destruct q as [|[n anc] q].
    + exists []. split; [reflexivity|constructor].
    + cbn [invert_loop].
      destruct (IH (q ++ map (fun child => (child, node_key n :: anc))
                           (children n))%list
                  (invert_visit n anc inv_root)) as [visits [E P]].
      { rewrite queue_size_app, queue_size_children.
        unfold queue_size in *. simpl in B. rewrite tree_size_unfold in B.
        lia. }
      exists ((n, anc) :: visits). split; [exact E|].
      cbn [map fst flat_map]. rewrite nodes_unfold. cbn [app].
      constructor. rewrite P, map_app, flat_map_app, map_map. cbn [fst].
      rewrite map_id. apply Permutation_app_comm.
Qed.

Lemma invert_visits_ok (this : StackNode) :
  exists visits,
    invert this = Some (invert_visits visits (new_StackNode "" STACK_REGION))
    /\ Permutation (map fst visits) (nodes this).
Proof.
  unfold invert.
  destruct (invert_loop_visits (tree_size this) [(this, [])]
              (new_StackNode "" STACK_REGION)) as [visits [E P]].
  { unfold queue_size. simpl. lia. }
  exists visits. split; [exact E|].
  cbn [map fst flat_map] in P. now rewrite app_nil_r in P.
Qed.

Lemma invert_visits_root (visits : list (StackNode * list key)) :
  forall r,
    node_key (invert_visits visits r) = node_key r /\
    total_runtime (invert_visits visits r)
    == total_runtime r
       + fold_right Qplus 0 (map self_time_of (map fst visits)) /\
    number_of_calls (invert_visits visits r)
    = (number_of_calls r
       + fold_right Z.add 0 (map number_of_calls (map fst visits)))%Z /\
    (wf r = true -> wf (invert_visits visits r) = true).
Proof.
  unfold invert_visits.
  induction visits as [|[n anc] visits IH]; intros r; cbn [fold_left map fst snd
                                                            fold_right].
  - repeat split; [ring|lia|auto].
  - destruct (IH (invert_visit n anc r)) as [K [T [C W]]].
    pose proof (bare_invert_visit n anc r) as B.
    rewrite K, T, C. rewrite (bare_key _ _ B), (bare_total _ _ B),
      (bare_calls _ _ B). cbn [add_time total_runtime number_of_calls].
    repeat split; [ring|lia|].
    intros Wr. apply W. now apply wf_invert_visit.
Qed.

(** ** What the reduction leaves alone *)

Local Open Scope Z_scope.

Lemma bare_local_fields (n n' : StackNode) :
  bare n = bare n' -> local_fields n = local_fields n'.
Proof.
  intros B. unfold local_fields.
  pose proof (bare_key _ _ B) as K. unfold node_key in K.
  rewrite (bare_calls _ _ B), (bare_start _ _ B).
  congruence.
Qed.

Lemma local_fields_modify_at (f : StackNode -> StackNode) (p q : path)
  (t : StackNode) :
  keeps_key f -> keeps_children f ->
  (forall n, local_fields (f n) = local_fields n) ->
  option_map local_fields (node_at q (modify_at f p t))
  = option_map local_fields (node_at q t).
Proof.
  intros K C L. destruct (list_eq_dec key_eq_dec q p) as [->|D].
  - rewrite (node_at_modify_at_same f p t K).
    destruct (node_at p t); cbn [option_map]; [now rewrite L|reflexivity].
  - pose proof (node_at_modify_at_other f p q t K C D) as B.
    destruct (node_at q (modify_at f p t)) as [n|], (node_at q t) as [n'|];
      cbn [option_map] in *; try discriminate; [|reflexivity].
    f_equal. apply bare_local_fields. congruence.
Qed.

Lemma visit_write_local_fields (q p : path) (s0 : StackNode)
  (ss : list StackNode) (s : StackNode) :
  option_map local_fields (node_at p (visit_write q s0 ss s))
  = option_map local_fields (node_at p s).
Proof.
  unfold visit_write. apply local_fields_modify_at;
    auto using reduced_keeps_key, reduced_keeps_children.
Qed.

(** The loop of the reduction keeps on rank 0 whatever every turn keeps. *)
Lemma reduce_loop_keeps (J : StackNode -> Prop) (this0 : StackNode)
  (those : list StackNode) :
  (forall q s ss, J s -> J (visit_write q s ss s)) ->
  wf this0 = true ->
  forall (fuel : nat) (queue : list path) (s0 : StackNode)
         (ss : list StackNode),
    reduce_inv this0 those queue s0 ss ->
    (unvisited this0 queue <= fuel)%nat ->
    J s0 ->
    exists s0' ss',
      reduce_loop fuel (mkRank s0 queue) (ranks_at queue ss) = Some (s0', ss')
      /\ reduce_inv this0 those [] s0' ss' /\ J s0'.
Proof.
  intros Keep W. induction fuel as [|fuel IH]; intros queue s0 ss I B H.
  - destruct queue as [|q queue].
    + exists s0, ss. split; [apply reduce_loop_done|auto].
    + destruct (turn_node_this0 this0 those q queue s0 ss I) as [nT HT].
      unfold unvisited in B. simpl in B. rewrite HT in B.
      pose proof (tree_size_pos nT). lia.
  - destruct queue as [|q queue].
    + exists s0, ss. split; [apply reduce_loop_done|auto].
    + destruct (turn_keys this0 those q queue s0 ss I) as [nT [HT K]].
      destruct (turn_node_s0 this0 those q queue s0 ss I)
        as [n0 [_ [H0 _]]].
      cbn [reduce_loop queue_empty rank_queue andb].
      rewrite reduce_step_shared.
      * apply IH.
        -- now apply reduce_inv_turn.
        -- rewrite K. rewrite (unvisited_push this0 q queue nT W HT) in B.
           lia.
        -- now apply Keep.
      * congruence.
      * intros s Hs. apply (inv_live _ _ _ _ _ I); simpl; auto.
Qed.

(** X19.  The reduction writes the three runtimes and nothing else: with a
    tree in order on rank 0 it ends, and every frame of rank 0 has the
    name, the kind, the number of calls and the start time it had before;
    the counts that are printed are those of rank 0 alone.  The tree stays
    in order. *)
Theorem reduce_keeps_local_fields :
  forall (this0 : StackNode) (those : list StackNode),
    wf this0 = true ->
    exists s0 ss,
      reduce_over_mpi this0 those = Some (s0, ss) /\
      wf s0 = true /\
      forall p,
        option_map local_fields (node_at p s0)
        = option_map local_fields (node_at p this0).
Proof.
  intros this0 those W. unfold reduce_over_mpi.
  destruct (reduce_loop_keeps
              (fun s => forall p, option_map local_fields (node_at p s)
                                  = option_map local_fields (node_at p this0))
              this0 those) with (fuel := tree_size this0) (queue := [[]: path])
                                (s0 := this0) (ss := those)
    as [s0 [ss [E [I J]]]].
  - intros q s ss H p. rewrite visit_write_local_fields. apply H.
  - exact W.
  - apply reduce_inv_start.
  - unfold unvisited. simpl. lia.
  - reflexivity.
  - exists s0, ss. split; [exact E|]. split; [|exact J].
    exact (wf_shape this0 s0 (eq_sym (inv_shape _ _ _ _ _ I)) W).
Qed.

(** Two ranks with one kernel, called twice on rank 0 and five times on
    rank 1: the merged frame counts two calls. *)
Lemma reduce_keeps_local_fields_witness :
  let A0 := mkStackNode "A" STACK_FOR [] 1 0 0 2 0 in
  let A1 := mkStackNode "A" STACK_FOR [] 3 0 0 5 0 in
  let rank0 := mkStackNode "" STACK_REGION [A0] 4 0 0 1 0 in
  let rank1 := mkStackNode "" STACK_REGION [A1] 9 0 0 1 0 in
  exists s0 ss,
    reduce_over_mpi rank0 [rank1] = Some (s0, ss) /\
    calls_at [(STACK_FOR, "A"%string)] s0 = 2.
Proof.
  intros A0 A1 rank0 rank1.
  destruct (reduce_keeps_local_fields rank0 [rank1] eq_refl)
    as [s0 [ss [E [_ L]]]].
  exists s0, ss. split; [exact E|].
  specialize (L [(STACK_FOR, "A"%string)]). unfold calls_at.
  destruct (node_at [(STACK_FOR, "A"%string)] s0) as [a|];
    cbn in L; [|discriminate].
  injection L as _ _ C _. exact C.
Defined.

(** X20.  The trees of the destructor.  After a session whose events all
    returned and that the destructor accepts, the tree it holds is in
    order, [invert] returns a tree in order, and both reductions end on
    all ranks, whatever trees the other ranks hold, with the shapes of
    rank 0. *)
Theorem destructor_trees_reduce :
  forall (t0 t : Now) (evs : list session_event) (st : State)
         (root : StackNode),
    session_run (State_new t0) evs = Ok st ->
    State_finish st t = Ok root ->
    wf root = true /\
    exists inv_root,
      invert root = Some inv_root /\ wf inv_root = true /\
      forall those inv_those : list StackNode,
        exists s0 ss i0 iss,
          reduce_over_mpi root those = Some (s0, ss) /\
          reduce_over_mpi inv_root inv_those = Some (i0, iss) /\
          shape s0 = shape root /\ shape i0 = shape inv_root.
Proof.
  intros t0 t evs st root R F.
  pose proof (session_run_ok evs _ _ (State_new_ok t0) R) as O.
  assert (W : wf root = true).
  { unfold State_finish in F. destruct (stack_frame st) as [[|k p]|];
      try discriminate. injection F as <-.
    apply (wf_modify_at (end_ t) []).
    - apply wf_keeps_children, end_keeps_children.
    - apply end_keeps_key.
    - exact (ok_wf st O). }
  split; [exact W|].
  destruct (invert_visits_ok root) as [visits [E _]].
  destruct (invert_visits_root visits (new_StackNode "" STACK_REGION))
    as [_ [_ [_ Wi]]].
  specialize (Wi eq_refl).
  eexists. split; [exact E|]. split; [exact Wi|].
  intros those inv_those.
  destruct (reduce_over_mpi_spec root those W) as [s0 [ss [E0 I0]]].
  destruct (reduce_over_mpi_spec _ inv_those Wi) as [i0 [iss [E1 I1]]].
  exists s0, ss, i0, iss. repeat split; auto.
  - exact (inv_shape _ _ _ _ _ I0).
  - exact (inv_shape _ _ _ _ _ I1).
Qed.

(** One kernel, then the end of the session. *)
Lemma destructor_trees_reduce_witness :
  exists st root inv_root,
    session_run (State_new 0)
      [Se_frame (Fe_begin_kernel 1 "A" STACK_FOR);
       Se_frame (Fe_end_kernel 2 (Some [(STACK_FOR, "A"%string)]))] = Ok st /\
    State_finish st 3 = Ok root /\
    invert root = Some inv_root /\ wf inv_root = true.
Proof.
  eexists. eexists.
  destruct (destructor_trees_reduce 0 3
              [Se_frame (Fe_begin_kernel 1 "A" STACK_FOR);
               Se_frame (Fe_end_kernel 2 (Some [(STACK_FOR, "A"%string)]))]
              _ _ eq_refl eq_refl) as [_ [inv_root [E [W _]]]].
  exists inv_root. split; [reflexivity|]. split; [reflexivity|].
  split; assumption.
Defined.

(** ** The lines of the time trees *)

Local Open Scope string_scope.
Local Open Scope nat_scope.

Lemma length_append (a b : string) :
  String.length (a ++ b) = String.length a + String.length b.
Proof. induction a as [|c a IH]; simpl; [reflexivity|]. now rewrite IH. Qed.

Local Open Scope Q_scope.

(** ** The callbacks *)

Local Open Scope string_scope.
Local Open Scope Q_scope.
Local Open Scope Z_scope.

Lemma round_trip_counts (st st2 : State) (p : path) (n c : StackNode)
  (k : StackKind) (nm : string) (d : Q) :
  node_at p (stack_root st) = Some n ->
  node_at (p ++ [(k, nm)])%list (stack_root st2) = Some c ->
  number_of_calls c
  = number_of_calls match find_child (k, nm) (children n) with
                    | Some c0 => c0
                    | None => new_StackNode nm k
                    end + 1 ->
  total_runtime c
  = (total_runtime match find_child (k, nm) (children n) with
                   | Some c0 => c0
                   | None => new_StackNode nm k
                   end + d)%Q ->
  calls_at (p ++ [(k, nm)])%list (stack_root st2)
  = calls_at (p ++ [(k, nm)])%list (stack_root st) + 1 /\
  local_total (p ++ [(k, nm)])%list (stack_root st2)
  = (local_total (p ++ [(k, nm)])%list (stack_root st) + d)%Q.
Proof.
  intros H H2 C T. unfold calls_at, local_total.
  rewrite H2, (node_at_app p [(k, nm)] (stack_root st)), H. cbn [node_at].
  rewrite C, T. destruct (find_child (k, nm) (children n)); split; reflexivity.
Qed.

Lemma get_space_fails (h : SpaceHandle) :
  fails (get_space h) -> get_space h = Abort "".
Proof.
  unfold get_space.
  destruct (Ascii.eqb (first_char (handle_name h)) "H"); [intros []|].
  destruct (Ascii.eqb (first_char (handle_name h)) "C"); [intros []|].
  reflexivity.
Qed.

(** X22.  Regions and deep copies through the callbacks.  In a frame that
    exists, a pushed region that is popped, and a deep copy between two
    handles that name a space that is ended, bring the cursor back and
    leave their frame, a region of the given name or a copy named by the
    two quoted names with an equals sign between, with one more call and
    the elapsed time added.  A handle that names no space makes the
    deep-copy callback abort before the state is used. *)
Theorem region_and_copy_round_trip :
  forall (st : State) (t0 t1 : Now) (p : path) (n : StackNode),
    stack_frame st = Some p ->
    node_at p (stack_root st) = Some n ->
    (forall nm,
       let q := (p ++ [(STACK_REGION, nm)])%list in
       exists st1 st2,
         kokkosp_push_profile_region (Some st) t0 nm = Ok (Some st1) /\
         kokkosp_pop_profile_region (Some st1) t1 = Ok (Some st2) /\
         stack_frame st2 = Some p /\
         calls_at q (stack_root st2) = calls_at q (stack_root st) + 1 /\
         local_total q (stack_root st2)
         = (local_total q (stack_root st) + Now_sub t1 t0)%Q) /\
    (forall dh dn sh sn d s,
       get_space dh = Ok d -> get_space sh = Ok s ->
       let q := (p ++ [(STACK_COPY,
                        (dquote ++ dn ++ dquote ++ "=" ++ dquote ++ sn
                           ++ dquote)%string)])%list in
       exists st1 st2,
         kokkosp_begin_deep_copy (Some st) t0 dh dn sh sn = Ok (Some st1) /\
         kokkosp_end_deep_copy (Some st1) t1 = Ok (Some st2) /\
         stack_frame st2 = Some p /\
         calls_at q (stack_root st2) = calls_at q (stack_root st) + 1 /\
         local_total q (stack_root st2)
         = (local_total q (stack_root st) + Now_sub t1 t0)%Q) /\
    (forall g dh dn sh sn,
       fails (get_space dh) \/
       (exists d, get_space dh = Ok d) /\ fails (get_space sh) ->
       kokkosp_begin_deep_copy g t0 dh dn sh sn = Abort "").
Proof.
  intros st t0 t1 p n C H. split; [|split].
  - intros nm q.
    destruct (frame_round_trip st t0 t1 nm STACK_REGION p n C H)
      as (st1 & st2 & c & B & _ & E & F & _ & _ & N & Cc & Tc & _).
    exists st1, st2.
    unfold kokkosp_push_profile_region, kokkosp_pop_profile_region,
      with_state, push_region, pop_region.
    rewrite B, E. cbn [bind]. repeat split; [exact F| |].
    + exact (proj1 (round_trip_counts st st2 p n c STACK_REGION nm _
                      H N Cc Tc)).
    + exact (proj2 (round_trip_counts st st2 p n c STACK_REGION nm _
                      H N Cc Tc)).
  - intros dh dn sh sn d s Gd Gs q.
    destruct (frame_round_trip st t0 t1
                (dquote ++ dn ++ dquote ++ "=" ++ dquote ++ sn ++ dquote)
                STACK_COPY p n C H)
      as (st1 & st2 & c & B & _ & E & F & _ & _ & N & Cc & Tc & _).
    exists st1, st2.
    unfold kokkosp_begin_deep_copy, kokkosp_end_deep_copy, with_state,
      begin_deep_copy, end_deep_copy.
    rewrite Gd, Gs. cbn [bind]. rewrite B, E. cbn [bind].
    repeat split; [exact F| |].
    + exact (proj1 (round_trip_counts st st2 p n c STACK_COPY _ _
                      H N Cc Tc)).
    + exact (proj2 (round_trip_counts st st2 p n c STACK_COPY _ _
                      H N Cc Tc)).
  - intros g dh dn sh sn X. unfold kokkosp_begin_deep_copy.
    destruct X as [X|[[d Gd] X]].
    + now rewrite (get_space_fails dh X).
    + rewrite Gd. cbn [bind]. now rewrite (get_space_fails sh X).
Qed.

(** A copy from the device to the host in a new session. *)
Lemma region_and_copy_round_trip_witness :
  exists st1 st2,
    kokkosp_begin_deep_copy (Some (State_new 0)) 1 (mkSpaceHandle "Host") "a"
      (mkSpaceHandle "Cuda") "b" = Ok (Some st1) /\
    kokkosp_end_deep_copy (Some st1) 3 = Ok (Some st2) /\
    stack_frame st2 = Some [].
Proof.
  destruct (region_and_copy_round_trip (State_new 0) 1 3 []
              (stack_root (State_new 0)) eq_refl eq_refl) as [_ [D _]].
  destruct (D (mkSpaceHandle "Host") "a"%string (mkSpaceHandle "Cuda")
              "b"%string SPACE_HOST SPACE_CUDA eq_refl eq_refl)
    as (st1 & st2 & B & E & F & _).
  exists st1, st2. repeat split; assumption.
Defined.

(** ** The comparators of the sets *)

Local Open Scope string_scope.
Local Open Scope Z_scope.

Lemma Allocation_lt_irrefl (a : Allocation) : Allocation_lt a a = false.
Proof. unfold Allocation_lt. rewrite Z.eqb_refl. apply Z.ltb_irrefl. Qed.

Lemma by_time_irrefl (a : StackNode) : by_time a a = false.
Proof.
  apply not_true_iff_false. rewrite by_time_spec.
  intros [H|[_ H]].
  - exact (Qlt_irrefl _ H).
  - now rewrite string_lt_irrefl in H.
Qed.

Lemma by_time_equiv (a b : StackNode) :
  equiv by_time a b = true <->
  (total_runtime a == total_runtime b)%Q /\ name a = name b.
Proof.
  unfold equiv. rewrite andb_true_iff, !negb_true_iff.
  rewrite <- !not_true_iff_false, !by_time_spec. unfold printed_before.
  split.
  - intros [H1 H2].
    assert (E : (total_runtime a == total_runtime b)%Q).
    { destruct (Q_dec (total_runtime a) (total_runtime b)) as [[L|L]|E];
        [exfalso; apply H2; now left|exfalso; apply H1; now left|exact E]. }
    split; [exact E|]. apply string_lt_total.
    + apply not_true_iff_false. intros S. apply H1. right. auto.
    + apply not_true_iff_false. intros S. apply H2. right. split; [|exact S].
      now symmetry.
  - intros [E N]. split; intros [L|[_ S]].
    + rewrite E in L. exact (Qlt_irrefl _ L).
    + rewrite N, string_lt_irrefl in S. discriminate.
    + rewrite E in L. exact (Qlt_irrefl _ L).
    + rewrite N, string_lt_irrefl in S. discriminate.
Qed.

(** X24.  The three comparators the sets are built on are strict weak
    orders, as [std::set] requires: none puts an element before itself,
    each is transitive, and two elements are equivalent exactly when they
    agree on what the comparator reads: kind and name for frames, size and
    address for allocations, total and name for the order of printing. *)
Theorem comparators_are_strict_weak_orders :
  ((forall a, StackNode_lt a a = false) /\
   (forall a b c, StackNode_lt a b = true -> StackNode_lt b c = true ->
                  StackNode_lt a c = true) /\
   (forall a b, equiv StackNode_lt a b = true <->
                kind a = kind b /\ name a = name b)) /\
  ((forall a, Allocation_lt a a = false) /\
   (forall a b c, Allocation_lt a b = true -> Allocation_lt b c = true ->
                  Allocation_lt a c = true) /\
   (forall a b, equiv Allocation_lt a b = true <->
                size a = size b /\ ptr a = ptr b)) /\
  ((forall a, by_time a a = false) /\
   (forall a b c, by_time a b = true -> by_time b c = true ->
                  by_time a c = true) /\
   (forall a b, equiv by_time a b = true <->
                (total_runtime a == total_runtime b)%Q /\ name a = name b)).
Proof.
  split; [|split]; (split; [|split]).
  - intros a. apply key_lt_irrefl.
  - exact StackNode_lt_trans.
  - intros a b. rewrite node_equiv_key, key_eqb_eq. unfold node_key.
    split; [intros [= -> ->]; auto|intros [-> ->]; reflexivity].
  - exact Allocation_lt_irrefl.
  - exact Allocation_lt_trans.
  - exact Allocation_equiv_iff.
  - exact by_time_irrefl.
  - exact by_time_trans.
  - exact by_time_equiv.
Qed.

(** ** The labels of the allocations *)

Lemma append_not_empty (a b : string) : b <> "" -> a ++ b <> "".
Proof. destruct a; simpl; [auto|discriminate]. Qed.

(** X25.  The label of a printed allocation.  Under an unnamed root, a
    record owned by the root is labelled with its own name, and a record
    owned by a frame below is labelled with the full name of the parent of
    that frame, the name of the frame, two slashes and its own name: the
    slash that ends every full name is followed by the slash of the
    label. *)
Theorem allocation_label :
  forall (root : StackNode) (total : Z) (a : Allocation) (l : alloc_line),
    name root = "" ->
    alloc_line_of root total a = Ok [l] ->
    alloc_percent l = alloc_percent_of (size a) total /\
    (frame a = Some [] -> alloc_label l = alloc_name a) /\
    (forall p k,
       frame a = Some (p ++ [k])%list ->
       alloc_label l
       = get_full_name root p ++ snd k ++ "//" ++ alloc_name a).
Proof.
  intros root total a l R H. unfold alloc_line_of in H.
  destruct (below_threshold _); [discriminate|].
  destruct (frame a) as [q|]; [|discriminate].
  injection H as <-. cbn [alloc_percent alloc_label].
  split; [reflexivity|]. split.
  - intros [= ->]. unfold get_full_name. rewrite R. reflexivity.
  - intros p k [= ->].
    assert (E : get_full_name root (p ++ [k])%list
                = get_full_name root p ++ snd k ++ "/").
    { unfold get_full_name. rewrite rev_app_distr. cbn [rev app fold_left].
      rewrite full_name_fold, append_nil_r.
      destruct (name root =? "")%string; [reflexivity|].
      now rewrite !append_assoc. }
    rewrite E.
    destruct (String.eqb_spec (get_full_name root p ++ snd k ++ "/") "")
      as [X|_].
    + exfalso. revert X. apply append_not_empty, append_not_empty.
      discriminate.
    + now rewrite !append_assoc.
Qed.

(** An allocation made inside the kernel [A]. *)
Lemma allocation_label_witness :
  exists l,
    alloc_line_of (new_StackNode "" STACK_REGION) 8
      (mkAllocation "x" 4096 8 (Some [(STACK_FOR, "A")])) = Ok [l] /\
    alloc_label l = "A//x".
Proof.
  eexists. split; [reflexivity|].
  destruct (allocation_label (new_StackNode "" STACK_REGION) 8
              (mkAllocation "x" 4096 8 (Some [(STACK_FOR, "A")])) _
              eq_refl eq_refl) as [_ [_ L]].
  exact (L [] (STACK_FOR, "A") eq_refl).
Defined.

(** ** Frames stay *)

Lemma session_step_grows (st st' : State) (ev : session_event) :
  session_step st ev = Ok st' -> grows (stack_root st) (stack_root st').
Proof.
  intros H. destruct ev as [e|e]; simpl in H.
  - destruct (frame_step_cases st st' e H) as [[_ [t [nm [k B]]]]|[_ [t E]]].
    + exact (begin_frame_grows st st' t nm k B).
    + exact (end_frame_grows st st' t E).
  - destruct (ledger_step_records st st' e H) as [-> _]. intros q Hq. exact Hq.
Qed.

Lemma session_run_grows (evs : list session_event) :
  forall st st',
    session_run st evs = Ok st' -> grows (stack_root st) (stack_root st').
Proof.
  induction evs as [|ev evs IH]; intros st st' H; simpl in H.
  - injection H as <-. intros q Hq. exact Hq.
  - destruct (session_step st ev) as [st1| |] eqn:E; simpl in H;
      try discriminate.
    exact (grows_trans _ _ _ (session_step_grows st st1 ev E) (IH st1 st' H)).
Qed.

Lemma begins_at_nonneg (q : path) (evs : list session_event) :
  forall st, 0 <= begins_at q st evs.
Proof.
  induction evs as [|ev evs IH]; intros st; simpl; [lia|].
  destruct (session_step st ev) as [st1| |]; try lia.
  specialize (IH st1). destruct (_ && _); lia.
Qed.

(** X26.  No event removes a frame or takes back a call: between an
    earlier and a later moment of a session every frame that existed still
    exists, under the same kinds and names from the root, and its number of
    calls has stayed or grown. *)
Theorem frames_are_never_removed :
  forall (t0 : Now) (evs1 evs2 : list session_event) (st1 st2 : State),
    session_run (State_new t0) evs1 = Ok st1 ->
    session_run st1 evs2 = Ok st2 ->
    forall q,
      (node_at q (stack_root st1) <> None ->
       node_at q (stack_root st2) <> None) /\
      calls_at q (stack_root st1) <= calls_at q (stack_root st2).
Proof.
  intros t0 evs1 evs2 st1 st2 R1 R2 q. split.
  - exact (session_run_grows evs2 st1 st2 R2 q).
  - pose proof (session_run_ok evs1 _ _ (State_new_ok t0) R1) as O.
    rewrite (calls_at_run evs2 st1 st2 q O R2).
    pose proof (begins_at_nonneg q evs2 st1). lia.
Qed.

(** A kernel that has ended is still there after a region. *)
Lemma frames_are_never_removed_witness :
  exists st1 st2,
    session_run (State_new 0)
      [Se_frame (Fe_begin_kernel 1 "A" STACK_FOR);
       Se_frame (Fe_end_kernel 2 (Some [(STACK_FOR, "A")]))] = Ok st1 /\
    session_run st1
      [Se_frame (Fe_push_region 3 "R"); Se_frame (Fe_pop_region 4)] = Ok st2 /\
    calls_at [(STACK_FOR, "A")] (stack_root st1)
    <= calls_at [(STACK_FOR, "A")] (stack_root st2).
Proof.
  do 2 eexists. split; [reflexivity|]. split; [reflexivity|].
  apply (frames_are_never_removed 0
           [Se_frame (Fe_begin_kernel 1 "A" STACK_FOR);
            Se_frame (Fe_end_kernel 2 (Some [(STACK_FOR, "A")]))]
           [Se_frame (Fe_push_region 3 "R"); Se_frame (Fe_pop_region 4)]
           _ _ eq_refl eq_refl).
Defined.

(** * The durations in binary64: proofs *)

Module Binary64Facts.

Import PrimFloat SpecFloat FloatOps FloatAxioms.
Import Binary64.

Local Open Scope string_scope.
Local Open Scope Z_scope.
Local Open Scope list_scope.

(** ** Binary64 arithmetic *)

(** *** The literals of the source *)

(** [nano] and [threshold] are the binary64 numbers nearest to [1e-9] and
    to [0.1]: they are less than half a unit in the last place away. *)
Example nano_is_nearest :
  (real_value nano - (1 # 1000000000) < 1 # 2 ^ 83)%Q /\
  ((1 # 1000000000) - real_value nano < 1 # 2 ^ 83)%Q.
Proof. split; vm_compute; reflexivity. Qed.

Example threshold_is_nearest :
  (real_value threshold - (1 # 10) < 1 # 2 ^ 57)%Q /\
  ((1 # 10) - real_value threshold < 1 # 2 ^ 57)%Q.
Proof. split; vm_compute; reflexivity. Qed.

(** *** Comparison *)

Lemma SFcompare_lt_trans (a b c : spec_float) :
  SFcompare a b = Some Lt -> SFcompare b c = Some Lt ->
  SFcompare a c = Some Lt.
Proof. sf_cases a b c. Qed.

Lemma SFcompare_lt_eq (a b c : spec_float) :
  SFcompare a b = Some Lt -> SFcompare b c = Some Eq ->
  SFcompare a c = Some Lt.
Proof. sf_cases a b c. Qed.

Lemma SFcompare_eq_lt (a b c : spec_float) :
  SFcompare a b = Some Eq -> SFcompare b c = Some Lt ->
  SFcompare a c = Some Lt.
Proof. sf_cases a b c. Qed.

Lemma SFcompare_eq_trans (a b c : spec_float) :
  SFcompare a b = Some Eq -> SFcompare b c = Some Eq ->
  SFcompare a c = Some Eq.
Proof. sf_cases a b c. Qed.

Lemma SFcompare_eq_sym (a b : spec_float) :
  SFcompare a b = Some Eq -> SFcompare b a = Some Eq.
Proof. sf_cases2 a b. Qed.

Lemma SFcompare_lt_gt (a b : spec_float) :
  SFcompare a b = Some Lt -> SFcompare b a = Some Gt.
Proof. sf_cases2 a b. Qed.

Lemma ltb_Lt (x y : float) :
  (x <? y)%float = true <-> SFcompare (Prim2SF x) (Prim2SF y) = Some Lt.
Proof.
  rewrite ltb_spec. unfold SFltb.
  destruct (SFcompare (Prim2SF x) (Prim2SF y)) as [[| |]|]; split;
    congruence.
Qed.

Lemma eqb_Eq (x y : float) :
  (x =? y)%float = true <-> SFcompare (Prim2SF x) (Prim2SF y) = Some Eq.
Proof.
  rewrite eqb_spec. unfold SFeqb.
  destruct (SFcompare (Prim2SF x) (Prim2SF y)) as [[| |]|]; split;
    congruence.
Qed.

Lemma ltb_trans (x y z : float) :
  (x <? y)%float = true -> (y <? z)%float = true -> (x <? z)%float = true.
Proof. rewrite !ltb_Lt. apply SFcompare_lt_trans. Qed.

Lemma ltb_eqb (x y z : float) :
  (x <? y)%float = true -> (y =? z)%float = true -> (x <? z)%float = true.
Proof. rewrite !ltb_Lt, eqb_Eq. apply SFcompare_lt_eq. Qed.

Lemma eqb_ltb (x y z : float) :
  (x =? y)%float = true -> (y <? z)%float = true -> (x <? z)%float = true.
Proof. rewrite !ltb_Lt, eqb_Eq. apply SFcompare_eq_lt. Qed.

Lemma eqb_trans (x y z : float) :
  (x =? y)%float = true -> (y =? z)%float = true -> (x =? z)%float = true.
Proof. rewrite !eqb_Eq. apply SFcompare_eq_trans. Qed.

Lemma eqb_sym (x y : float) :
  (x =? y)%float = true -> (y =? x)%float = true.
Proof. rewrite !eqb_Eq. apply SFcompare_eq_sym. Qed.

Lemma ltb_not_eqb (x y : float) :
  (x <? y)%float = true -> (y =? x)%float = false.
Proof.
  rewrite ltb_Lt. intros H. apply SFcompare_lt_gt in H.
  apply not_true_iff_false. rewrite eqb_Eq. congruence.
Qed.

Lemma ltb_irrefl (x : float) : (x <? x)%float = false.
Proof.
  apply not_true_iff_false. intros H. apply ltb_Lt in H.
  pose proof (SFcompare_lt_gt _ _ H). congruence.
Qed.

Lemma SFcompare_gt_lt (a b : spec_float) :
  SFcompare a b = Some Gt -> SFcompare b a = Some Lt.
Proof. sf_cases2 a b. Qed.

Lemma SFcompare_None (a b : spec_float) :
  SFcompare a b = None -> a = S754_nan \/ b = S754_nan.
Proof.
  destruct a as [[|]|[|]| |[|] ? ?], b as [[|]|[|]| |[|] ? ?]; cbn;
    try discriminate; auto.
Qed.

Lemma is_nan_false (x : float) : is_nan x = false -> Prim2SF x <> S754_nan.
Proof.
  unfold is_nan. rewrite eqb_spec. intros H E. rewrite E in H.
  discriminate.
Qed.

(** Two numbers that are not NaN compare one way or the other. *)
Lemma compare_total (x y : float) :
  is_nan x = false -> is_nan y = false ->
  (x <? y)%float = true \/ (x =? y)%float = true \/ (y <? x)%float = true.
Proof.
  intros X Y. rewrite !ltb_Lt, eqb_Eq.
  destruct (SFcompare (Prim2SF x) (Prim2SF y)) as [[| |]|] eqn:E; auto.
  - right. right. now apply SFcompare_gt_lt.
  - destruct (SFcompare_None _ _ E) as [N|N];
      [now apply is_nan_false in X|now apply is_nan_false in Y].
Qed.

(** *** Division *)

Lemma div_eucl_exact (a b : Z) : 0 < b -> Z.div_eucl (a * b) b = (a, 0).
Proof.
  intros H.
  assert (E : Z.div_eucl (a * b) b = ((a * b) / b, (a * b) mod b)).
  { unfold Z.div, Z.modulo. now destruct (Z.div_eucl (a * b) b). }
  rewrite E, Z.div_mul, Z.mod_mul by lia. reflexivity.
Qed.

Lemma new_location_zero (n : Z) : new_location n 0 = loc_Exact.
Proof. unfold new_location. destruct (Z.even n); reflexivity. Qed.

(** A finite number other than zero divided by itself is one. *)
Lemma SFdiv_self (s : bool) (m : positive) (e : Z) :
  SFdiv prec emax (S754_finite s m e) (S754_finite s m e)
  = S754_finite false 4503599627370496 (-52).
Proof.
  unfold SFdiv, SFdiv_core_binary.
  rewrite !Z.sub_diag. 
  change (fexp prec emax 0) with (-53).
  change (Z.min (-53) 0) with (-53).
  change (0 - -53) with 53.
  rewrite Z.shiftl_mul_pow2 by lia.
  change (IntDef.Z.div_eucl (Z.pos m * 2 ^ 53) (Z.pos m))
    with (Z.div_eucl (Z.pos m * 2 ^ 53) (Z.pos m)).
  rewrite (Z.mul_comm (Z.pos m)).
  rewrite div_eucl_exact by lia.
  rewrite new_location_zero. rewrite xorb_nilpotent. reflexivity.
Qed.

Lemma div_self (x : float) (s : bool) (m : positive) (e : Z) :
  Prim2SF x = S754_finite s m e -> (x / x)%float = 1%float.
Proof.
  intros H. apply Prim2SF_inj. rewrite div_spec, H.
  unfold SF64div. rewrite SFdiv_self. reflexivity.
Qed.

Lemma bounded_facts (m : positive) (e : Z) :
  bounded prec emax m e = true ->
  fexp prec emax (Z.pos (digits2_pos m) + e) = e /\ e <= 971 /\
  -1074 <= e /\ (-1074 < e -> Z.pos (digits2_pos m) = 53).
Proof.
  unfold bounded, canonical_mantissa. rewrite andb_true_iff, Z.eqb_eq, Z.leb_le.
  unfold fexp, emin. change prec with 53. change emax with 1024.
  intros [C L]. repeat split; lia.
Qed.

Lemma round_exact (sx : bool) (m : positive) (e : Z) :
  bounded prec emax m e = true ->
  binary_round_aux prec emax sx (Z.pos m) e loc_Exact = S754_finite sx m e.
Proof.
  intros B. destruct (bounded_facts m e B) as [F [L _]].
  unfold binary_round_aux, shr_fexp. cbn [Zdigits2 shr_record_of_loc].
  rewrite F, Z.sub_diag.
  cbn [shr shr_m loc_of_shr_record round_nearest_even Zdigits2
         shr_record_of_loc].
  rewrite F, Z.sub_diag. cbn [shr shr_m].
  apply Z.leb_le in L. change (emax - prec) with 971. now rewrite L.
Qed.

Lemma round_exact_double (sx : bool) (m : positive) (e : Z) :
  bounded prec emax m e = true -> -1074 < e ->
  binary_round_aux prec emax sx (Z.pos m~0) (e - 1) loc_Exact
  = S754_finite sx m e.
Proof.
  intros B N. destruct (bounded_facts m e B) as [F [L [_ D]]].
  specialize (D N).
  unfold binary_round_aux, shr_fexp.
  cbn [Zdigits2 shr_record_of_loc digits2_pos].
  rewrite Pos2Z.inj_succ, D.
  assert (E : fexp prec emax (Z.succ 53 + (e - 1)) - (e - 1) = 1).
  { unfold fexp, emin. change prec with 53. change emax with 1024. lia. }
  rewrite E. cbn [shr iter_pos shr_1 orb shr_m loc_of_shr_record
                   round_nearest_even Zdigits2 shr_record_of_loc].
  replace (e - 1 + 1) with e by lia.
  rewrite F, Z.sub_diag. cbn [shr shr_m].
  apply Z.leb_le in L. change (emax - prec) with 971. now rewrite L.
Qed.

Lemma SFdiv_one (x : spec_float) :
  valid_binary x = true ->
  SFdiv prec emax x (S754_finite false 4503599627370496 (-52)) = x.
Proof.
  destruct x as [s|s| |s m e]; cbn [SFdiv valid_binary];
    try (intros _; now rewrite ?xorb_false_r).
  intros B. destruct (bounded_facts m e B) as [F [L [L' D]]].
  unfold SFdiv_core_binary. cbn [Zdigits2 digits2_pos Pos.succ].
  rewrite xorb_false_r.
  destruct (Z_lt_le_dec (-1074) e) as [N|N].
  - specialize (D N). rewrite D.
    assert (E : Z.min (fexp prec emax (53 + e - (Z.pos 53 + -52)))
                  (e - -52) = e - 1).
    { unfold fexp, emin. change prec with 53. change emax with 1024. lia. }
    rewrite E. replace (e - -52 - (e - 1)) with 53 by lia.
    rewrite Z.shiftl_mul_pow2 by lia.
    change (2 ^ 53) with (2 * 4503599627370496).
    rewrite Z.mul_assoc.
    change (IntDef.Z.div_eucl (Z.pos m * 2 * 4503599627370496) 4503599627370496)
      with (Z.div_eucl (Z.pos m * 2 * 4503599627370496) 4503599627370496).
    rewrite div_eucl_exact by lia. rewrite new_location_zero.
    replace (Z.pos m * 2) with (Z.pos m~0) by lia.
    now apply round_exact_double.
  - assert (e = -1074) by lia. subst e.
    assert (E : Z.min (fexp prec emax (Z.pos (digits2_pos m) + -1074
                                       - (Z.pos 53 + -52)))
                  (-1074 - -52) = -1074).
    { unfold fexp, emin in *. change prec with 53 in *.
      change emax with 1024 in *. lia. }
    rewrite E. change (-1074 - -52 - -1074) with 52.
    rewrite Z.shiftl_mul_pow2 by lia.
    change (2 ^ 52) with 4503599627370496.
    change (IntDef.Z.div_eucl (Z.pos m * 4503599627370496) 4503599627370496)
      with (Z.div_eucl (Z.pos m * 4503599627370496) 4503599627370496).
    rewrite div_eucl_exact by lia. rewrite new_location_zero.
    now apply round_exact.
Qed.

(** Division by one is exact. *)
Lemma div_one (x : float) : (x / 1)%float = x.
Proof.
  apply Prim2SF_inj. rewrite div_spec. unfold SF64div.
  change (Prim2SF 1) with (S754_finite false 4503599627370496 (-52)).
  apply SFdiv_one, Prim2SF_valid.
Qed.

(** What [finite_nonzero] says of the number. *)
Lemma finite_nonzero_spec (x : float) :
  finite_nonzero x = true -> exists s m e, Prim2SF x = S754_finite s m e.
Proof.
  unfold finite_nonzero, is_finite, is_nan, is_infinity, is_zero.
  rewrite !eqb_spec, abs_spec.
  change (Prim2SF infinity) with (S754_infinity false).
  change (Prim2SF zero) with (S754_zero false).
  destruct (Prim2SF x) as [[|]|[|]| |s m e]; cbn; try discriminate.
  intros _. eauto.
Qed.

(** Zero over a finite number other than zero, times 100, is below the
    threshold. *)
Lemma zero_share_below (t tree_time : float) :
  is_zero t = true -> finite_nonzero tree_time = true ->
  (t / tree_time * 100 <? threshold)%float = true.
Proof.
  intros Z F. destruct (finite_nonzero_spec _ F) as [s [m [e E]]].
  unfold is_zero in Z. rewrite eqb_spec in Z.
  change (Prim2SF zero) with (S754_zero false) in Z.
  rewrite ltb_spec, mul_spec, div_spec, E.
  change (Prim2SF 100) with (S754_finite false 7036874417766400 (-46)).
  change (Prim2SF threshold)
    with (S754_finite false 7205759403792794 (-56)).
  destruct (Prim2SF t) as [st|[|]| |[|] mt et]; try discriminate Z.
  destruct st, s; reflexivity.
Qed.
(** ** Trees and pointers

    The facts of the first part about [get_child], pointers and writes
    through them, for the frames of [Binary64]; the proofs are the same. *)

Lemma node_equiv_key_d (a b : StackNode) :
  equiv StackNode_lt a b = key_eqb (node_key a) (node_key b).
Proof. reflexivity. Qed.

Lemma find_child_cons_d (k : key) (c : StackNode) (cs : list StackNode) :
  find_child k (c :: cs) =
  if key_eqb (node_key c) k then Some c else find_child k cs.
Proof.
  unfold find_child. simpl. rewrite node_equiv_key_d, key_eqb_sym.
  destruct k; reflexivity.
Qed.

Lemma find_child_Some_d (k : key) (c : StackNode) (cs : list StackNode) :
  find_child k cs = Some c -> In c cs /\ node_key c = k.
Proof.
  induction cs as [|d cs IH]; [discriminate|].
  rewrite find_child_cons_d. destruct (key_eqb (node_key d) k) eqn:E.
  - intros [= <-]. apply key_eqb_eq in E. simpl; auto.
  - intros H. destruct (IH H). simpl; auto.
Qed.

Lemma find_child_None_d (k : key) (cs : list StackNode) :
  find_child k cs = None <-> ~ In k (map node_key cs).
Proof.
  induction cs as [|d cs IH]; [simpl; tauto|].
  rewrite find_child_cons_d. simpl.
  destruct (key_eqb (node_key d) k) eqn:E.
  - apply key_eqb_eq in E. split; [discriminate|tauto].
  - apply key_eqb_neq in E. rewrite IH. tauto.
Qed.

Lemma find_child_update_same_d (g : StackNode -> StackNode) (k : key)
  (cs : list StackNode) :
  (forall c, node_key (g c) = node_key c) ->
  find_child k (update_child k g cs) = option_map g (find_child k cs).
Proof.
  intros G. induction cs as [|d cs IH]; [reflexivity|].
  simpl. rewrite find_child_cons_d.
  destruct (key_eqb (node_key d) k) eqn:E.
  - now rewrite find_child_cons_d, G, E.
  - now rewrite find_child_cons_d, E.
Qed.

Lemma find_child_update_other_d (g : StackNode -> StackNode) (k l : key)
  (cs : list StackNode) :
  (forall c, node_key (g c) = node_key c) ->
  l <> k ->
  find_child l (update_child k g cs) = find_child l cs.
Proof.
  intros G N. induction cs as [|d cs IH]; [reflexivity|].
  simpl. destruct (key_eqb (node_key d) k) eqn:E.
  - rewrite !find_child_cons_d, G. apply key_eqb_eq in E.
    destruct (key_eqb (node_key d) l) eqn:E'; [|reflexivity].
    apply key_eqb_eq in E'. congruence.
  - rewrite !find_child_cons_d, IH. reflexivity.
Qed.

Lemma update_child_keys_d (g : StackNode -> StackNode) (k : key)
  (cs : list StackNode) :
  (forall c, node_key (g c) = node_key c) ->
  map node_key (update_child k g cs) = map node_key cs.
Proof.
  intros G. induction cs as [|d cs IH]; [reflexivity|].
  simpl. destruct (key_eqb (node_key d) k); simpl; now rewrite ?G, ?IH.
Qed.

Lemma get_child_candidate_d (n : StackNode) (nm : string) (k : StackKind) :
  set_find StackNode_lt (new_StackNode nm k) (children n)
  = find_child (k, nm) (children n).
Proof. reflexivity. Qed.

Lemma find_child_place_same_d (c : StackNode) (cs : list StackNode) :
  find_child (node_key c) cs = None ->
  find_child (node_key c) (set_place StackNode_lt c cs) = Some c.
Proof.
  induction cs as [|d cs IH]; simpl.
  - intros _. rewrite find_child_cons_d, key_eqb_refl. reflexivity.
  - rewrite find_child_cons_d. destruct (key_eqb (node_key d) (node_key c)) eqn:E;
      [discriminate|]. intros H.
    destruct (StackNode_lt c d).
    + rewrite find_child_cons_d, key_eqb_refl. reflexivity.
    + rewrite find_child_cons_d, E. auto.
Qed.

Lemma find_child_place_other_d (k : key) (c : StackNode) (cs : list StackNode) :
  node_key c <> k ->
  find_child k (set_place StackNode_lt c cs) = find_child k cs.
Proof.
  intros N. apply key_eqb_neq in N.
  induction cs as [|d cs IH]; simpl.
  - now rewrite find_child_cons_d, N.
  - destruct (StackNode_lt c d).
    + now rewrite find_child_cons_d, N.
    + rewrite !find_child_cons_d, IH. reflexivity.
Qed.

Lemma get_child_children_d (n : StackNode) (nm : string) (k : StackKind) :
  children (get_child n nm k) =
  match find_child (k, nm) (children n) with
  | Some _ => children n
  | None => set_place StackNode_lt (new_StackNode nm k) (children n)
  end.
Proof.
  unfold get_child, set_emplace. rewrite get_child_candidate_d.
  destruct (find_child _ _); reflexivity.
Qed.

Lemma get_child_find_same_d (n : StackNode) (nm : string) (k : StackKind) :
  find_child (k, nm) (children (get_child n nm k)) =
  match find_child (k, nm) (children n) with
  | Some c => Some c
  | None => Some (new_StackNode nm k)
  end.
Proof.
  rewrite get_child_children_d. destruct (find_child (k, nm) (children n)) eqn:E;
    [exact E|].
  apply (find_child_place_same_d (new_StackNode nm k)). exact E.
Qed.

Lemma get_child_find_other_d (n : StackNode) (nm : string) (k : StackKind)
  (l : key) :
  l <> (k, nm) ->
  find_child l (children (get_child n nm k)) = find_child l (children n).
Proof.
  intros N. rewrite get_child_children_d.
  destruct (find_child (k, nm) (children n)); [reflexivity|].
  apply find_child_place_other_d. intros E. apply N. now rewrite <- E.
Qed.

Lemma bare_key_d (n n' : StackNode) : bare n = bare n' -> node_key n = node_key n'.
Proof. unfold bare, set_children, node_key. intros [= -> -> _]. reflexivity. Qed.

Lemma bare_total_d (n n' : StackNode) :
  bare n = bare n' -> total_runtime n = total_runtime n'.
Proof. unfold bare, set_children. now intros [= _ _ -> _]. Qed.

Lemma keeps_fields_key_d (f : StackNode -> StackNode) :
  keeps_fields f -> keeps_key f.
Proof. intros H n. apply bare_key_d, H. Qed.

Lemma get_child_keeps_fields_d (nm : string) (k : StackKind) :
  keeps_fields (fun n => get_child n nm k).
Proof.
  intros n. unfold get_child. destruct (set_find _ _ _); reflexivity.
Qed.

Lemma modify_at_key_d (f : StackNode -> StackNode) (p : path) (n : StackNode) :
  keeps_key f -> node_key (modify_at f p n) = node_key n.
Proof. intros F. destruct p; [apply F|reflexivity]. Qed.

(** The node read at [q] after a write at [p]. *)
Lemma node_at_modify_at_d (f : StackNode -> StackNode) :
  keeps_key f ->
  forall (p q : path) (t : StackNode),
    node_at q (modify_at f p t) =
    match strip_prefix p q with
    | Some r =>
        match node_at p t with
        | Some n => node_at r (f n)
        | None => None
        end
    | None =>
        match strip_prefix q p with
        | Some r => option_map (modify_at f r) (node_at q t)
        | None => node_at q t
        end
    end.
Proof.
  intros F. induction p as [|k p IH]; intros q t.
  - reflexivity.
  - destruct q as [|l q].
    + reflexivity.
    + cbn [strip_prefix modify_at node_at].
      assert (G : forall c, node_key (modify_at f p c) = node_key c) by
        (intros c; now apply modify_at_key_d).
      change (children (set_children t
                (update_child k (modify_at f p) (children t))))
        with (update_child k (modify_at f p) (children t)).
      rewrite (key_eqb_sym k l).
      destruct (key_eqb l k) eqn:E.
      * apply key_eqb_eq in E. subst l.
        rewrite (find_child_update_same_d _ k _ G).
        destruct (find_child k (children t)) as [c|] eqn:C; simpl.
        -- apply IH.
        -- destruct (strip_prefix p q); [reflexivity|].
           destruct (strip_prefix q p); reflexivity.
      * apply key_eqb_neq in E.
        rewrite (find_child_update_other_d _ k l _ G E). reflexivity.
Qed.

Lemma node_at_modify_at_same_d (f : StackNode -> StackNode) (p : path)
  (t : StackNode) :
  keeps_key f ->
  node_at p (modify_at f p t) = option_map f (node_at p t).
Proof.
  intros F. rewrite (node_at_modify_at_d f F), strip_prefix_refl.
  destruct (node_at p t); reflexivity.
Qed.

Lemma node_at_app_d (p r : path) (t : StackNode) :
  node_at (p ++ r) t =
  match node_at p t with
  | Some n => node_at r n
  | None => None
  end.
Proof.
  revert t. induction p as [|k p IH]; intros t; simpl; [reflexivity|].
  destruct (find_child k (children t)); [apply IH|reflexivity].
Qed.

Lemma node_at_children_only_d (n n' : StackNode) (r : path) :
  children n = children n' -> r <> [] -> node_at r n = node_at r n'.
Proof.
  intros C R. destruct r as [|k r]; [congruence|]. simpl. now rewrite C.
Qed.

(** A write that keeps the children leaves every other node's own fields
    alone, and no node appears or disappears. *)
Lemma node_at_modify_at_other_d (f : StackNode -> StackNode) (p q : path)
  (t : StackNode) :
  keeps_key f -> keeps_children f -> q <> p ->
  option_map bare (node_at q (modify_at f p t)) = option_map bare (node_at q t).
Proof.
  intros F C N. rewrite (node_at_modify_at_d f F).
  destruct (strip_prefix p q) as [r|] eqn:S1.
  - apply strip_prefix_Some in S1. subst q.
    rewrite node_at_app_d. destruct (node_at p t) as [n|]; [|reflexivity].
    f_equal. apply node_at_children_only_d; [apply C|].
    intros ->. apply N. now rewrite app_nil_r.
  - destruct (strip_prefix q p) as [r|] eqn:S2; [|reflexivity].
    apply strip_prefix_Some in S2. subst p.
    destruct (node_at q t) as [n|]; [|reflexivity]. simpl. f_equal.
    destruct r as [|k r]; [exfalso; apply N; now rewrite app_nil_r|].
    reflexivity.
Qed.

(** A write that keeps the fields (and may add children): nodes that were
    there stay, with their own fields. *)
Lemma node_at_grow_d (f : StackNode -> StackNode) (p q : path)
  (t n : StackNode) :
  keeps_fields f ->
  (forall m l c, find_child l (children m) = Some c ->
                 find_child l (children (f m)) = Some c) ->
  node_at q t = Some n ->
  exists n', node_at q (modify_at f p t) = Some n' /\ bare n' = bare n.
Proof.
  intros F G H. rewrite (node_at_modify_at_d f (keeps_fields_key_d f F)).
  destruct (strip_prefix p q) as [r|] eqn:S1.
  - apply strip_prefix_Some in S1. subst q.
    rewrite node_at_app_d in H. destruct (node_at p t) as [m|]; [|discriminate].
    destruct r as [|l r]; simpl in *.
    + injection H as <-. eexists. split; [reflexivity|apply F].
    + destruct (find_child l (children m)) as [c|] eqn:C; [|discriminate].
      rewrite (G m l c C). eauto.
  - destruct (strip_prefix q p) as [r|] eqn:S2.
    + rewrite H. simpl. eexists. split; [reflexivity|].
      apply strip_prefix_Some in S2. subst p.
      destruct r as [|k r]; [|reflexivity].
      rewrite app_nil_r, strip_prefix_refl in S1. discriminate.
    + eauto.
Qed.

Lemma get_child_find_keep_d (nm : string) (k : StackKind) (m : StackNode)
  (l : key) (c : StackNode) :
  find_child l (children m) = Some c ->
  find_child l (children (get_child m nm k)) = Some c.
Proof.
  intros H. destruct (key_eq_dec l (k, nm)) as [->|N].
  - rewrite get_child_find_same_d, H. reflexivity.
  - rewrite get_child_find_other_d; assumption.
Qed.

Lemma get_child_at_keeps_d (root : StackNode) (p q : path) (nm : string)
  (k : StackKind) (n : StackNode) :
  node_at q root = Some n ->
  exists n', node_at q (fst (get_child_at root p nm k)) = Some n' /\
             bare n' = bare n.
Proof.
  apply node_at_grow_d.
  - apply get_child_keeps_fields_d.
  - intros m l c. apply get_child_find_keep_d.
Qed.

(** The returned pointer of [get_child] points to a node with the asked
    key: the child that was there, or a new one with zero counters. *)
Lemma get_child_at_result_d (root : StackNode) (p : path) (nm : string)
  (k : StackKind) (n : StackNode) :
  node_at p root = Some n ->
  node_at (snd (get_child_at root p nm k)) (fst (get_child_at root p nm k)) =
  match find_child (k, nm) (children n) with
  | Some c => Some c
  | None => Some (new_StackNode nm k)
  end.
Proof.
  intros H. unfold get_child_at. cbn [fst snd].
  rewrite (node_at_modify_at_d _ (keeps_fields_key_d _ (get_child_keeps_fields_d nm k))).
  rewrite strip_prefix_app, H. simpl. rewrite get_child_find_same_d.
  destruct (find_child (k, nm) (children n)); reflexivity.
Qed.

Lemma tree_size_pos_d (n : StackNode) : (0 < tree_size n)%nat.
Proof. destruct n; simpl; lia. Qed.

Lemma tree_size_unfold_d (n : StackNode) :
  tree_size n = S (list_sum (map tree_size (children n))).
Proof. destruct n; reflexivity. Qed.

Lemma queue_size_app_d (q q' : list (StackNode * list key)) :
  queue_size (q ++ q') = (queue_size q + queue_size q')%nat.
Proof. unfold queue_size. now rewrite map_app, list_sum_app. Qed.

Lemma queue_size_children_d (cs : list StackNode) (anc : list key) :
  queue_size (map (fun child => (child, anc)) cs)
  = list_sum (map tree_size cs).
Proof. unfold queue_size. rewrite map_map. reflexivity. Qed.

(** Induction on trees. *)
Lemma StackNode_tree_ind_d (P : StackNode -> Prop) :
  (forall n, Forall P (children n) -> P n) -> forall n, P n.
Proof.
  intros H. fix IH 1. intros [nm kd cs tot mx av calls st]. apply H. simpl.
  induction cs as [|c cs IHcs]; constructor; [apply IH|exact IHcs].
Qed.

Lemma StackNode_lt_trans_d (a b c : StackNode) :
  StackNode_lt a b = true -> StackNode_lt b c = true -> StackNode_lt a c = true.
Proof. apply key_lt_trans. Qed.

Lemma sorted_children_NoDup_d (cs : list StackNode) :
  sortedb StackNode_lt cs = true -> NoDup (map node_key cs).
Proof.
  induction cs as [|c cs IH]; intros H; [constructor|].
  destruct (sortedb_cons _ _ _ StackNode_lt_trans_d H) as [F S].
  simpl. constructor; [|now apply IH].
  intros Hin. apply in_map_iff in Hin. destruct Hin as [d [K Hd]].
  rewrite Forall_forall in F. specialize (F d Hd).
  unfold StackNode_lt in F. rewrite K, key_lt_irrefl in F. discriminate.
Qed.

Lemma wf_children_d (n : StackNode) :
  wf n = true ->
  NoDup (child_keys n) /\ forall c, In c (children n) -> wf c = true.
Proof.
  destruct n as [nm kd cs tot mx av calls st]. cbn [wf children child_keys].
  rewrite andb_true_iff, forallb_forall. intros [S F].
  split; [now apply sorted_children_NoDup_d|exact F].
Qed.

Lemma wf_node_at_d (p : path) :
  forall t n, wf t = true -> node_at p t = Some n -> wf n = true.
Proof.
  induction p as [|k p IH]; intros t n W H; simpl in H.
  - now injection H as <-.
  - destruct (find_child k (children t)) as [c|] eqn:C; [|discriminate].
    apply (IH c n); [|exact H].
    apply (proj2 (wf_children_d t W)). now apply find_child_Some_d in C.
Qed.

Lemma find_child_own_d (c : StackNode) (cs : list StackNode) :
  NoDup (map node_key cs) -> In c cs -> find_child (node_key c) cs = Some c.
Proof.
  induction cs as [|d cs IH]; intros N H; [destruct H|].
  simpl in N. inversion N as [|? ? N1 N2]; subst.
  rewrite find_child_cons_d. destruct H as [->|H].
  - now rewrite key_eqb_refl.
  - destruct (key_eqb (node_key d) (node_key c)) eqn:E; [|now apply IH].
    apply key_eqb_eq in E. exfalso. apply N1. rewrite E. now apply in_map.
Qed.

Lemma find_child_key_In_d (k : key) (cs : list StackNode) :
  In k (map node_key cs) -> exists c, find_child k cs = Some c.
Proof.
  intros H. destruct (find_child k cs) eqn:E; [eauto|].
  apply find_child_None_d in E. contradiction.
Qed.

(** Every node of a well-formed tree is the target of a pointer. *)
Lemma nodes_reachable_d (t : StackNode) :
  wf t = true ->
  forall n, In n (nodes t) -> exists p, node_at p t = Some n.
Proof.
  induction t as [t IH] using StackNode_tree_ind_d. intros W n H.
  destruct t as [nm kd cs tot mx av calls st]. cbn [nodes children] in *.
  destruct H as [<-|H]; [exists []; reflexivity|].
  apply in_flat_map in H. destruct H as [c [Hc Hn]].
  destruct (wf_children_d _ W) as [N F]. cbn [children child_keys] in N, F.
  rewrite Forall_forall in IH.
  destruct (IH c Hc (F c Hc) n Hn) as [p Hp].
  exists (node_key c :: p). cbn [node_at children].
  now rewrite (find_child_own_d c cs N Hc).
Qed.

Lemma child_keys_modify_at_d (f : StackNode -> StackNode) (p q : path)
  (t : StackNode) :
  keeps_key f -> keeps_children f ->
  option_map child_keys (node_at q (modify_at f p t))
  = option_map child_keys (node_at q t).
Proof.
  intros F C. rewrite (node_at_modify_at_d f F).
  destruct (strip_prefix p q) as [r|] eqn:S1.
  - apply strip_prefix_Some in S1. subst q. rewrite node_at_app_d.
    destruct (node_at p t) as [n|]; [|reflexivity].
    destruct r as [|k r].
    + simpl. unfold child_keys. now rewrite C.
    + f_equal. apply node_at_children_only_d; [apply C|discriminate].
  - destruct (strip_prefix q p) as [r|] eqn:S2; [|reflexivity].
    destruct (node_at q t) as [n|]; [|reflexivity]. simpl. f_equal.
    destruct r as [|k r]; simpl.
    + unfold child_keys. now rewrite C.
    + unfold child_keys. simpl. apply update_child_keys_d.
      intros c. now apply modify_at_key_d.
Qed.

Lemma shape_modify_at_d (f : StackNode -> StackNode) (p : path) :
  keeps_key f -> keeps_children f ->
  forall t, shape (modify_at f p t) = shape t.
Proof.
  intros F C. induction p as [|k p IH]; intros t.
  - destruct t as [nm kd cs tot mx av calls st]. simpl.
    specialize (F (mkStackNode nm kd cs tot mx av calls st)).
    specialize (C (mkStackNode nm kd cs tot mx av calls st)).
    destruct (f (mkStackNode nm kd cs tot mx av calls st)). simpl in *.
    now rewrite F, C.
  - destruct t as [nm kd cs tot mx av calls st]. simpl. f_equal.
    induction cs as [|c cs IHcs]; [reflexivity|]. simpl.
    destruct (key_eqb (node_key c) k); simpl; [now rewrite IH|].
    now rewrite IHcs.
Qed.

Lemma local_total_bare_d (p : path) (t t' : StackNode) :
  option_map bare (node_at p t) = option_map bare (node_at p t') ->
  local_total p t = local_total p t'.
Proof.
  unfold local_total.
  destruct (node_at p t) as [n|], (node_at p t') as [n'|]; cbn [option_map];
    try discriminate; [|reflexivity].
  intros H. apply bare_total_d. congruence.
Qed.

(** A frame that was pending and is no more is the visited one. *)
Lemma pending_before_d (this : StackNode) (q : path) (queue : list path)
  (p : path) (n0 : StackNode) :
  node_at q this = Some n0 ->
  node_at p this <> None ->
  pending (q :: queue) p ->
  ~ pending (push_children queue q (child_keys n0)) p ->
  p = q.
Proof.
  intros H0 Hp [a [r [Ha E]]] N. destruct Ha as [<-|Ha].
  - destruct r as [|k r]; [now rewrite app_nil_r in E|]. exfalso. apply N.
    exists (q ++ [k]), r. split; [|now rewrite <- app_assoc].
    apply in_push_children. right. exists k. split; [|reflexivity].
    subst p. rewrite node_at_app_d, H0 in Hp. simpl in Hp.
    destruct (find_child k (children n0)) as [c|] eqn:C; [|congruence].
    apply find_child_Some_d in C. destruct C as [Hin <-].
    unfold child_keys. now apply in_map.
  - exfalso. apply N. exists a, r. split; [|exact E].
    apply in_push_children. auto.
Qed.

Lemma unvisited_app_d (this : StackNode) (a b : list path) :
  unvisited this (a ++ b) = (unvisited this a + unvisited this b)%nat.
Proof. unfold unvisited. now rewrite map_app, list_sum_app. Qed.

Lemma unvisited_children_d (this : StackNode) (q : path) (n0 : StackNode) :
  wf this = true ->
  node_at q this = Some n0 ->
  unvisited this (map (fun k => q ++ [k]) (child_keys n0))
  = list_sum (map tree_size (children n0)).
Proof.
  intros W H0. pose proof (wf_node_at_d q this n0 W H0) as W0.
  destruct (wf_children_d n0 W0) as [N _]. unfold unvisited, child_keys.
  rewrite !map_map. f_equal. apply map_ext_in. intros c Hc.
  rewrite node_at_app_d, H0. simpl.
  now rewrite (find_child_own_d c (children n0) N Hc).
Qed.

(** Each turn visits one node. *)
Lemma unvisited_push_d (this : StackNode) (q : path) (queue : list path)
  (n0 : StackNode) :
  wf this = true ->
  node_at q this = Some n0 ->
  unvisited this (q :: queue)
  = S (unvisited this (push_children queue q (child_keys n0))).
Proof.
  intros W H0. unfold push_children.
  rewrite unvisited_app_d, (unvisited_children_d this q n0 W H0).
  unfold unvisited at 1. simpl. rewrite H0, tree_size_unfold_d.
  fold (unvisited this queue). lia.
Qed.

Lemma shape_unfold_d (n : StackNode) :
  shape n = KT (node_key n) (map shape (children n)).
Proof. now destruct n. Qed.

Lemma shape_root_key_d (n : StackNode) :
  node_key n = match shape n with KT k _ => k end.
Proof. now rewrite shape_unfold_d. Qed.

Lemma shape_child_keys_d (a b : StackNode) :
  shape a = shape b -> child_keys a = child_keys b.
Proof.
  rewrite (shape_unfold_d a), (shape_unfold_d b). intros E.
  assert (H : map shape (children a) = map shape (children b)) by congruence.
  unfold child_keys.
  rewrite (map_ext _ _ shape_root_key_d (children a)).
  rewrite (map_ext _ _ shape_root_key_d (children b)).
  rewrite <- !(map_map shape (fun s => match s with KT k _ => k end)).
  now rewrite H.
Qed.

Lemma sortedb_keys_d (cs cs' : list StackNode) :
  map node_key cs = map node_key cs' ->
  sortedb StackNode_lt cs = sortedb StackNode_lt cs'.
Proof.
  revert cs'. induction cs as [|c cs IH]; destruct cs' as [|c' cs'];
    try discriminate; [reflexivity|].
  intros H. assert (K : node_key c = node_key c') by (simpl in H; congruence).
  assert (T : map node_key cs = map node_key cs') by (simpl in H; congruence).
  specialize (IH cs' T). cbn [sortedb].
  destruct cs as [|d cs], cs' as [|d' cs']; try discriminate; [reflexivity|].
  assert (K' : node_key d = node_key d') by (simpl in T; congruence).
  unfold StackNode_lt at 1 3. rewrite K, K'. f_equal. exact IH.
Qed.

Lemma wf_unfold_d (n : StackNode) :
  wf n = sortedb StackNode_lt (children n) && forallb wf (children n).
Proof. now destruct n. Qed.

(** Well-formedness is a property of the shape. *)
Lemma wf_shape_d (a : StackNode) :
  forall b, shape a = shape b -> wf a = true -> wf b = true.
Proof.
  induction a as [a IH] using StackNode_tree_ind_d. intros b E W.
  rewrite wf_unfold_d in *. apply andb_true_iff in W. destruct W as [S F].
  pose proof (shape_child_keys_d a b E) as K.
  rewrite (shape_unfold_d a), (shape_unfold_d b) in E.
  assert (C : map shape (children a) = map shape (children b)) by congruence.
  apply andb_true_iff. split.
  - rewrite <- (sortedb_keys_d _ _ K). exact S.
  - clear K E S. revert C IH F. generalize (children b).
    induction (children a) as [|c cs IHcs]; intros [|c' cs'] C IH F;
      try discriminate; [reflexivity|].
    inversion IH as [|? ? IH1 IH2]; subst. simpl in F.
    apply andb_true_iff in F. destruct F as [F1 F2]. simpl.
    assert (C1 : shape c = shape c') by (simpl in C; congruence).
    assert (C2 : map shape cs = map shape cs') by (simpl in C; congruence).
    rewrite (IH1 c' C1 F1). simpl. now apply IHcs.
Qed.

Lemma nodes_unfold_d (n : StackNode) :
  nodes n = n :: flat_map nodes (children n).
Proof. now destruct n. Qed.

Lemma forallb_update_child_d (P : StackNode -> bool) (k : key)
  (g : StackNode -> StackNode) (cs : list StackNode) :
  (forall c, P c = true -> P (g c) = true) ->
  forallb P cs = true -> forallb P (update_child k g cs) = true.
Proof.
  intros G. induction cs as [|c cs IH]; simpl; [auto|].
  rewrite andb_true_iff. intros [H1 H2].
  destruct (key_eqb (node_key c) k); simpl; rewrite ?H1, ?H2, ?G, ?IH; auto.
Qed.

(** [get_child] keeps the children set in order. *)
Lemma wf_get_child_d (n : StackNode) (nm : string) (k : StackKind) :
  wf n = true -> wf (get_child n nm k) = true.
Proof.
  intros W. rewrite wf_unfold_d in W. apply andb_true_iff in W.
  destruct W as [S F]. rewrite wf_unfold_d, get_child_children_d.
  destruct (find_child (k, nm) (children n)) eqn:E.
  - now rewrite S, F.
  - apply andb_true_iff. split.
    + apply (sortedb_StronglySorted _ _ StackNode_lt_trans_d).
      apply (set_place_sorted _ _ StackNode_lt_trans_d).
      * now apply (sortedb_StronglySorted _ _ StackNode_lt_trans_d).
      * exact E.
    + rewrite forallb_forall in *. intros c Hc.
      apply set_place_In in Hc. destruct Hc as [->|Hc]; [reflexivity|auto].
Qed.

(** A write through a pointer keeps the tree in order when the written node
    stays in order and keeps its key. *)
Lemma wf_modify_at_d (f : StackNode -> StackNode) (p : path) :
  (forall n, wf n = true -> wf (f n) = true) ->
  keeps_key f ->
  forall t, wf t = true -> wf (modify_at f p t) = true.
Proof.
  intros F K. induction p as [|k p IH]; intros t W; [now apply F|].
  cbn [modify_at]. rewrite wf_unfold_d in *. cbn [set_children children].
  apply andb_true_iff in W. destruct W as [S A]. apply andb_true_iff. split.
  - rewrite <- S. apply sortedb_keys_d, update_child_keys_d.
    intros c. now apply modify_at_key_d.
  - apply forallb_update_child_d; [|exact A]. intros c. apply IH.
Qed.

Lemma wf_get_child_at_d (root : StackNode) (p : path) (nm : string)
  (k : StackKind) :
  wf root = true -> wf (fst (get_child_at root p nm k)) = true.
Proof.
  intros W. unfold get_child_at. cbn [fst]. apply wf_modify_at_d; auto.
  - intros n. apply wf_get_child_d.
  - apply keeps_fields_key_d, get_child_keeps_fields_d.
Qed.

Lemma get_child_at_only_new_d (root : StackNode) (p q : path) (nm : string)
  (k : StackKind) :
  node_at q (fst (get_child_at root p nm k)) <> None ->
  node_at q root = None ->
  q = p ++ [(k, nm)].
Proof.
  unfold get_child_at. cbn [fst].
  rewrite (node_at_modify_at_d _ (keeps_fields_key_d _ (get_child_keeps_fields_d nm k))).
  destruct (strip_prefix p q) as [r|] eqn:S1.
  - apply strip_prefix_Some in S1. subst q. rewrite node_at_app_d.
    destruct (node_at p root) as [n|]; [|congruence].
    destruct r as [|l r]; [simpl; congruence|]. simpl.
    destruct (key_eq_dec l (k, nm)) as [->|N].
    + rewrite get_child_find_same_d.
      destruct (find_child (k, nm) (children n)) as [c|]; [congruence|].
      destruct r as [|l' r]; simpl; [intros _ _; reflexivity|].
      intros X. now contradiction X.
    + rewrite (get_child_find_other_d n nm k l N). congruence.
  - destruct (strip_prefix q p) as [r|]; [|congruence].
    destruct (node_at q root); simpl; congruence.
Qed.

Lemma get_child_at_bare_other_d (root : StackNode) (p q : path) (nm : string)
  (k : StackKind) :
  q <> p ++ [(k, nm)] ->
  option_map bare (node_at q (fst (get_child_at root p nm k)))
  = option_map bare (node_at q root).
Proof.
  intros N. destruct (node_at q root) as [n|] eqn:E.
  - destruct (get_child_at_keeps_d root p q nm k n E) as [n' [H B]].
    rewrite H. simpl. now f_equal.
  - destruct (node_at q (fst (get_child_at root p nm k))) eqn:E';
      [|reflexivity].
    exfalso. apply N. apply (get_child_at_only_new_d root p q nm k);
      congruence.
Qed.

Lemma bare_calls_d (n n' : StackNode) :
  bare n = bare n' -> number_of_calls n = number_of_calls n'.
Proof. unfold bare, set_children. now intros [= _ _ _ _ _ -> _]. Qed.

Lemma calls_at_bare_d (q : path) (t t' : StackNode) :
  option_map bare (node_at q t) = option_map bare (node_at q t') ->
  calls_at q t = calls_at q t'.
Proof.
  unfold calls_at.
  destruct (node_at q t) as [n|], (node_at q t') as [n'|]; cbn [option_map];
    try discriminate; [|reflexivity].
  intros H. apply bare_calls_d. congruence.
Qed.

Lemma add_time_keeps_key_d (s : float) (c : Z) : keeps_key (add_time s c).
Proof. intros n. reflexivity. Qed.

Lemma add_time_keeps_children_d (s : float) (c : Z) : keeps_children (add_time s c).
Proof. intros n. reflexivity. Qed.

Lemma wf_add_time_d (s : float) (c : Z) (n : StackNode) :
  wf n = true -> wf (add_time s c n) = true.
Proof. intros W. rewrite wf_unfold_d in *. exact W. Qed.

(** The walk of the inner loop writes below its starting point only. *)
Lemma invert_walk_shallow_d (s : float) (c : Z) (chain : list key) :
  forall (root : StackNode) (p q : path),
    (List.length q <= List.length p)%nat ->
    option_map bare (node_at q (invert_walk chain s c root p))
    = option_map bare (node_at q root).
Proof.
  induction chain as [|k chain IH]; intros root p q L; [reflexivity|].
  cbn [invert_walk]. unfold get_child_at. cbn [fst snd].
  assert (N : q <> (p ++ [(fst k, snd k)])%list).
  { intros ->. rewrite length_app in L. simpl in L. lia. }
  rewrite IH by (rewrite length_app; simpl; lia).
  rewrite node_at_modify_at_other_d;
    auto using add_time_keeps_key_d, add_time_keeps_children_d.
  exact (get_child_at_bare_other_d root p q (snd k) (fst k) N).
Qed.

Lemma wf_invert_walk_d (s : float) (c : Z) (chain : list key) :
  forall (root : StackNode) (p : path),
    wf root = true -> wf (invert_walk chain s c root p) = true.
Proof.
  induction chain as [|k chain IH]; intros root p W; [exact W|].
  cbn [invert_walk]. apply IH. apply wf_modify_at_d.
  - intros n. apply wf_add_time_d.
  - apply add_time_keeps_key_d.
  - now apply wf_get_child_at_d.
Qed.

Lemma wf_invert_visit_d (n : StackNode) (anc : list key) (r : StackNode) :
  wf r = true -> wf (invert_visit n anc r) = true.
Proof.
  intros W. unfold invert_visit. apply wf_invert_walk_d.
  cbn [modify_at]. now apply wf_add_time_d.
Qed.

Lemma bare_invert_visit_d (n : StackNode) (anc : list key) (r : StackNode) :
  bare (invert_visit n anc r)
  = bare (add_time (self_time_of n) (number_of_calls n) r).
Proof.
  unfold invert_visit.
  pose proof (invert_walk_shallow_d (self_time_of n) (number_of_calls n)
                (node_key n :: anc)
                (modify_at (add_time (self_time_of n) (number_of_calls n)) [] r)
                [] [] (le_n _)) as H.
  cbn [node_at option_map modify_at] in H. cbn [modify_at]. congruence.
Qed.

Lemma option_map_bare_Some_d (o : option StackNode) (x : StackNode) :
  option_map bare o = Some (bare x) ->
  exists c', o = Some c' /\ bare c' = bare x.
Proof.
  destruct o as [c'|]; cbn [option_map]; [|discriminate].
  intros H. exists c'. split; [reflexivity|congruence].
Qed.

Lemma found_or_new_d (f : StackNode -> StackNode) (o : option StackNode)
  (d : StackNode) :
  option_map bare
    (option_map f match o with Some c => Some c | None => Some d end)
  = Some (bare (f match o with Some c => c | None => d end)).
Proof. now destruct o. Qed.

(** What a visit does to a frame of the first level. *)
Lemma invert_visit_first_level_node_d (n : StackNode) (anc : list key)
  (r : StackNode) (k : key) :
  if key_eqb (node_key n) k
  then exists c',
      node_at [k] (invert_visit n anc r) = Some c' /\
      bare c' = bare (add_time (self_time_of n) (number_of_calls n)
                        match find_child k (children r) with
                        | Some c0 => c0
                        | None => new_StackNode (snd k) (fst k)
                        end)
  else option_map bare (node_at [k] (invert_visit n anc r))
       = option_map bare (node_at [k] r).
Proof.
  pose (s := self_time_of n). pose (c := number_of_calls n).
  pose (r0 := modify_at (add_time s c) [] r).
  pose (x := fst (get_child_at r0 [] (name n) (kind n))).
  pose (r1 := modify_at (add_time s c) [node_key n] x).
  pose proof (invert_walk_shallow_d s c anc r1 [node_key n] [k] (le_n _)) as W.
  destruct (key_eqb (node_key n) k) eqn:E.
  - apply key_eqb_eq in E. subst k.
    pose proof (node_at_modify_at_same_d (add_time s c) [node_key n] x
                  (add_time_keeps_key_d s c)) as M.
    pose proof (get_child_at_result_d r0 [] (name n) (kind n) r0 eq_refl) as R.
    pose proof (eq_trans W
                  (f_equal (option_map bare)
                     (eq_trans M (f_equal (option_map (add_time s c)) R))))
      as Z.
    exact (option_map_bare_Some_d _ _
             (eq_trans Z (found_or_new_d (add_time s c)
                            (find_child (node_key n) (children r))
                            (new_StackNode (name n) (kind n))))).
  - assert (N : [k] <> [node_key n]).
    { intros [= ->]. now rewrite key_eqb_refl in E. }
    pose proof (node_at_modify_at_other_d (add_time s c) [node_key n] [k] x
                  (add_time_keeps_key_d s c) (add_time_keeps_children_d s c) N)
      as M.
    pose proof (get_child_at_bare_other_d r0 [] [k] (name n) (kind n) N) as G.
    assert (N0 : [k] <> []) by discriminate.
    pose proof (node_at_modify_at_other_d (add_time s c) [] [k] r
                  (add_time_keeps_key_d s c) (add_time_keeps_children_d s c) N0)
      as M0.
    exact (eq_trans W (eq_trans M (eq_trans G M0))).
Qed.

Lemma invert_visit_calls_at_d (n : StackNode) (anc : list key)
  (r : StackNode) (k : key) :
  calls_at [k] (invert_visit n anc r)
  = (calls_at [k] r
     + (if key_eqb (node_key n) k then number_of_calls n else 0))%Z.
Proof.
  pose proof (invert_visit_first_level_node_d n anc r k) as H.
  destruct (key_eqb (node_key n) k).
  - destruct H as [c' [E B]]. unfold calls_at. rewrite E.
    rewrite (bare_calls_d _ _ B). cbn [add_time number_of_calls node_at].
    destruct (find_child k (children r)); reflexivity.
  - rewrite (calls_at_bare_d _ _ _ H). lia.
Qed.

(** ** The bottom-up tree *)

Local Open Scope Z_scope.
Local Open Scope list_scope.

Lemma invert_visit_local_total_d (n : StackNode) (anc : list key)
  (r : StackNode) (k : key) :
  local_total [k] (invert_visit n anc r)
  = if key_eqb (node_key n) k
    then (local_total [k] r + self_time_of n)%float
    else local_total [k] r.
Proof.
  pose proof (invert_visit_first_level_node_d n anc r k) as H.
  destruct (key_eqb (node_key n) k).
  - destruct H as [c' [E B]]. unfold local_total. rewrite E.
    rewrite (bare_total_d _ _ B). cbn [add_time total_runtime node_at].
    destruct (find_child k (children r)); reflexivity.
  - exact (local_total_bare_d _ _ _ H).
Qed.

(** A visit creates the child with the key of the visited frame and no
    other child of the root. *)
Lemma invert_visit_first_level_exists_d (n : StackNode) (anc : list key)
  (r : StackNode) (k : key) :
  node_at [k] (invert_visit n anc r) <> None <->
  node_key n = k \/ node_at [k] r <> None.
Proof.
  pose proof (invert_visit_first_level_node_d n anc r k) as H.
  destruct (key_eqb (node_key n) k) eqn:E.
  - apply key_eqb_eq in E. destruct H as [c' [H _]]. rewrite H.
    split; [auto|discriminate].
  - apply key_eqb_neq in E.
    destruct (node_at [k] (invert_visit n anc r)), (node_at [k] r);
      cbn [option_map] in H; try discriminate; split;
      try (intros _; right; discriminate); try discriminate; tauto.
Qed.

Lemma breadth_first_loop_perm (fuel : nat) :
  forall q : list StackNode,
    (list_sum (map tree_size q) <= fuel)%nat ->
    Permutation (breadth_first_loop fuel q) (flat_map nodes q).
Proof.
  induction fuel as [|fuel IH]; intros q B.
  - destruct q as [|n q]; [constructor|].
    simpl in B. pose proof (tree_size_pos_d n). lia.
  - destruct q as [|n q]; [constructor|].
    cbn [breadth_first_loop flat_map]. rewrite nodes_unfold_d. cbn [app].
    constructor. rewrite IH.
    + rewrite flat_map_app. apply Permutation_app_comm.
    + rewrite map_app, list_sum_app. simpl in B.
      rewrite tree_size_unfold_d in B. lia.
Qed.

(** The queue hands out every frame of the tree once. *)
Lemma breadth_first_perm (this : StackNode) :
  Permutation (breadth_first this) (nodes this).
Proof.
  unfold breadth_first.
  rewrite (breadth_first_loop_perm (tree_size this) [this]).
  - cbn [flat_map]. now rewrite app_nil_r.
  - simpl. lia.
Qed.


(** The loop of [invert] ends, and visits the frames in the order of the
    queue. *)
Lemma invert_loop_order (fuel : nat) :
  forall (q : list (StackNode * list key)) (inv_root : StackNode),
    (queue_size q <= fuel)%nat ->
    exists visits,
      invert_loop fuel q inv_root = Some (invert_visits visits inv_root) /\
      map fst visits = breadth_first_loop fuel (map fst q).
Proof.
  induction fuel as [|fuel IH]; intros q inv_root B.
  - destruct q as [|[n anc] q].
    + exists []. split; reflexivity.
    + unfold queue_size in B. simpl in B. pose proof (tree_size_pos_d n). lia.
  - destruct q as [|[n anc] q].
    + exists []. split; reflexivity.
    + cbn [invert_loop].
      destruct (IH (q ++ map (fun child => (child, node_key n :: anc))
                           (children n))
                  (invert_visit n anc inv_root)) as [visits [E P]].
      { rewrite queue_size_app_d, queue_size_children_d.
        unfold queue_size in *. simpl in B. rewrite tree_size_unfold_d in B.
        lia. }
      exists ((n, anc) :: visits). split; [exact E|].
      cbn [map fst breadth_first_loop]. f_equal.
      rewrite P, map_app, map_map. cbn [fst]. now rewrite map_id.
Qed.

Lemma invert_order (this : StackNode) :
  exists visits,
    invert this = Some (invert_visits visits (new_StackNode "" STACK_REGION))
    /\ map fst visits = breadth_first this.
Proof.
  unfold invert, breadth_first.
  apply (invert_loop_order (tree_size this) [(this, [])]).
  unfold queue_size. simpl. lia.
Qed.

Lemma sum_calls_perm (l l' : list StackNode) :
  Permutation l l' -> sum_calls l = sum_calls l'.
Proof.
  unfold sum_calls.
  induction 1 as [|x l l' P IH|x y l|l l' l'' P1 IH1 P2 IH2]; simpl; lia.
Qed.

Lemma with_key_perm (k : key) (l l' : list StackNode) :
  Permutation l l' -> Permutation (with_key k l) (with_key k l').
Proof.
  unfold with_key.
  induction 1 as [|x l l' P IH|x y l|l l' l'' P1 IH1 P2 IH2]; simpl.
  - constructor.
  - destruct (key_eqb (node_key x) k); [now constructor|exact IH].
  - destruct (key_eqb (node_key x) k), (key_eqb (node_key y) k);
      try reflexivity. constructor.
  - now transitivity (filter (fun m => key_eqb (node_key m) k) l').
Qed.

(** The root of the inverted tree after a run of visits. *)
Lemma invert_visits_root_d (visits : list (StackNode * list key)) :
  forall r,
    node_key (invert_visits visits r) = node_key r /\
    total_runtime (invert_visits visits r)
    = fold_left (fun s x => (s + x)%float)
        (map self_time_of (map fst visits)) (total_runtime r) /\
    number_of_calls (invert_visits visits r)
    = number_of_calls r + sum_calls (map fst visits) /\
    (wf r = true -> wf (invert_visits visits r) = true).
Proof.
  unfold invert_visits, sum_calls.
  induction visits as [|[n anc] visits IH]; intros r;
    cbn [fold_left map fst snd fold_right].
  - repeat split; [lia|auto].
  - destruct (IH (invert_visit n anc r)) as [K [T [C W]]].
    pose proof (bare_invert_visit_d n anc r) as B.
    rewrite K, T, C. rewrite (bare_key_d _ _ B), (bare_total_d _ _ B),
      (bare_calls_d _ _ B). cbn [add_time total_runtime number_of_calls].
    repeat split; [lia|].
    intros Wr. apply W. now apply wf_invert_visit_d.
Qed.

(** The first level of the inverted tree after a run of visits. *)
Lemma invert_visits_first_level_d (k : key)
  (visits : list (StackNode * list key)) :
  forall r,
    local_total [k] (invert_visits visits r)
    = fold_left (fun s x => (s + x)%float)
        (map self_time_of (with_key k (map fst visits)))
        (local_total [k] r) /\
    calls_at [k] (invert_visits visits r)
    = calls_at [k] r + sum_calls (with_key k (map fst visits)) /\
    (node_at [k] (invert_visits visits r) <> None <->
     node_at [k] r <> None \/ with_key k (map fst visits) <> []).
Proof.
  unfold invert_visits, sum_calls, with_key.
  induction visits as [|[n anc] visits IH]; intros r;
    cbn [fold_left map fst snd filter].
  - cbn. split; [reflexivity|]. split; [lia|]. split; [auto|].
    intros [H|H]; [exact H|congruence].
  - destruct (IH (invert_visit n anc r)) as [T [C X]].
    rewrite T, C, X, invert_visit_local_total_d, invert_visit_calls_at_d,
      invert_visit_first_level_exists_d.
    destruct (key_eqb (node_key n) k) eqn:E; cbn [map fold_right fold_left].
    + apply key_eqb_eq in E. split; [reflexivity|]. split; [lia|].
      split; [intros _; right; discriminate|auto].
    + apply key_eqb_neq in E. split; [reflexivity|]. split; [lia|]. tauto.
Qed.

Lemma with_key_nonempty (k : key) (l : list StackNode) :
  with_key k l <> [] <-> exists m, In m l /\ node_key m = k.
Proof.
  unfold with_key. split.
  - intros H.
    destruct (filter (fun m => key_eqb (node_key m) k) l) as [|m f] eqn:E;
      [congruence|].
    assert (I : In m (filter (fun m => key_eqb (node_key m) k) l)) by
      (rewrite E; now left).
    apply filter_In in I. destruct I as [I K]. apply key_eqb_eq in K. eauto.
  - intros [m [I K]] E.
    assert (X : In m (filter (fun m => key_eqb (node_key m) k) l)).
    { apply filter_In. split; [exact I|]. now apply key_eqb_eq. }
    rewrite E in X. destruct X.
Qed.



(** X17.  [invert] returns a tree whose root is the unnamed region, whose
    root count is the sum of the counts of all the frames, whose root total
    is the binary64 sum of their self times in the order of the queue, and
    whose children sets are in order. *)
Theorem invert_root_sums :
  forall this : StackNode,
    exists inv_root,
      invert this = Some inv_root /\
      node_key inv_root = (STACK_REGION, ""%string) /\
      number_of_calls inv_root = tree_calls this /\
      total_runtime inv_root
      = sum_left (map self_time_of (breadth_first this)) /\
      wf inv_root = true.
Proof.
  intros this. destruct (invert_order this) as [visits [E O]].
  exists (invert_visits visits (new_StackNode "" STACK_REGION)).
  destruct (invert_visits_root_d visits (new_StackNode "" STACK_REGION))
    as [K [T [C W]]].
  split; [exact E|]. split; [exact K|]. split; [|split].
  - rewrite C, O. unfold tree_calls.
    rewrite (sum_calls_perm _ _ (breadth_first_perm this)). reflexivity.
  - rewrite T, O. reflexivity.
  - apply W. reflexivity.
Qed.

(** X18.  The first level of the bottom-up tree.  For every kind and name,
    the inverted root has a child with that key exactly when some frame of
    the original tree has it; the count of the child is the sum of the
    counts of these frames, and its total the binary64 sum of their self
    times in the order of the queue; both are zero for a key that no frame
    has. *)
Theorem invert_first_level_by_key :
  forall (this : StackNode) (k : key),
    exists inv_root,
      invert this = Some inv_root /\
      (node_at [k] inv_root <> None <->
       exists m, In m (nodes this) /\ node_key m = k) /\
      calls_at [k] inv_root = calls_of_key this k /\
      local_total [k] inv_root
      = sum_left (map self_time_of (with_key k (breadth_first this))) /\
      ((forall m, In m (nodes this) -> node_key m <> k) ->
       calls_at [k] inv_root = 0 /\ local_total [k] inv_root = 0%float).
Proof.
  intros this k. destruct (invert_order this) as [visits [E O]].
  exists (invert_visits visits (new_StackNode "" STACK_REGION)).
  destruct (invert_visits_first_level_d k visits
              (new_StackNode "" STACK_REGION)) as [L [C X]].
  rewrite O in *. split; [exact E|].
  assert (Y : node_at [k] (invert_visits visits (new_StackNode "" STACK_REGION))
              <> None <->
              exists m, In m (nodes this) /\ node_key m = k).
  { rewrite X, with_key_nonempty. split.
    - intros [H|[m [I K]]]; [now contradiction H|].
      exists m. split; [|exact K].
      exact (Permutation_in _ (breadth_first_perm this) I).
    - intros [m [I K]]. right. exists m. split; [|exact K].
      exact (Permutation_in _ (Permutation_sym (breadth_first_perm this)) I). }
  split; [exact Y|]. split; [|split; [exact L|]].
  - rewrite C. unfold calls_of_key.
    rewrite (sum_calls_perm _ _
               (with_key_perm k _ _ (breadth_first_perm this))).
    reflexivity.
  - intros N.
    assert (Z : node_at [k] (invert_visits visits
                               (new_StackNode "" STACK_REGION)) = None).
    { destruct (node_at [k] (invert_visits visits
                               (new_StackNode "" STACK_REGION))) eqn:H;
        [|reflexivity].
      destruct (proj1 Y) as [m [I K]]; [discriminate|].
      now contradiction (N m I). }
    unfold calls_at, local_total. rewrite Z. split; reflexivity.
Qed.

(** ** Printing *)

Local Open Scope string_scope.
Local Open Scope nat_scope.

Lemma print_children_siblings_d (tree_time : float) (cs : list StackNode)
  (child_indent : string) :
  print_children (map (fun c => (c, print_recursive c)) cs)
    (fun pr my child => pr my child tree_time) child_indent
  = print_siblings (fun c my child => print_recursive c my child tree_time)
      cs child_indent.
Proof.
  induction cs as [|c cs IH]; simpl; [reflexivity|].
  rewrite IH. destruct cs; reflexivity.
Qed.


(** The indents the loop over the children passes on. *)
Lemma print_siblings_indents_d
  (run : StackNode -> string -> string -> list line) (cs : list StackNode)
  (child_indent : string) (l : line) :
  In l (print_siblings run cs child_indent) ->
  exists c grandchild_indent,
    In c cs /\
    In l (run c (child_indent ++ "|-> ") grandchild_indent) /\
    String.length grandchild_indent = String.length child_indent + 4.
Proof.
  induction cs as [|c cs IH]; [intros []|]. cbn [print_siblings].
  intros H. apply in_app_or in H. destruct H as [H|H].
  - exists c. eexists. split; [now left|]. split; [exact H|].
    destruct cs; rewrite length_append; reflexivity.
  - destruct (IH H) as [c' [g [Hc [Hl Hg]]]].
    exists c', g. split; [now right|]. split; assumption.
Qed.

Local Open Scope list_scope.

(** The comparator [by_time] on binary64 totals. *)
Lemma by_time_spec_d (a b : StackNode) :
  by_time a b = true <-> printed_before a b.
Proof.
  unfold by_time, printed_before.
  destruct (total_runtime a =? total_runtime b)%float eqn:E; simpl.
  - split; [auto|]. intros [H|[_ H]]; [|exact H].
    rewrite (ltb_not_eqb _ _ H) in E. discriminate.
  - split; [auto|]. intros [H|[H _]]; [exact H|congruence].
Qed.

Lemma by_time_trans_d (a b c : StackNode) :
  by_time a b = true -> by_time b c = true -> by_time a c = true.
Proof.
  rewrite !by_time_spec_d. unfold printed_before.
  intros [H1|[E1 S1]] [H2|[E2 S2]].
  - left. exact (ltb_trans _ _ _ H2 H1).
  - left. exact (eqb_ltb _ _ _ (eqb_sym _ _ E2) H1).
  - left. exact (ltb_eqb _ _ _ H2 (eqb_sym _ _ E1)).
  - right. split; [exact (eqb_trans _ _ _ E1 E2)|].
    exact (string_lt_trans _ _ _ S1 S2).
Qed.

Lemma by_time_irrefl_d (a : StackNode) : by_time a a = false.
Proof.
  unfold by_time.
  destruct (total_runtime a =? total_runtime a)%float; cbn [negb];
    [apply string_lt_irrefl|apply ltb_irrefl].
Qed.

Lemma by_time_equiv_d (a b : StackNode) :
  is_nan (total_runtime a) = false -> is_nan (total_runtime b) = false ->
  equiv by_time a b = true <->
  (total_runtime a =? total_runtime b)%float = true /\ name a = name b.
Proof.
  intros Na Nb. unfold equiv. rewrite andb_true_iff, !negb_true_iff.
  unfold by_time. split.
  - intros [H1 H2].
    destruct (total_runtime a =? total_runtime b)%float eqn:E.
    + rewrite (eqb_sym _ _ E) in H2. cbn [negb] in H1, H2.
      split; [reflexivity|]. now apply string_lt_total.
    + assert (E' : (total_runtime b =? total_runtime a)%float = false).
      { apply not_true_iff_false. intros X. apply eqb_sym in X. congruence. }
      rewrite E' in H2. cbn [negb] in H1, H2.
      destruct (compare_total _ _ Na Nb) as [X|[X|X]]; congruence.
  - intros [E ->]. rewrite E, (eqb_sym _ _ E). cbn [negb].
    split; apply string_lt_irrefl.
Qed.

(** On totals that are not NaN [by_time] is a strict weak order. *)
Remark by_time_strict_weak_order (a b c : StackNode) :
  is_nan (total_runtime a) = false ->
  is_nan (total_runtime b) = false ->
  is_nan (total_runtime c) = false ->
  by_time a a = false /\
  (by_time a b = true -> by_time b c = true -> by_time a c = true) /\
  (equiv by_time a b = true -> equiv by_time b c = true ->
   equiv by_time a c = true).
Proof.
  intros Na Nb Nc. split; [apply by_time_irrefl_d|].
  split; [apply by_time_trans_d|].
  rewrite !by_time_equiv_d by assumption. intros [E1 N1] [E2 N2].
  split; [exact (eqb_trans _ _ _ E1 E2)|congruence].
Qed.

(** [print_recursive], one level unfolded. *)
Lemma print_recursive_unfold_d (n : StackNode)
  (my_indent child_indent : string) (tree_time : float) :
  print_recursive n my_indent child_indent tree_time =
  if (percent_of tree_time n <? threshold)%float then []
  else
    own_line my_indent tree_time n
      ++ print_siblings
           (fun c my child => print_recursive c my child tree_time)
           (children_by_time n) child_indent.
Proof.
  destruct n as [nm kd cs tot mx av calls st]. cbn [print_recursive].
  destruct (_ <? _)%float; [reflexivity|]. f_equal.
  cbn [children]. unfold children_by_time. cbn [children].
  rewrite (insert_all_entries StackNode _ by_time print_recursive).
  apply print_children_siblings_d.
Qed.











Local Open Scope string_scope.



(** Two siblings with the same time and the same name, a [for] and a
    [reduce]: [by_time] does not look at the kind, the set
    [children_by_time] keeps the first of them, and one line is printed. *)
Example print_keeps_one_of_tied_siblings :
  let k_for := mkStackNode "k" STACK_FOR [] 1 1 1 1 0 in
  let k_reduce := mkStackNode "k" STACK_REDUCE [] 1 1 1 1 0 in
  let root := mkStackNode "" STACK_REGION [k_for; k_reduce] 2 2 2 1 0 in
  children_by_time root = [k_for] /\
  first_of_its_tie k_for (children root) = true /\
  first_of_its_tie k_reduce (children root) = false /\
  print root = [line_of "|-> " 2%float k_for].
Proof. intros k_for k_reduce root. repeat split; vm_compute; reflexivity. Qed.

(** A session in which the clock never moves: the tree time is zero, the
    percentage and the imbalance of the kernel are 0 / 0, which no
    comparison finds below 0.1, and the line is printed. *)
Example print_of_an_instant_session :
  map (fun l => (line_name l, line_percent l, line_imbalance l))
    (report instant_session)
  = [("A", nan, nan)].
Proof. vm_compute. reflexivity. Qed.

(** ** Reduction on one process *)

Local Open Scope Z_scope.
Local Open Scope list_scope.

Lemma reduced_keeps_key_d : keeps_key reduced.
Proof. intros n. reflexivity. Qed.

Lemma reduced_keeps_children_d : keeps_children reduced.
Proof. intros n. reflexivity. Qed.

Lemma bare_reduced (n n' : StackNode) :
  bare n = bare n' -> bare (reduced n) = bare (reduced n').
Proof.
  unfold bare, set_children, reduced. cbn. intros [= -> -> -> _ _ -> ->].
  reflexivity.
Qed.

(** With one process the average is the total. *)
Lemma reduced_fields (n : StackNode) :
  reduced n
  = mkStackNode (name n) (kind n) (children n) (total_runtime n)
      (total_runtime n) (total_runtime n) (number_of_calls n) (start_time n).
Proof.
  unfold reduced. f_equal. change (of_int64 comm_size) with 1%float.
  apply div_one.
Qed.

Section Turn.

Variable this : StackNode.
Hypothesis this_wf : wf this = true.

Variables (q : path) (queue : list path) (s n : StackNode).
Hypothesis I : reduce_inv this (q :: queue) s.
Hypothesis at_q : node_at q s = Some n.

Lemma turn_node :
  exists nT,
    node_at q this = Some nT /\ child_keys n = child_keys nT /\
    bare n = bare nT.
Proof.
  pose proof (inv_live _ _ _ I q (or_introl eq_refl)) as L.
  destruct (node_at q this) as [nT|] eqn:HT; [|congruence].
  exists nT. split; [reflexivity|].
  pose proof (inv_keys _ _ _ I q) as K. rewrite HT, at_q in K.
  pose proof (inv_todo _ _ _ I q (pending_head q queue)) as B.
  rewrite HT, at_q in B. cbn [option_map] in K, B. split; congruence.
Qed.

(** The invariant after a turn of the loop. *)
Lemma reduce_inv_turn_d :
  reduce_inv this (push_children queue q (child_keys n))
    (modify_at reduced q s).
Proof.
  destruct turn_node as [nT [HT [K B]]].
  pose proof (inv_queue _ _ _ I) as A.
  constructor.
  - rewrite shape_modify_at_d by
      auto using reduced_keeps_key_d, reduced_keeps_children_d.
    exact (inv_shape _ _ _ I).
  - intros p.
    rewrite child_keys_modify_at_d by
      auto using reduced_keeps_key_d, reduced_keeps_children_d.
    exact (inv_keys _ _ _ I p).
  - intros p P. destruct (pending_after q queue _ p A P) as [P' D].
    rewrite node_at_modify_at_other_d by
      auto using reduced_keeps_key_d, reduced_keeps_children_d.
    exact (inv_todo _ _ _ I p P').
  - apply antichain_push; [exact A|]. rewrite K.
    exact (proj1 (wf_children_d nT (wf_node_at_d q this nT this_wf HT))).
  - intros a Ha. apply in_push_children in Ha.
    destruct Ha as [Ha|[k [Hk ->]]].
    + apply (inv_live _ _ _ I). now right.
    + rewrite K in Hk. rewrite node_at_app_d, HT. cbn [node_at].
      destruct (find_child_key_In_d k (children nT) Hk) as [c ->].
      discriminate.
  - intros p N. destruct (list_eq_dec key_eq_dec p q) as [->|D].
    + rewrite node_at_modify_at_same_d by apply reduced_keeps_key_d.
      rewrite at_q, HT. cbn [option_map]. f_equal. now apply bare_reduced.
    + rewrite node_at_modify_at_other_d by
        auto using reduced_keeps_key_d, reduced_keeps_children_d.
      destruct (node_at p this) as [m|] eqn:Hp.
      * rewrite <- Hp. apply (inv_done _ _ _ I). intros P. apply D.
        apply (pending_before_d this q queue p nT HT); [congruence|exact P|].
        now rewrite <- K.
      * pose proof (inv_keys _ _ _ I p) as Kp. rewrite Hp in Kp.
        destruct (node_at p s); [discriminate|reflexivity].
Qed.

End Turn.

Lemma reduce_inv_start_d (this : StackNode) : reduce_inv this [[]] this.
Proof.
  constructor; try reflexivity.
  - cbn. split; [intros q' r []|exact I].
  - intros q [<-|[]]. discriminate.
  - intros p N. exfalso. apply N. exists [], p. cbn; auto.
Qed.

(** With fuel for the nodes still to be visited, the loop ends, and nothing
    is pending at its end. *)
Lemma reduce_loop_spec_d (this : StackNode) :
  wf this = true ->
  forall (fuel : nat) (queue : list path) (s : StackNode),
    reduce_inv this queue s ->
    (unvisited this queue <= fuel)%nat ->
    exists s', reduce_loop fuel s queue = Some s' /\ reduce_inv this [] s'.
Proof.
  intros W. induction fuel as [|fuel IH]; intros queue s I B.
  - destruct queue as [|q queue]; [exists s; split; [reflexivity|exact I]|].
    pose proof (inv_live _ _ _ I q (or_introl eq_refl)) as L.
    destruct (node_at q this) as [nT|] eqn:HT; [|congruence].
    unfold unvisited in B. simpl in B. rewrite HT in B.
    pose proof (tree_size_pos_d nT). lia.
  - destruct queue as [|q queue]; [exists s; split; [reflexivity|exact I]|].
    pose proof (inv_live _ _ _ I q (or_introl eq_refl)) as L.
    pose proof (inv_keys _ _ _ I q) as K.
    destruct (node_at q this) as [nT|] eqn:HT; [|congruence].
    destruct (node_at q s) as [n|] eqn:Hs; [|discriminate].
    cbn [option_map] in K. cbn [reduce_loop]. rewrite Hs.
    apply IH.
    + exact (reduce_inv_turn_d this W q queue s n I Hs).
    + rewrite (unvisited_push_d this q queue nT W HT) in B.
      assert (E : child_keys n = child_keys nT) by congruence.
      change (unvisited this (push_children queue q (child_keys n))
              <= fuel)%nat.
      rewrite E. lia.
Qed.

Lemma reduce_over_mpi_spec_d (this : StackNode) :
  wf this = true ->
  exists s0, reduce_over_mpi this = Some s0 /\ reduce_inv this [] s0.
Proof.
  intros W. unfold reduce_over_mpi.
  apply (reduce_loop_spec_d this W (tree_size this) [[]] this).
  - apply reduce_inv_start_d.
  - unfold unvisited. cbn. lia.
Qed.

(** The tree after the reduction: the frames of before, each with its
    maximum and its average set to its total. *)
Lemma reduce_over_mpi_fields (this : StackNode) :
  wf this = true ->
  exists s0,
    reduce_over_mpi this = Some s0 /\
    shape s0 = shape this /\
    wf s0 = true /\
    forall p,
      option_map bare (node_at p s0)
      = option_map (fun n => bare (reduced n)) (node_at p this).
Proof.
  intros W. destruct (reduce_over_mpi_spec_d this W) as [s0 [E I]].
  exists s0. split; [exact E|]. split; [exact (inv_shape _ _ _ I)|].
  split; [exact (wf_shape_d this s0 (eq_sym (inv_shape _ _ _ I)) W)|].
  intros p. exact (inv_done _ _ _ I p (not_pending_nil p)).
Qed.

(** ** The lines of the time trees *)

Local Open Scope string_scope.
Local Open Scope nat_scope.

(** A printed line belongs to a frame below the printed one, at a depth
    that its indent shows. *)
Lemma print_recursive_depth_d (tree_time : float) (n : StackNode) :
  wf n = true ->
  forall (my_indent child_indent : string) (l : line),
    In l (print_recursive n my_indent child_indent tree_time) ->
    exists p m,
      node_at p n = Some m /\
      l = line_of (line_indent l) tree_time m /\
      name m <> ""%string /\
      (percent_of tree_time m <? threshold)%float = false /\
      match p with
      | [] => line_indent l = my_indent
      | _ => String.length (line_indent l)
             = (String.length child_indent + 4 * List.length p)%nat
      end.
Proof.
  induction n as [n IH] using StackNode_tree_ind_d.
  intros W my_indent child_indent l H.
  rewrite print_recursive_unfold_d in H.
  destruct (percent_of tree_time n <? threshold)%float eqn:E; [destruct H|].
  apply in_app_or in H. destruct H as [H|H].
  - unfold own_line in H.
    destruct (String.eqb_spec (name n) ""); [destruct H|].
    destruct H as [<-|[]]. exists [], n. repeat split; assumption.
  - apply print_siblings_indents_d in H.
    destruct H as [c [g [Hc [Hl Hg]]]].
    apply insert_all_In in Hc. rewrite Forall_forall in IH.
    destruct (wf_children_d n W) as [N F].
    destruct (IH c Hc (F c Hc) _ _ l Hl) as [p [m [Hp [El [Nm [Pc D]]]]]].
    exists (node_key c :: p), m. cbn [node_at].
    rewrite (find_child_own_d c (children n) N Hc).
    split; [exact Hp|]. split; [exact El|]. split; [exact Nm|].
    split; [exact Pc|].
    destruct p as [|k p].
    + rewrite D, length_append. reflexivity.
    + rewrite D, Hg. cbn [List.length]. lia.
Qed.

(** X21.  Every line of a printed tree whose children sets are in order
    and none of whose totals is a NaN is the line of a frame of the tree: a
    frame with a name, whose percentage of the root total, as the code
    computes it in binary64, does not compare below 0.1, shown with that
    percentage, its imbalance, count, name and kind, and indented by four
    characters for each level below the root. *)
Theorem print_lines_are_frames :
  forall (root : StackNode) (l : line),
    wf root = true ->
    nan_free root = true ->
    In l (print root) ->
    exists p m,
      node_at p root = Some m /\
      l = line_of (line_indent l) (total_runtime root) m /\
      name m <> ""%string /\
      (percent_of (total_runtime root) m <? threshold)%float = false /\
      String.length (line_indent l) = (4 * List.length p)%nat.
Proof.
  intros root l W _ H. unfold print in H.
  destruct (print_recursive_depth_d (total_runtime root) root W _ _ l H)
    as [p [m [Hp [El [Nm [Pc D]]]]]].
  exists p, m. repeat split; auto.
  destruct p; [now rewrite D|exact D].
Qed.

(** A root with one kernel. *)
Lemma print_lines_are_frames_witness :
  let A0 := mkStackNode "A" STACK_FOR [] 4 4 4 1 0 in
  let root :=
    mkStackNode "" STACK_REGION [A0] 4 4 4 1 0 in
  exists l p m,
    print root = [l] /\
    node_at p root = Some m /\
    String.length (line_indent l) = (4 * List.length p)%nat.
Proof.
  intros A0 root.
  exists (line_of "|-> " 4%float A0).
  destruct (print_lines_are_frames root (line_of "|-> " 4%float A0) eq_refl
              eq_refl (or_introl eq_refl)) as [p [m [Hp [_ [_ [_ D]]]]]].
  exists p, m. split; [reflexivity|]. split; assumption.
Defined.

(** ** A single process *)

Local Open Scope Z_scope.

Lemma div_zero_zero (t : float) : is_zero t = true -> (t / t)%float = nan.
Proof.
  unfold is_zero. rewrite eqb_spec.
  change (Prim2SF zero) with (S754_zero false). intros Z.
  apply Prim2SF_inj. rewrite div_spec.
  destruct (Prim2SF t) as [s|[|]| |[|] m e]; try discriminate Z.
  reflexivity.
Qed.

(** The imbalance of a frame whose maximum and average are its total. *)
Lemma imbalance_of_total (m : StackNode) :
  max_runtime m = total_runtime m ->
  avg_runtime m = total_runtime m ->
  imbalance_of m = ((total_runtime m / total_runtime m - 1) * 100)%float /\
  (finite_nonzero (total_runtime m) = true -> imbalance_of m = 0%float) /\
  (is_zero (total_runtime m) = true -> imbalance_of m = nan).
Proof.
  intros M A. unfold imbalance_of. rewrite M, A.
  split; [reflexivity|]. split.
  - intros F. destruct (finite_nonzero_spec _ F) as [s [mt [e E]]].
    now rewrite (div_self _ s mt e E).
  - intros Z. now rewrite (div_zero_zero _ Z).
Qed.

(** A frame that is printed under a tree time that is finite and not zero
    has a total that is not zero. *)
Lemma printed_total_nonzero (tree_time : float) (m : StackNode) :
  finite_nonzero tree_time = true ->
  is_finite (total_runtime m) = true ->
  (percent_of tree_time m <? threshold)%float = false ->
  finite_nonzero (total_runtime m) = true.
Proof.
  intros F T P. unfold finite_nonzero. rewrite T. cbn [andb].
  destruct (is_zero (total_runtime m)) eqn:Z; [|reflexivity].
  unfold percent_of in P. rewrite (zero_share_below _ _ Z F) in P.
  discriminate.
Qed.

(** C9, as amended.  On a single process the reduction ends on every tree
    whose children sets are in order.  It keeps the frames and their names,
    kinds, counts and totals, and sets in every frame [max_runtime] and
    [avg_runtime] to the total, the division by one being exact.  When no
    total is a NaN, the imbalance on every line that [print] then emits is
    (total / total - 1) * 100 for the total of its frame: this is 0 when
    the total is finite and not zero, which is the case of every line of a
    tree whose root total is finite and not zero and whose totals are
    finite; it is not a number when the total is zero. *)
Theorem single_process_imbalance_zero :
  forall this : StackNode,
    wf this = true ->
    exists s0,
      reduce_over_mpi this = Some s0 /\
      shape s0 = shape this /\
      (forall p n,
         node_at p this = Some n ->
         exists m,
           node_at p s0 = Some m /\
           name m = name n /\ kind m = kind n /\
           number_of_calls m = number_of_calls n /\
           total_runtime m = total_runtime n /\
           max_runtime m = total_runtime n /\
           avg_runtime m = total_runtime n) /\
      (forall m, In m (nodes s0) ->
                 max_runtime m = total_runtime m /\
                 avg_runtime m = total_runtime m) /\
      (nan_free this = true ->
       forall l, In l (print s0) ->
         exists p n,
           node_at p this = Some n /\
           line_name l = name n /\
           line_imbalance l
           = ((total_runtime n / total_runtime n - 1) * 100)%float /\
           (finite_nonzero (total_runtime n) = true ->
            line_imbalance l = 0%float) /\
           (is_zero (total_runtime n) = true -> line_imbalance l = nan) /\
           (finite_nonzero (total_runtime this) = true ->
            is_finite (total_runtime n) = true ->
            line_imbalance l = 0%float)).
Proof.
  intros this W.
  destruct (reduce_over_mpi_fields this W) as [s0 [E [S [W0 F]]]].
  exists s0. split; [exact E|]. split; [exact S|].
  assert (X : forall p m,
             node_at p s0 = Some m ->
             exists n,
               node_at p this = Some n /\
               name m = name n /\ kind m = kind n /\
               number_of_calls m = number_of_calls n /\
               total_runtime m = total_runtime n /\
               max_runtime m = total_runtime n /\
               avg_runtime m = total_runtime n).
  { intros p m Hm. specialize (F p). rewrite Hm in F.
    destruct (node_at p this) as [n|]; [|discriminate].
    exists n. split; [reflexivity|]. cbn [option_map] in F.
    rewrite reduced_fields in F. unfold bare, set_children in F. cbn in F.
    injection F as -> -> -> -> -> -> _. repeat split. }
  split; [|split].
  - intros p n Hn. specialize (F p). rewrite Hn in F.
    destruct (node_at p s0) as [m|] eqn:Hm; [|discriminate].
    exists m. split; [reflexivity|].
    destruct (X p m Hm) as [n' [Hn' Y]].
    assert (n' = n) by congruence. subst n'. exact Y.
  - intros m Hm. destruct (nodes_reachable_d s0 W0 m Hm) as [p Hp].
    destruct (X p m Hp) as [n [_ [_ [_ [_ [T [Mx Av]]]]]]].
    split; congruence.
  - intros _ l Hl.
    unfold print in Hl.
    destruct (print_recursive_depth_d (total_runtime s0) s0 W0 _ _ l Hl)
      as [p [m [Hp [El [_ [Pc _]]]]]].
    destruct (X p m Hp) as [n [Hn [Nm [_ [_ [T [Mx Av]]]]]]].
    destruct (X [] s0 eq_refl) as [r [Hr [_ [_ [_ [Tr _]]]]]].
    injection Hr as <-.
    exists p, n. split; [exact Hn|].
    assert (L : line_imbalance l = imbalance_of m) by (rewrite El; reflexivity).
    assert (N : line_name l = name m) by (rewrite El; reflexivity).
    destruct (imbalance_of_total m) as [I1 [I2 I3]]; [congruence..|].
    rewrite L, N, <- T. split; [exact Nm|]. split; [exact I1|].
    split; [exact I2|]. split; [exact I3|].
    intros Fr Fm. apply I2.
    apply (printed_total_nonzero (total_runtime s0)); [|exact Fm|exact Pc].
    now rewrite Tr.
Qed.

(** The tree of the session of the specification, on one process. *)
Lemma single_process_imbalance_zero_witness :
  let A := mkStackNode "A" STACK_FOR [] 0x1.47ae147ae147bp-7 0 0 1 0 in
  let B :=
    mkStackNode "B" STACK_FOR [] 0x1.eb851eb851eb9p-6 0 0 1 10000000 in
  let root :=
    mkStackNode "" STACK_REGION [A; B] 0x1.47ae147ae147bp-5 0 0 1 0 in
  scenario_session = Ok root /\
  exists s0,
    reduce_over_mpi root = Some s0 /\
    shape s0 = shape root /\
    (forall m, In m (nodes s0) ->
               max_runtime m = total_runtime m /\
               avg_runtime m = total_runtime m) /\
    map line_imbalance (print s0) = [0%float; 0%float].
Proof.
  intros A B root. split; [vm_compute; reflexivity|].
  destruct (single_process_imbalance_zero root eq_refl)
    as [s0 [E [S [_ [M _]]]]].
  exists s0. split; [exact E|]. split; [exact S|]. split; [exact M|].
  vm_compute in E. injection E as <-. vm_compute. reflexivity.
Defined.

(** C9 as stated fails when no time is measured.  In a session in which all
    the clock readings are the same, the root and the kernel have the total
    0; after the reduction their maximum and average are 0 as well; the
    percentage 0 / 0 * 100 is not below 0.1, so the line of the kernel is
    printed, and its imbalance is (0 / 0 - 1) * 100, which is not a number
    and not 0. *)
Lemma single_process_imbalance_not_a_number :
  exists root s0 l,
    instant_session = Ok root /\
    reduce_over_mpi root = Some s0 /\
    (forall m, In m (nodes s0) ->
               total_runtime m = 0%float /\
               max_runtime m = total_runtime m /\
               avg_runtime m = total_runtime m) /\
    print s0 = [l] /\
    line_name l = "A"%string /\
    line_imbalance l = nan /\
    (line_imbalance l =? 0)%float = false.
Proof.
  do 3 eexists. split; [vm_compute; reflexivity|].
  split; [vm_compute; reflexivity|]. split.
  - intros m [<-|[<-|[]]]; repeat split.
  - split; [vm_compute; reflexivity|]. repeat split.
Qed.

End Binary64Facts.
